(** * SeismicMesh.generation.mesh_generator

    A shallow embedding of [SeismicMesh/generation/mesh_generator.py] and the
    properties of its force-equilibrium mesh generator and sliver-removal
    pass.

    Conventions of the embedding:
    - a numpy array of shape (n, dim) is a list of rows, a row is a list of
      coordinates; a connectivity table is a list of index lists;
    - a Python float is a rational ([Q]) with exact arithmetic: rounding,
      infinities and NaN are outside the model, and a division by zero
      answers zero.  [math.pi] and the machine epsilon are the exact
      rational values of the corresponding doubles, a decimal literal such
      as [0.1] is its decimal value;
    - the communicator is always passed ([comm or MPI.COMM_WORLD] is the
      identity), and what the module prints is not modelled;
    - a callback [fd] or [fh] takes one point and is applied row by row, as
      the docstrings of the module describe it ("a function that takes a
      point and returns the signed nearest distance");
    - code that can raise returns a [result]; code that reads or writes the
      module-level dictionary [opts], the warnings channel or numpy's global
      random generator runs in the state monad [M] over [world];
    - the two [while True] loops take a fuel argument and answer [NoFuel]
      when it runs out. *)

From Stdlib Require Import ZArith QArith Qminmax Qabs Qround List String Bool Lia.
From Stdlib Require Import Sorted Qpower.
From stdpp Require Import base gmap strings list.
Import ListNotations.

Local Open Scope string_scope.
Local Open Scope list_scope.
Local Open Scope Z_scope.

(** ** Python values *)

#[local] Unset Elimination Schemes.

Inductive pyval : Type :=
| PyNone
| PyBool (b : bool)
| PyInt (z : Z)
| PyFloat (q : Q)
| PyStr (s : string)
| PyTuple (l : list pyval)
| PyList (l : list pyval)
| PyArray (a : list (list Q)).

#[local] Set Elimination Schemes.

(** ** Outcomes of Python code

    An exception carries its message; a message built with [%] carries the
    format string and the values substituted into it. *)

Inductive exn : Type :=
| ValueError (msg : string) (args : list pyval)
| Exception (msg : string)
| AssertionError (msg : string)
| KeyError (key : string)
| TypeError
| AttributeError
| IndexError
| UnboundLocalError.

Inductive result (A : Type) : Type :=
| Ok (a : A)
| Raise (e : exn)
| NoFuel.

Arguments Ok {A} a.
Arguments Raise {A} e.
Arguments NoFuel {A}.

Global Instance result_ret : MRet result := fun A a => Ok a.

Global Instance result_bind : MBind result := fun A B k r =>
  match r with
  | Ok a => k a
  | Raise e => Raise e
  | NoFuel => NoFuel
  end.

Fixpoint rmap {A B} (f : A -> result B) (l : list A) : result (list B) :=
  match l with
  | [] => Ok []
  | a :: l' => b ← f a; bs ← rmap f l'; Ok (b :: bs)
  end.

(** ** Floats and arrays *)

Definition Qltb (x y : Q) : bool := negb (Qle_bool y x).

(** A point is a row of coordinates, a cell a row of vertex numbers. *)
Abbreviation point := (list Q) (only parsing).
Abbreviation cell := (list nat) (only parsing).

(** [p.shape[1]]: the width of the rows. *)
Definition shape1 (p : list point) : nat := length (hd [] p).

Definition vadd (u v : point) : point := zip_with Qplus u v.
Definition vsub (u v : point) : point := zip_with Qminus u v.
Definition vscale (c : Q) (u : point) : point := map (Qmult c) u.
Definition vdiv (u : point) (c : Q) : point := map (fun x => x / c)%Q u.
Definition vneg (u : point) : point := map Qopp u.

(** [a.sum(0)] of an array with rows [vs] of width [dim]. *)
Definition vsum (dim : nat) (vs : list point) : point :=
  fold_left vadd vs (repeat 0%Q dim).

(** [a.sum()] of a vector, and [a.sum(1)] of an array. *)
Definition qsum (xs : list Q) : Q := fold_left Qplus xs 0%Q.
Definition row_sums (vs : list point) : list Q := map qsum vs.

(** Integer power [x ** n]. *)
Definition qpow (x : Q) (n : nat) : Q := Qpower x (Z.of_nat n).

(** [a.T] of an array with [k] columns. *)
Definition transpose (k : nat) (rows : list (list Q)) : list (list Q) :=
  map (fun j => map (fun r => nth j r 0%Q) rows) (seq 0 k).

(** Fancy indexing [p[ix]] with an integer index list: out of range raises. *)
Definition take_rows {A} (p : list A) (ix : list nat) : result (list A) :=
  rmap (fun i => match p !! i with Some x => Ok x | None => Raise IndexError end) ix.

(** Boolean-mask indexing [a[mask]]. *)
Fixpoint mask_select {A} (mask : list bool) (xs : list A) : list A :=
  match mask, xs with
  | b :: mask', x :: xs' =>
      if b then x :: mask_select mask' xs' else mask_select mask' xs'
  | _, _ => []
  end.

(** Boolean-mask assignment [a[mask] = new], [new] holding one row per
    selected position. *)
Fixpoint mask_update {A} (mask : list bool) (xs new : list A) : list A :=
  match mask, xs with
  | b :: mask', x :: xs' =>
      if b then
        match new with
        | n :: new' => n :: mask_update mask' xs' new'
        | [] => x :: mask_update mask' xs' []
        end
      else x :: mask_update mask' xs' new
  | _, _ => xs
  end.

(** ** TRIM: [_remove_triangles_outside] *)

Definition _remove_triangles_outside
    (p : list point) (t : list cell) (fd : point -> Q) (geps : Q)
  : result (list cell) :=
  let dim := shape1 p in
  pt ← rmap (take_rows p) t;
  let pmid := map (fun vs => vdiv (vsum dim vs) (inject_Z (Z.of_nat (dim + 1)))) pt in
  Ok (mask_select (map (fun c => Qltb c (- geps)) (map fd pmid)) t).

(** The centroid of a cell in the words of the specification: per
    coordinate, the mean over the vertices of the cell. *)
Definition centroid (p : list point) (c : cell) : point :=
  map (fun k =>
         (qsum (map (fun i => nth k (nth i p []) 0%Q) c)
          / inject_Z (Z.of_nat (length c)))%Q)
      (seq 0 (shape1 p)).

(** A cell array that fits a point array: every index is in range, every
    row of [p] has the same width [dim] and every cell has [dim + 1]
    vertices. *)
Definition mesh_wf (p : list point) (t : list cell) : Prop :=
  Forall (fun x => length x = shape1 p) p /\
  Forall (fun c => length c = (shape1 p + 1)%nat /\
                   Forall (fun i => (i < length p)%nat) c) t.

(** ** PROJECT: [_project_points_back_newton] *)

Definition _deps_vec (dim : nat) (deps : Q) (i : nat) : point :=
  <[i := deps]> (repeat 0%Q dim).

Definition _project_points_back_newton
    (p : list point) (fd : point -> Q) (deps : Q) : list point :=
  let dim := shape1 p in
  let d := map fd p in
  let ix := map (fun di => Qltb 0 di) d in
  if existsb id ix then
    let pix := mask_select ix p in
    let dix := mask_select ix d in
    let dgrads :=
      map (fun i =>
             zip_with (fun a b => ((a - b) / deps)%Q)
                      (map fd (map (fun x => vadd x (_deps_vec dim deps i)) pix))
                      dix)
          (seq 0 dim) in
    let dgrad2 :=
      fold_left (zip_with Qplus) (map (map (fun g => qpow g 2)) dgrads)
                (repeat 0%Q (length pix)) in
    let dgrad2 := map (fun g => if Qltb g deps then deps else g) dgrad2 in
    let step :=
      transpose (length pix)
        (map (fun dgrad =>
                zip_with (fun x g2 => (x / g2)%Q) (zip_with Qmult dix dgrad) dgrad2)
             dgrads) in
    mask_update ix p (zip_with vsub pix step)
  else p.

(** One Newton step on a single point, in the words of the specification:
    [p -= fd(p) * grad / |grad|^2] with a forward finite-difference gradient
    of step [deps] and [|grad|^2] clamped from below by [deps]. *)
Definition newton_point (dim : nat) (fd : point -> Q) (deps : Q) (x : point) : point :=
  let grad := map (fun i => ((fd (vadd x (_deps_vec dim deps i)) - fd x) / deps)%Q)
                  (seq 0 dim) in
  let g2 := fold_left Qplus (map (fun g => qpow g 2) grad) 0%Q in
  let g2 := if Qltb g2 deps then deps else g2 in
  vsub x (map (fun g => (fd x * g / g2)%Q) grad).

(** ** Dynamic typing helpers *)

(** The number a value denotes in arithmetic and comparisons ([bool] is a
    subclass of [int]). *)
Definition py_num (v : pyval) : option Q :=
  match v with
  | PyBool b => Some (if b then 1 else 0)%Q
  | PyInt z => Some (inject_Z z)
  | PyFloat q => Some q
  | _ => None
  end.

Definition py_float (v : pyval) : result Q :=
  match py_num v with Some q => Ok q | None => Raise TypeError end.

(** [isinstance(v, int)] *)
Definition py_isinstance_int (v : pyval) : bool :=
  match v with PyBool _ | PyInt _ => true | _ => false end.

(** [isinstance(v, tuple)] *)
Definition py_isinstance_tuple (v : pyval) : bool :=
  match v with PyTuple _ => true | _ => false end.

(** [v is None] *)
Definition py_is_none (v : pyval) : bool :=
  match v with PyNone => true | _ => false end.

(** Truth value of [v] in a condition. *)
Definition py_truthy (v : pyval) : bool :=
  match v with
  | PyNone => false
  | PyBool b => b
  | PyInt z => negb (Z.eqb z 0)
  | PyFloat q => negb (Qeq_bool q 0)
  | PyStr s => negb (String.eqb s "")
  | PyTuple l | PyList l => negb (Nat.eqb (length l) 0)
  | PyArray a => negb (Nat.eqb (length a) 0)
  end.

(** [a == b] on values: numbers compare by value across [bool], [int] and
    [float]; sequences compare element by element and by kind. *)
Fixpoint py_eqb (a b : pyval) : bool :=
  let fix all2 (xs ys : list pyval) : bool :=
    match xs, ys with
    | [], [] => true
    | x :: xs', y :: ys' => py_eqb x y && all2 xs' ys'
    | _, _ => false
    end in
  match a, b with
  | PyNone, PyNone => true
  | PyStr s, PyStr s' => String.eqb s s'
  | PyTuple l, PyTuple l' => all2 l l'
  | PyList l, PyList l' => all2 l l'
  | PyArray x, PyArray y =>
      if decide (length x = length y) then
        forallb (fun r => if decide (length r.1 = length r.2)
                          then forallb (fun c => Qeq_bool c.1 c.2) (zip r.1 r.2)
                          else false) (zip x y)
      else false
  | _, _ =>
      match py_num a, py_num b with
      | Some x, Some y => Qeq_bool x y
      | _, _ => false
      end
  end.

(** [for b in v] *)
Definition py_iter (v : pyval) : result (list pyval) :=
  match v with
  | PyTuple l | PyList l => Ok l
  | PyArray a => Ok (map (fun r => PyList (map PyFloat r)) a)
  | _ => Raise TypeError
  end.

(** [max(a, b)] and [min(a, b)] of the built-ins: the first argument wins
    ties. *)
Definition py_max (a b : pyval) : result pyval :=
  x ← py_float a; y ← py_float b; Ok (if Qltb x y then b else a).

Definition py_min (a b : pyval) : result pyval :=
  x ← py_float a; y ← py_float b; Ok (if Qltb y x then b else a).

(** [np.array(v, dtype="d")] for a two-dimensional result. *)
Definition np_array (v : pyval) : result (list point) :=
  match v with
  | PyArray a => Ok a
  | PyTuple l | PyList l =>
      rmap (fun r => xs ← py_iter r; rmap py_float xs) l
  | _ => Raise TypeError
  end.

(** ** The module state

    [opts] is a module-level dictionary shared by every call in the process;
    numpy's global random generator and the warnings channel are the other
    two pieces of process state the module touches.  The state of the
    generator is coded as an integer. *)

Record world : Type := World {
  w_opts : gmap string pyval;
  w_rng : Z;
  w_warnings : list string
}.

Definition M (A : Type) : Type := world -> result A * world.

Global Instance M_ret : MRet M := fun A a w => (Ok a, w).

Global Instance M_bind : MBind M := fun A B k m w =>
  match m w with
  | (Ok a, w') => k a w'
  | (Raise e, w') => (Raise e, w')
  | (NoFuel, w') => (NoFuel, w')
  end.

Definition lift {A} (r : result A) : M A := fun w => (r, w).
Definition raise {A} (e : exn) : M A := lift (Raise e).
Definition get_opts : M (gmap string pyval) := fun w => (Ok (w_opts w), w).
Definition put_opts (o : gmap string pyval) : M unit :=
  fun w => (Ok tt, World o (w_rng w) (w_warnings w)).
Definition put_rng (g : Z) : M unit :=
  fun w => (Ok tt, World (w_opts w) g (w_warnings w)).
Definition get_rng : M Z := fun w => (Ok (w_rng w), w).

(** [warnings.warn(msg)] *)
Definition warnings_warn (msg : string) : M unit :=
  fun w => (Ok tt, World (w_opts w) (w_rng w) (w_warnings w ++ [msg])).

(** The value of [opts] when the module is imported. *)
Definition opts : gmap string pyval :=
  list_to_map
    [ ("verbose", PyInt 1);
      ("max_iter", PyInt 50);
      ("seed", PyInt 0);
      ("perform_checks", PyBool false);
      ("pfix", PyNone);
      ("axis", PyInt 1);
      ("min_dh_angle_bound", PyFloat 10);
      ("max_dh_angle_bound", PyFloat 170);
      ("points", PyNone);
      ("delta_t", PyFloat (3 # 10)) ].

(** A process that has just imported the module. *)
Definition fresh_world (rng : Z) : world := World opts rng [].

(** [d[key]] *)
Definition getitem (d : gmap string pyval) (key : string) : result pyval :=
  match d !! key with Some v => Ok v | None => Raise (KeyError key) end.

(** Keyword arguments, in call order. *)
Definition kwargs_t : Type := list (string * pyval).

(** [d.update(kwargs)] *)
Definition dict_update (d : gmap string pyval) (kwargs : kwargs_t) : gmap string pyval :=
  foldl (fun m kv => <[kv.1 := kv.2]> m) d kwargs.

Definition opts_update (kwargs : kwargs_t) : M unit :=
  o ← get_opts; put_opts (dict_update o kwargs).

(** [opts[key]] on the module dictionary. *)
Definition opt (key : string) : M pyval :=
  o ← get_opts; lift (getitem o key).

(** ** Predicates on computations *)

(** A computation that leaves the world as it found it. *)
Definition frame {A} (m : M A) : Prop := forall w, (m w).2 = w.

(** A computation that leaves the stored configuration and the warnings
    channel as it found them. *)
Definition keeps_opts {A} (m : M A) : Prop :=
  forall w, w_opts (m w).2 = w_opts w /\ w_warnings (m w).2 = w_warnings w.

(** A validation step leaves the world alone and answers [Ok] or [Raise]. *)
Definition validates {A} (m : M A) : Prop :=
  frame m /\ forall w, (m w).1 <> NoFuel.

(** A computation that raises in the world [w], leaving it as it is. *)
Definition raises_at {A} (w : world) (m : M A) : Prop :=
  exists e, m w = (Raise e, w).

(** A computation whose outcome and whose effect on the stored
    configuration depend on the stored configuration only: not on the state
    of the random generator, not on the warnings issued so far. *)
Definition deterministic {A} (m : M A) : Prop :=
  forall w1 w2, w_opts w1 = w_opts w2 ->
    (m w1).1 = (m w2).1 /\ w_opts (m w1).2 = w_opts (m w2).2.

(** A computation that does not return a value in the world [w]: it raises
    or it runs out of fuel. *)
Definition never_returns {A} (w : world) (m : M A) : Prop :=
  forall r, (m w).1 <> Ok r.

(** ** Validation of the call *)

Definition recognized_keys : list string :=
  [ "verbose"; "max_iter"; "seed"; "perform_checks"; "pfix"; "axis"; "points";
    "domain"; "edge_length"; "bbox"; "min_dh_angle_bound"; "max_dh_angle_bound";
    "delta_t"; "h0" ].

Definition recognized (key : string) : bool :=
  existsb (String.eqb key) recognized_keys.

Fixpoint _parse_kwargs (kwargs : kwargs_t) : result unit :=
  match kwargs with
  | [] => Ok tt
  | (key, v) :: rest =>
      if recognized key then _parse_kwargs rest
      else Raise (ValueError "Option %s with parameter %s not recognized "
                             [PyStr key; v])
  end.

(** [silence] and [talk] wrap the two printing helpers; what is printed is
    not part of the model, so a decorator is the flag saying whether the
    wrapped helper prints. *)
Definition silence : bool := false.
Definition talk : bool := true.

Definition _select_verbosity (o : gmap string pyval) : result (bool * bool) :=
  verbose ← getitem o "verbose";
  v ← py_float verbose;
  if Qeq_bool v 0 then Ok (silence, silence)
  else if Qeq_bool v 1 then Ok (talk, silence)
  else if Qltb 1 v then Ok (talk, talk)
  else Raise (ValueError "Unknown verbosity level" []).

(** ** External collaborators

    The communicator of a process, and everything the module imports:
    numpy's transcendental functions and global random generator, the CGAL
    Delaunay classes, and the sibling modules [geometry], [migration],
    [decomp] and [generation.utils] with the MPI collectives.  They are
    total functions here; a collective is a function of what the calling
    rank passes to it. *)

Record comm_t : Type := Comm { rank : nat; size : nat }.

Class Externals : Type := {
  (** numpy *)
  np_sqrt : Q -> Q;
  np_power : Q -> Q -> Q;
  np_random_seed : pyval -> Z;
  np_random_rand : Z -> nat -> list Q * Z;
  (** [cpp.delaunay_class] and [cpp.delaunay_class3] *)
  DelaunayTriangulation : Type;
  DT2 : DelaunayTriangulation;
  DT3 : DelaunayTriangulation;
  dt_insert : DelaunayTriangulation -> list Q -> DelaunayTriangulation;
  dt_move : DelaunayTriangulation -> list nat -> list Q -> DelaunayTriangulation;
  get_finite_vertices : DelaunayTriangulation -> list point;
  get_finite_cells : DelaunayTriangulation -> list cell;
  (** [geometry] *)
  Rectangle_eval : pyval -> point -> Q;
  Cube_eval : pyval -> point -> Q;
  unique_edges : list (list nat) -> list (list nat);
  fix_mesh : list point -> list cell -> nat -> list point * list cell;
  linter : list point -> list cell -> nat -> list point * list cell;
  calc_dihedral_angles : list point -> list cell -> list (list Q);
  calc_circumsphere_grad :
    list point -> list point -> list point -> list point -> list (list (option Q));
  get_boundary_vertices : list cell -> nat -> list nat;
  remove_external_entities :
    list point -> list cell -> list Q -> nat -> list point * list cell * list nat;
  (** [migration] and [decomp] *)
  exports_t : Type;
  blocks_t : Type;
  enqueue : list (list Q) -> list point -> list cell -> nat -> nat -> nat -> exports_t;
  exchange : comm_t -> nat -> nat -> exports_t -> nat -> list point;
  aggregate :
    list point -> list cell -> comm_t -> nat -> nat -> nat -> list point * list cell;
  localize_sizing_function :
    (point -> Q) -> Q -> list point -> nat -> pyval -> comm_t -> point -> Q;
  localize_points :
    option blocks_t -> option (list (list Q)) -> comm_t -> nat ->
    list point * list (list Q);
  blocker : list point -> nat -> nat -> pyval -> blocks_t * list (list Q);
  (** [generation.utils] *)
  make_init_points : list point -> nat -> nat -> pyval -> Q -> nat -> list point;
  create_staggered_grid : Q -> nat -> list point -> list point;
  dense : list (list nat) -> list (list nat) -> list (list Q) -> nat * nat -> list point;
  (** MPI collectives *)
  allreduce_min : comm_t -> Q -> Q;
  bcast : comm_t -> list Q -> nat -> list Q
}.

(** The [domain] argument: a [geometry.Rectangle], [geometry.Cube] or
    [geometry.Disk] object with its extrema and its [eval] method, a
    callable, or anything else. *)
Inductive domain_arg : Type :=
| Rectangle (x1 x2 y1 y2 : pyval) (eval : point -> Q)
| Cube (x1 x2 y1 y2 z1 z2 : pyval) (eval : point -> Q)
| Disk (x1 x2 y1 y2 : pyval) (eval : point -> Q)
| DomainCallable (fd : point -> Q)
| DomainOther.

(** The [edge_length] argument: a [sizing.SizeFunction] object with its
    [bbox] and [eval], a callable, a scalar, or anything else. *)
Inductive sizing_arg : Type :=
| SizeFunction (bbox : pyval) (eval : point -> Q)
| SizingCallable (fh : point -> Q)
| SizingScalar (h : Q)
| SizingOther.

(** What [sliver_removal] returns: the pair [(True, True)] or a mesh. *)
Inductive sliver_ret : Type :=
| TrueTrue
| Mesh (p : list point) (t : list cell).

(** [np.finfo(float).eps], the double 2^-52. *)
Definition float_eps : Q := 1 # 4503599627370496.

(** [math.pi], the double nearest to pi. *)
Definition math_pi : Q := 884279719003555 # 281474976710656.

(** [np.amax(a)] and [np.amin(a)]: an empty array raises. *)
Definition np_amax (xs : list Q) : result Q :=
  match xs with
  | [] => Raise (ValueError "zero-size array to reduction operation maximum which has no identity" [])
  | x :: xs' => Ok (fold_left (fun m y => if Qltb m y then y else m) xs' x)
  end.

Definition np_amin (xs : list Q) : result Q :=
  match xs with
  | [] => Raise (ValueError "zero-size array to reduction operation minimum which has no identity" [])
  | x :: xs' => Ok (fold_left (fun m y => if Qltb y m then y else m) xs' x)
  end.

(** [np.argmin(a)]: the first index of the minimum. *)
Fixpoint argmin_from (best : Q) (bi i : nat) (xs : list Q) : nat :=
  match xs with
  | [] => bi
  | x :: xs' =>
      if Qltb x best then argmin_from x i (S i) xs' else argmin_from best bi (S i) xs'
  end.

Definition np_argmin (xs : list Q) : result nat :=
  match xs with
  | [] => Raise (ValueError "attempt to get argmin of an empty sequence" [])
  | x :: xs' => Ok (argmin_from x 0%nat 1%nat xs')
  end.

(** Column selection [t[:, js]] and a single column [t[:, j]]. *)
Definition cols {A} (t : list (list A)) (js : list nat) : result (list (list A)) :=
  rmap (fun c => take_rows c js) t.

Definition col {A} (t : list (list A)) (j : nat) : result (list A) :=
  rmap (fun c => match c !! j with Some x => Ok x | None => Raise IndexError end) t.

(** Assignment [p[ix] = vals] through an integer index list, in order. *)
Definition scatter {A} (p : list A) (ix : list nat) (vals : list A) : list A :=
  foldl (fun acc iv => <[iv.1 := iv.2]> acc) p (zip ix vals).

(** [np.delete(p, ix, axis=0)] *)
Definition np_delete {A} (p : list A) (ix : list nat) : result (list A) :=
  if forallb (fun i => Nat.ltb i (length p)) ix then
    Ok (map snd (filter (fun ix_x => negb (existsb (Nat.eqb ix_x.1) ix))
                        (zip (seq 0 (length p)) p)))
  else Raise IndexError.

(** A list index that may be negative. *)
Definition py_index (len : nat) (i : Z) : result nat :=
  if (0 <=? i) && (i <? Z.of_nat len) then Ok (Z.to_nat i)
  else if (- Z.of_nat len <=? i) && (i <? 0) then Ok (Z.to_nat (Z.of_nat len + i))
  else Raise IndexError.

Definition py_int (v : pyval) : result Z :=
  match v with
  | PyInt z => Ok z
  | PyBool b => Ok (if b then 1 else 0)
  | _ => Raise TypeError
  end.

Section Generator.

Context `{Ext : Externals}.

(** ** Adapters *)

Fixpoint _minmax_from (i : nat) (l : list (pyval * pyval)) : result (list pyval) :=
  match l with
  | [] => Ok []
  | (a, b) :: l' =>
      c ← (if Nat.odd i then py_max a b else py_min a b);
      d ← _minmax_from (S i) l';
      Ok (c :: d)
  end.

Definition _minmax (bbox0 bbox1 : pyval) : result pyval :=
  xs ← py_iter bbox0;
  ys ← py_iter bbox1;
  d ← _minmax_from 0 (zip xs ys);
  Ok (PyTuple d).

Definition _check_bbox (bbox : pyval) : result unit :=
  if py_is_none bbox then Ok tt
  else
    bs ← py_iter bbox;
    if existsb py_isinstance_int bs
    then Raise (ValueError "bbox must contain all floats" [])
    else Ok tt.

Definition _unpack_sizing (edge_length : sizing_arg)
  : result ((point -> Q) * pyval * option Q) :=
  r ← match edge_length with
      | SizeFunction bbox eval => Ok (eval, bbox, None)
      | SizingCallable fh => Ok (fh, PyNone, None)
      | SizingScalar h => Ok ((fun _ : point => h), PyNone, Some h)
      | SizingOther =>
          Raise (ValueError
                   "`edge_length` must either be a function, a `edge_length` object, or a scalar"
                   [])
      end;
  _ ← _check_bbox r.1.2;
  Ok r.

Definition _unpack_domain (domain : domain_arg) : M ((point -> Q) * pyval) :=
  r ← match domain with
      | Rectangle x1 x2 y1 y2 eval => mret (eval, PyTuple [x1; x2; y1; y2])
      | Cube x1 x2 y1 y2 z1 z2 eval => mret (eval, PyTuple [x1; x2; y1; y2; z1; z2])
      | Disk x1 x2 y1 y2 eval => mret (eval, PyTuple [x1; x2; y1; y2])
      | DomainCallable fd => bbox ← opt "bbox"; mret (fd, bbox)
      | DomainOther =>
          raise (ValueError "`domain` must be a function or a :class:`geometry` object" [])
      end;
  _ ← lift (_check_bbox r.2);
  mret r.

(** ** Oracle access *)

Definition _select_cgal_dim (dim : nat) : option DelaunayTriangulation :=
  if Nat.eqb dim 2 then Some DT2
  else if Nat.eqb dim 3 then Some DT3
  else None.

(** [DT()] on what [_select_cgal_dim] returned: calling [None] raises. *)
Definition call_DT (DT : option DelaunayTriangulation) : result DelaunayTriangulation :=
  match DT with Some dt => Ok dt | None => Raise TypeError end.

Definition _get_topology (dt : DelaunayTriangulation) : list point * list cell :=
  (get_finite_vertices dt, get_finite_cells dt).

Definition _closest_node (node : point) (nodes : list point) : result nat :=
  let deltas := map (fun n => vsub n node) nodes in
  let dist_2 := map (fun d => qsum (zip_with Qmult d d)) deltas in
  np_argmin dist_2.

Definition _dist (p1 p2 : list point) : list Q :=
  map (fun d => np_sqrt (qsum (map (fun x => qpow x 2) d))) (zip_with vsub p1 p2).

(** ** Termination *)

Definition _termination
    (p : list point) (t : list cell) (o : gmap string pyval) (comm : comm_t)
    (sliver : bool) : result (list point * list cell) :=
  let dim := shape1 p in
  let pt := if Nat.ltb 1 (size comm) && negb sliver
            then aggregate p t comm (size comm) (rank comm) dim
            else (p, t) in
  if Nat.eqb (rank comm) 0 then
    checks ← getitem o "perform_checks";
    if py_truthy checks then Ok (linter pt.1 pt.2 dim)
    else Ok (fix_mesh pt.1 pt.2 dim)
  else Ok pt.

(** ** FORCE: [_get_edges] and [_compute_forces] *)

Definition _get_edges (t : list cell) : result (list (list nat)) :=
  let width := length (hd [] t) in
  e01 ← cols t [0; 1]%nat;
  e12 ← cols t [1; 2]%nat;
  e20 ← cols t [2; 0]%nat;
  let edges := e01 ++ e12 ++ e20 in
  edges ← (if Nat.eqb width 4 then
             e03 ← cols t [0; 3]%nat;
             e13 ← cols t [1; 3]%nat;
             e23 ← cols t [2; 3]%nat;
             Ok (edges ++ e03 ++ e13 ++ e23)
           else Ok edges);
  Ok (unique_edges edges).

(** The local arrays of [_compute_forces], one entry per bar. *)
Record bars : Type := Bars {
  b_edges : list (list nat);
  b_barvec : list point;
  b_L : list Q;
  b_hedges : list Q;
  b_L0 : list Q;
  b_F : list Q;
  b_Fvec : list point
}.

(** The global factor [((L ** dim).sum() / (hedges ** dim).sum()) ** (1.0 / dim)]. *)
Definition force_scale (dim : nat) (L hedges : list Q) : Q :=
  np_power (qsum (map (fun l => qpow l dim) L) / qsum (map (fun h => qpow h dim) hedges))%Q
           (1 / inject_Z (Z.of_nat dim))%Q.

Definition _compute_forces_bars
    (p : list point) (t : list cell) (fh : point -> Q) (h0 L0mult : Q)
  : result bars :=
  let dim := shape1 p in
  edges ← _get_edges t;
  e0 ← col edges 0;
  e1 ← col edges 1;
  p0 ← take_rows p e0;
  p1 ← take_rows p e1;
  let barvec := zip_with vsub p0 p1 in
  let L := map (fun v => np_sqrt (qsum (map (fun x => qpow x 2) v))) barvec in
  let L := map (fun l => if Qeq_bool l 0 then float_eps else l) L in
  pe ← rmap (take_rows p) edges;
  let hedges := map fh (map (fun vs => vdiv (vsum dim vs) 2) pe) in
  let L0 := map (fun h => (h * L0mult * force_scale dim L hedges)%Q) hedges in
  let F := zip_with Qminus L0 L in
  let F := map (fun f => if Qltb f 0 then 0%Q else f) F in
  let Fvec :=
    zip_with (fun fl v => vscale fl v)
             (zip_with (fun f l => (f / (l * 1))%Q) F L) barvec in
  Ok (Bars edges barvec L hedges L0 F Fvec).

Definition _compute_forces
    (p : list point) (t : list cell) (fh : point -> Q) (h0 L0mult : Q)
  : result (list point) :=
  let dim := shape1 p in
  let N := length p in
  b ← _compute_forces_bars p t fh h0 L0mult;
  I ← cols (b_edges b) (repeat 0%nat dim ++ repeat 1%nat dim);
  Ok (dense I
            (repeat (seq 0 dim ++ seq 0 dim) (length (b_F b)))
            (zip_with app (b_Fvec b) (map vneg (b_Fvec b)))
            (N, dim)).

(** ** GHOST-SYNC: [_add_ghost_vertices] *)

Definition _add_ghost_vertices
    (p : list point) (t : list cell) (dt : DelaunayTriangulation)
    (extents : list (list Q)) (comm : comm_t)
  : result (list point * list cell * list nat * nat) :=
  let dim := shape1 p in
  let exports := enqueue extents p t (rank comm) (size comm) dim in
  let recv := exchange comm (rank comm) (size comm) exports dim in
  let recv_ix := length recv in
  let dt := dt_insert dt (concat recv) in
  let pt := _get_topology dt in
  extent ← match extents !! rank comm with
           | Some e => Ok e
           | None => Raise IndexError
           end;
  let pti := remove_external_entities pt.1 pt.2 extent dim in
  Ok (pti, recv_ix).

(** ** Level-set tightening: [_improve_level_set_newton] *)

(** One pass of the body of the [while] loop; [d] is computed once, before
    the loop, and is not refreshed by the body. *)
Definition _improve_step
    (dim : nat) (p : list point) (bid : list nat) (d : list Q)
    (fd : point -> Q) (deps : Q) : result (list point) :=
  pb ← take_rows p bid;
  let dgrads :=
    map (fun i =>
           zip_with (fun a b => ((a - b) / deps)%Q)
                    (map fd (map (fun x => vadd x (_deps_vec dim deps i)) pb)) d)
        (seq 0 dim) in
  let dgrad2 :=
    fold_left (zip_with Qplus) (map (map (fun g => qpow g 2)) dgrads)
              (repeat 0%Q (length pb)) in
  let dgrad2 := map (fun g => if Qltb g deps then deps else g) dgrad2 in
  let step :=
    transpose (length pb)
      (map (fun dgrad =>
              zip_with (fun x g2 => (x / g2)%Q) (zip_with Qmult d dgrad) dgrad2)
           dgrads) in
  Ok (scatter p bid (zip_with vsub pb step)).

Fixpoint _improve_loop
    (left : nat) (dim : nat) (p : list point) (bid : list nat) (d : list Q)
    (fd : point -> Q) (deps tol : Q) : result (list point) :=
  m ← np_amax (map Qabs d);
  match left with
  | O => Ok p
  | S left' =>
      if Qltb tol m then
        p' ← _improve_step dim p bid d fd deps;
        _improve_loop left' dim p' bid d fd deps tol
      else Ok p
  end.

Definition _improve_level_set_newton
    (p : list point) (t : list cell) (fd : point -> Q) (deps tol : Q)
  : result (list point) :=
  let dim := shape1 p in
  let bid := get_boundary_vertices t dim in
  pb ← take_rows p bid;
  let d := map fd pb in
  _improve_loop 10 dim p bid d fd deps tol.

(** ** Initial points *)

Definition _unpack_pfix (dim : nat) (o : gmap string pyval) (comm : comm_t)
  : result (list point * nat) :=
  pf ← getitem o "pfix";
  if negb (py_is_none pf) then
    if Nat.ltb 1 (size comm)
    then Raise (Exception "Fixed points are not yet supported in parallel.")
    else
      pfix ← np_array pf;
      Ok (pfix, length pfix)
  else Ok ([], 0%nat).

(** Column-wise [np.amin(p, axis=0)] and [np.amax(p, axis=0)]: an array
    without rows raises. *)
Definition amin0 (p : list point) : result (list Q) :=
  _ ← np_amin (map (fun _ => 0%Q) p);
  rmap (fun k => np_amin (map (fun x => nth k x 0%Q) p)) (seq 0 (shape1 p)).

Definition amax0 (p : list point) : result (list Q) :=
  _ ← np_amax (map (fun _ => 0%Q) p);
  rmap (fun k => np_amax (map (fun x => nth k x 0%Q) p)) (seq 0 (shape1 p)).

(** [_form_extents] reads [opts["axis"]] from the module dictionary.  In
    serial there are no extents: the empty list stands for them. *)
Definition _form_extents (p : list point) (h0 : Q) (comm : comm_t)
  : M (list (list Q)) :=
  let dim := shape1 p in
  _axis ← opt "axis";
  if Nat.ltb 1 (size comm) then
    lo ← lift (amin0 p);
    hi ← lift (amax0 p);
    let extent := lo ++ hi in
    a ← lift (py_int _axis);
    i ← lift (py_index (length extent) a);
    let extent := <[i := (nth i extent 0 - h0)%Q]> extent in
    j ← lift (py_index (length extent) (a + Z.of_nat dim));
    let extent := <[j := (nth j extent 0 + h0)%Q]> extent in
    mret (map (fun r => bcast comm extent r) (seq 0 (size comm)))
  else mret [].

(** [points] used as an array. *)
Definition as_ndarray (v : pyval) : result (list point) :=
  match v with PyArray a => Ok a | _ => Raise AttributeError end.

Definition _user_defined_points
    (dim : nat) (fh : point -> Q) (h0 : Q) (bbox : list point) (points : pyval)
    (comm : comm_t) (o : gmap string pyval)
  : result ((point -> Q) * list point * list (list Q)) :=
  if Nat.ltb 1 (size comm) then
    be ← (if Nat.eqb (rank comm) 0 then
            pts ← as_ndarray points;
            axis ← getitem o "axis";
            let be := blocker pts (rank comm) (size comm) axis in
            Ok (Some be.1, Some be.2)
          else Ok (None, None));
    axis ← getitem o "axis";
    let fh := localize_sizing_function fh h0 bbox dim axis comm in
    let pe := localize_points be.1 be.2 comm dim in
    Ok (fh, pe.1, pe.2)
  else
    p ← as_ndarray points;
    Ok (fh, p, []).

Definition _generate_initial_points
    (h0 geps : Q) (dim : nat) (bbox : list point) (fh fd : point -> Q)
    (pfix : list point) (comm : comm_t) (o : gmap string pyval)
  : M ((point -> Q) * list point * list (list Q)) :=
  fp ← (if Nat.ltb 1 (size comm) then
          axis ← lift (getitem o "axis");
          mret (localize_sizing_function fh h0 bbox dim axis comm,
                make_init_points bbox (rank comm) (size comm) axis h0 dim)
        else mret (fh, create_staggered_grid h0 dim bbox));
  let fh := fp.1 in
  let p := fp.2 in
  let p := mask_select (map (fun d => Qltb d geps) (map fd p)) p in
  let r0 := map fh p in
  r0m ← lift (np_amin r0);
  let r0m := if Nat.ltb 1 (size comm) then allreduce_min comm r0m else r0m in
  seed ← lift (getitem o "seed");
  _ ← put_rng (np_random_seed seed);
  g ← get_rng;
  let ug := np_random_rand g (length p) in
  _ ← put_rng ug.2;
  let keep :=
    zip_with (fun u r => Qltb u (qpow r0m dim / qpow r dim)%Q) ug.1 r0 in
  let p := pfix ++ mask_select keep p in
  extents ← _form_extents p h0 comm;
  mret (fh, p, extents).

Definition _initialize_points
    (dim : nat) (geps : Q) (bbox : list point) (fh fd : point -> Q) (h0 : Q)
    (o : gmap string pyval) (pfix : list point) (comm : comm_t)
  : M ((point -> Q) * list point * list (list Q)) :=
  points ← lift (getitem o "points");
  if py_is_none points then
    _generate_initial_points h0 geps dim bbox fh fd pfix comm o
  else
    lift (_user_defined_points dim fh h0 bbox points comm o).

(** ** The force-equilibrium loop of [generate_mesh]

    One pass of the body of [while True] either reaches the [break] with the
    final mesh or falls through to [count += 1] with the moved points.  The
    loop answers the mesh together with the value of [count] at the
    [break]. *)

(** [inv[-recv_ix::]] *)
Definition tail_slice {A} (inv : list A) (recv_ix : nat) : list A :=
  if Nat.eqb recv_ix 0 then inv else drop (length inv - recv_ix) inv.

Inductive generate_step : Type :=
| GContinue (p : list point)
| GBreak (p : list point) (t : list cell).

Section GenerateLoop.

Variables (fd fh : point -> Q).
Variables (h0 geps deps L0mult delta_t max_iter : Q).
Variable DT : option DelaunayTriangulation.
Variables (pfix : list point) (nfix : nat).
Variable extents : list (list Q).
Variable o : gmap string pyval.
Variable comm : comm_t.

Definition generate_mesh_body (count : Z) (p : list point) : result generate_step :=
  dt ← call_DT DT;
  let dt := dt_insert dt (concat p) in
  let pt := _get_topology dt in
  ifix ← (if Nat.ltb 0 nfix
          then rmap (fun node => _closest_node node pt.1) pfix
          else Ok []);
  g ← (if Nat.ltb 1 (size comm)
       then _add_ghost_vertices pt.1 pt.2 dt extents comm
       else Ok (pt, [], 0%nat));
  let p := g.1.1.1 in
  let inv := g.1.2 in
  let recv_ix := g.2 in
  t ← _remove_triangles_outside p g.1.1.2 fd geps;
  if Qeq_bool (inject_Z count) (max_iter - 1) then
    pt ← _termination p t o comm false;
    p ← (if Nat.eqb (rank comm) 0
         then _improve_level_set_newton pt.1 pt.2 fd deps (deps * 1000)
         else Ok pt.1);
    Ok (GBreak p pt.2)
  else
    Ftot ← _compute_forces p t fh h0 L0mult;
    _ ← take_rows Ftot ifix;
    let Ftot := scatter Ftot ifix
                        (repeat (repeat 0%Q (shape1 Ftot)) (length ifix)) in
    let p := zip_with vadd p (map (vscale delta_t) Ftot) in
    let p := _project_points_back_newton p fd deps in
    p ← (if Nat.ltb 1 (size comm)
         then np_delete p (tail_slice inv recv_ix)
         else Ok p);
    Ok (GContinue p).

Fixpoint generate_mesh_loop (fuel : nat) (count : Z) (p : list point)
  : result (Z * list point * list cell) :=
  match fuel with
  | O => NoFuel
  | S fuel' =>
      r ← generate_mesh_body count p;
      match r with
      | GContinue p' => generate_mesh_loop fuel' (count + 1) p'
      | GBreak p' t => Ok (count, p', t)
      end
  end.

End GenerateLoop.

(** [np.array(bbox).reshape(-1, 2)] *)
Fixpoint pairs (xs : list Q) : list point :=
  match xs with
  | a :: b :: r => [a; b] :: pairs r
  | _ => []
  end.

Definition bbox_reshape (bbox : list pyval) : result (list point) :=
  xs ← rmap py_float bbox;
  if Nat.even (length xs) then Ok (pairs xs)
  else Raise (ValueError "cannot reshape array" []).

Definition tuple_items (v : pyval) : list pyval :=
  match v with PyTuple l => l | _ => [] end.

Definition generate_mesh
    (fuel : nat) (domain : domain_arg) (edge_length : sizing_arg)
    (comm : comm_t) (kwargs : kwargs_t) : M (list point * list cell) :=
  _ ← opts_update kwargs;
  _ ← lift (_parse_kwargs kwargs);
  o ← get_opts;
  _ ← lift (_select_verbosity o);
  fb ← _unpack_domain domain;
  let fd := fb.1 in
  let bbox0 := fb.2 in
  s ← lift (_unpack_sizing edge_length);
  let fh := s.1.1 in
  let bbox1 := s.1.2 in
  let hmin := s.2 in
  bbox ← (if py_is_none bbox1 then mret bbox0 else lift (_minmax bbox0 bbox1));
  if negb (py_isinstance_tuple bbox) then
    raise (ValueError "`bbox` must be a tuple" [])
  else
    let dim := (length (tuple_items bbox) / 2)%nat in
    fd ← (if negb (py_eqb bbox0 bbox1) && negb (py_is_none bbox1) then
            if Nat.eqb dim 2 then mret (Rectangle_eval bbox)
            else if Nat.eqb dim 3 then mret (Cube_eval bbox)
            else raise UnboundLocalError
          else mret fd);
    bbox ← lift (bbox_reshape (tuple_items bbox));
    h0 ← (match hmin with
          | Some h => mret h
          | None => v ← opt "h0"; lift (py_float v)
          end);
    if Qltb h0 0 then raise (ValueError "`h0` must be > 0" [])
    else
      mi ← opt "max_iter";
      max_iter ← lift (py_float mi);
      if Qltb max_iter 0 then raise (ValueError "`max_iter` must be > 0" [])
      else
        let L0mult := (1 + (4 # 10) / Qpower 2 (Z.of_nat dim - 1))%Q in
        dtv ← opt "delta_t";
        delta_t ← lift (py_float dtv);
        let geps := ((1 # 10) * h0)%Q in
        let deps := (np_sqrt float_eps * h0)%Q in
        let DT := _select_cgal_dim dim in
        pn ← lift (_unpack_pfix dim o comm);
        let pfix := pn.1 in
        let nfix := pn.2 in
        ini ← _initialize_points dim geps bbox fh fd h0 o pfix comm;
        let fh := ini.1.1 in
        let p := ini.1.2 in
        let extents := ini.2 in
        let N := length p in
        if negb (Nat.ltb 0 N) then raise (AssertionError "No vertices to mesh with!")
        else
          r ← lift (generate_mesh_loop fd fh h0 geps deps L0mult delta_t max_iter
                                       DT pfix nfix extents o comm fuel 0 p);
          mret (r.1.2, r.2).

(** ** Sliver removal *)

(** [np.where(mask)[0]] and [np.argwhere(mask)] on a vector: the indices
    at which the mask holds, in increasing order. *)
Definition np_where (mask : list bool) : list nat :=
  mask_select mask (seq 0 (length mask)).

(** [np.unique(a)] on indices: sorted, without repetition. *)
Definition np_unique (l : list nat) : list nat :=
  filter (fun i => existsb (Nat.eqb i) l) (seq 0 (S (fold_right Nat.max 0%nat l))).

(** [t[rows, j]] *)
Definition take_col {A} (t : list (list A)) (rows : list nat) (j : nat)
  : result (list A) :=
  rmap (fun e => match t !! e with
                 | Some c => match c !! j with
                             | Some x => Ok x
                             | None => Raise IndexError
                             end
                 | None => Raise IndexError
                 end) rows.

(** The element numbers of the slivers of a mesh: the cells with a dihedral
    angle below [min_dh_bound] or above [max_dh_bound], six angles to a
    cell. *)
Definition sliver_elements
    (p : list point) (t : list cell) (min_dh_bound max_dh_bound : Q)
  : result (list nat) :=
  dh ← col (calc_dihedral_angles p t) 0;
  let out_of_bounds :=
    np_where (map (fun a => Qltb a min_dh_bound || Qltb max_dh_bound a) dh) in
  Ok (np_unique (map (fun i => (i / 6)%nat) out_of_bounds)).

(** Every dihedral angle of the mesh [(p, t)] lies within the bounds; the
    angles of the cell number [j] are the entries [6 j .. 6 j + 5]. *)
Definition dihedral_angles_ok (p : list point) (t : list cell) (lo hi : Q) : Prop :=
  exists dh, col (calc_dihedral_angles p t) 0 = Ok dh /\
    forall (j k : nat) (a : Q),
      (k < 6)%nat -> dh !! (6 * j + k)%nat = Some a -> (lo <= a)%Q /\ (a <= hi)%Q.

(** The two ways out of the loop of [sliver_removal]: the [return] taken
    when no sliver is left, and the [break] at the last iteration. *)
Inductive sliver_exit : Type := NoSlivers | MaxIter.

Record sliver_state : Type := SliverState {
  ss_count : Z;
  ss_dt : option DelaunayTriangulation;
  ss_p : list point;
  ss_pold : list point
}.

Inductive sliver_step : Type :=
| SContinue (s : sliver_state)
| SReturn (ex : sliver_exit) (p : list point) (t : list cell).

Section SliverLoop.

Variable fd : point -> Q.
Variables (h0 geps deps min_dh_bound max_dh_bound max_iter : Q).
Variable DT : option DelaunayTriangulation.
Variable dim : nat.
Variable o : gmap string pyval.
Variable comm : comm_t.

(** The mesh an iteration works on: retriangulation followed by TRIM. *)
Definition sliver_retriangulate (s : sliver_state)
  : result (DelaunayTriangulation * list point * list cell) :=
  dt ← (if ss_count s =? 0 then
          d ← call_DT DT;
          Ok (dt_insert d (concat (ss_p s)))
        else
          match ss_dt s with
          | Some d =>
              let to_move :=
                np_where (map (fun x => Qltb 0 x) (_dist (ss_p s) (ss_pold s))) in
              pm ← take_rows (ss_p s) to_move;
              Ok (dt_move d to_move (concat pm))
          | None => Raise UnboundLocalError
          end);
  let pt := _get_topology dt in
  t ← _remove_triangles_outside pt.1 pt.2 fd geps;
  Ok (dt, pt.1, t).

(** The perturbation of the first vertex of every sliver.  A component
    [None] of the circumsphere gradient stands for an infinite one. *)
Definition sliver_perturb (p : list point) (t : list cell) (ele_nums move : list nat)
  : result (list point) :=
  let push := (1 # 10)%Q in
  i0 ← take_col t ele_nums 0; p0 ← take_rows p i0;
  i1 ← take_col t ele_nums 1; p1 ← take_rows p i1;
  i2 ← take_col t ele_nums 2; p2 ← take_rows p i2;
  i3 ← take_col t ele_nums 3; p3 ← take_rows p i3;
  let perturb := calc_circumsphere_grad p0 p1 p2 p3 in
  let perturb := map (map (fun x => match x with Some q => q | None => 1%Q end)) perturb in
  let perturb_norm :=
    map (fun r => np_power (qsum (map (fun x => qpow (Qabs x) 2) r)) (1 / 2)%Q) perturb in
  let perturb := zip_with vdiv perturb perturb_norm in
  pm ← take_rows p move;
  Ok (scatter p move (zip_with vadd pm (map (vscale (push * h0)) perturb))).

Definition sliver_body (s : sliver_state) : result sliver_step :=
  let count := ss_count s in
  r ← sliver_retriangulate s;
  let dt := r.1.1 in
  let p := r.1.2 in
  let t := r.2 in
  let pold := p in
  if negb (Qeq_bool (inject_Z count) (max_iter - 1)) then
    ele_nums ← sliver_elements p t min_dh_bound max_dh_bound;
    move ← take_col t ele_nums 0;
    let num_move := length move in
    if Nat.eqb num_move 0 then
      let pt := fix_mesh p t dim in
      Ok (SReturn NoSlivers pt.1 pt.2)
    else
      p ← sliver_perturb p t ele_nums move;
      let p := _project_points_back_newton p fd deps in
      Ok (SContinue (SliverState (count + 1) (Some dt) p pold))
  else
    let p := _project_points_back_newton p fd deps in
    pt ← _termination p t o comm true;
    Ok (SReturn MaxIter pt.1 pt.2).

Fixpoint sliver_loop (fuel : nat) (s : sliver_state)
  : result (sliver_exit * Z * list point * list cell) :=
  match fuel with
  | O => NoFuel
  | S fuel' =>
      r ← sliver_body s;
      match r with
      | SContinue s' => sliver_loop fuel' s'
      | SReturn ex p t => Ok (ex, ss_count s, p, t)
      end
  end.

(** [sliver_iterates n s s']: starting in the state [s], the loop goes
    through [n] iterations, none of which leaves it, and reaches [s']. *)
Inductive sliver_iterates : nat -> sliver_state -> sliver_state -> Prop :=
| iterates_O (s : sliver_state) : sliver_iterates 0 s s
| iterates_S (n : nat) (s s' s'' : sliver_state) :
    sliver_body s = Ok (SContinue s') -> sliver_iterates n s' s'' ->
    sliver_iterates (S n) s s''.

End SliverLoop.

Definition sliver_removal
    (fuel : nat) (points : list point) (domain : domain_arg)
    (edge_length : sizing_arg) (comm : comm_t) (kwargs : kwargs_t)
  : M sliver_ret :=
  if Nat.ltb 0 (rank comm) then
    _ ← (if Nat.eqb (rank comm) 1
         then warnings_warn "Sliver removal only works in serial for now"
         else mret tt);
    mret TrueTrue
  else
    _ ← opts_update kwargs;
    _ ← lift (_parse_kwargs kwargs);
    o ← get_opts;
    _ ← lift (_select_verbosity o);
    let dim := shape1 points in
    if Nat.eqb dim 2 && Nat.eqb (rank comm) 0 then
      raise (Exception "Mesh improvement currently on works in 3D")
    else
      fb ← _unpack_domain domain;
      let fd := fb.1 in
      let bbox0 := fb.2 in
      s ← lift (_unpack_sizing edge_length);
      let fh := s.1.1 in
      let bbox1 := s.1.2 in
      let hmin := s.2 in
      bbox ← (if py_is_none bbox1 then mret bbox0 else lift (_minmax bbox0 bbox1));
      let fd := if negb (py_eqb bbox0 bbox1) && negb (py_is_none bbox1)
                then Cube_eval bbox else fd in
      if negb (py_isinstance_tuple bbox) then
        raise (ValueError "`bbox` must be a tuple" [])
      else
        h0 ← (match hmin with
              | Some h => mret h
              | None => v ← opt "h0"; lift (py_float v)
              end);
        if Qltb h0 0 then raise (ValueError "`h0` must be > 0" [])
        else
          mi ← opt "max_iter";
          max_iter ← lift (py_float mi);
          if Qltb max_iter 0 then raise (ValueError "`max_iter` must be > 0" [])
          else
            let geps := ((1 # 10) * h0)%Q in
            let deps := (np_sqrt float_eps * h0)%Q in
            lo ← opt "min_dh_angle_bound";
            lo ← lift (py_float lo);
            hi ← opt "max_dh_angle_bound";
            hi ← lift (py_float hi);
            let min_dh_bound := (lo * math_pi / 180)%Q in
            let max_dh_bound := (hi * math_pi / 180)%Q in
            let DT := _select_cgal_dim dim in
            r ← lift (sliver_loop fd h0 geps deps min_dh_bound max_dh_bound max_iter
                                  DT dim o comm fuel (SliverState 0 None points []));
            mret (Mesh r.1.2 r.2).

End Generator.

(** ** Notions used in the statements *)

(** The squared distance [_closest_node] compares. *)
Definition dist_2 (node n : point) : Q :=
  qsum (zip_with Qmult (vsub n node) (vsub n node)).

(** The pairs of the corners [i] and [j] of the cells of [t]. *)
Definition sides (t : list cell) (i j : nat) : list (list nat) :=
  map (fun c : list nat => [nth i c 0%nat; nth j c 0%nat]) t.

(** The least and the greatest coordinate [k] of the rows of [p]. *)
Definition col_min (p : list point) (k : nat) : Q :=
  match np_amin (map (fun x => nth k x 0%Q) p) with Ok m => m | _ => 0%Q end.

Definition col_max (p : list point) (k : nat) : Q :=
  match np_amax (map (fun x => nth k x 0%Q) p) with Ok m => m | _ => 0%Q end.

(** The corners and the signed distance function of a [geometry] object. *)
Definition domain_corners (d : domain_arg) : option (list pyval) :=
  match d with
  | Rectangle x1 x2 y1 y2 _ | Disk x1 x2 y1 y2 _ => Some [x1; x2; y1; y2]
  | Cube x1 x2 y1 y2 z1 z2 _ => Some [x1; x2; y1; y2; z1; z2]
  | DomainCallable _ | DomainOther => None
  end.

Definition domain_eval (d : domain_arg) : point -> Q :=
  match d with
  | Rectangle _ _ _ _ eval | Disk _ _ _ _ eval | Cube _ _ _ _ _ _ eval => eval
  | DomainCallable fd => fd
  | DomainOther => fun _ => 0%Q
  end.

(** The world a call works in once it has stored its keywords. *)
Definition stored (kwargs : kwargs_t) (w : world) : world :=
  World (dict_update (w_opts w) kwargs) (w_rng w) (w_warnings w).

(** A computation that leaves the world [w] as it is, and one that answers
    or raises in the world [w]. *)
Definition frame_at {A} (w : world) (m : M A) : Prop := (m w).2 = w.
Definition total_at {A} (w : world) (m : M A) : Prop := (m w).1 <> NoFuel.

(** A computation that answers or raises in every world. *)
Definition total {A} (m : M A) : Prop := forall w, (m w).1 <> NoFuel.

Section Notions.

Context `{Ext : Externals}.

(** [n] passes of the body of the loop of [_improve_level_set_newton], all
    of them with the residual [d] measured before the first one. *)
Fixpoint improve_passes
    (n : nat) (dim : nat) (p : list point) (bid : list nat) (d : list Q)
    (fd : point -> Q) (deps : Q) : result (list point) :=
  match n with
  | O => Ok p
  | S n' =>
      p' ← _improve_step dim p bid d fd deps;
      improve_passes n' dim p' bid d fd deps
  end.

(** The points [_generate_initial_points] draws from on one rank: the
    staggered grid, cut to the points with [fd < geps]. *)
Definition candidates (h0 geps : Q) (dim : nat) (bbox : list point)
    (fd : point -> Q) : list point :=
  List.filter (fun x => Qltb (fd x) geps) (create_staggered_grid h0 dim bbox).

End Notions.

(** ** Example collaborators

    A small executable instance of [Externals], used to run the module on
    concrete inputs: the "triangulation" of a point set is the strip of
    simplices on [dim + 1] consecutive points, roots are a few Newton
    iterations, stored numbers are rounded to a fixed grid, the
    random generator is a linear congruential one, the geometry helpers
    leave a mesh as it is and report the dihedral angle of the regular
    tetrahedron for every edge, and the parallel collaborators behave as
    on a single rank. *)

Module Example.

Fixpoint chunk (fuel n : nat) (xs : list Q) : list (list Q) :=
  match fuel with
  | O => []
  | S fuel' =>
      match xs with
      | [] => []
      | _ => take n xs :: chunk fuel' n (drop n xs)
      end
  end.

(** Numbers are kept on the grid of the multiples of 2^-20, as a stand-in
    for the rounding of stored doubles. *)
Definition round (q : Q) : Q := Qred (Qfloor (q * 1048576) # 1048576).

Record dt_t : Type := Dt { dt_dim : nat; dt_points : list (list Q) }.

Definition insert (d : dt_t) (flat : list Q) : dt_t :=
  Dt (dt_dim d) (dt_points d ++ chunk (length flat) (dt_dim d) (map round flat)).

Definition move (d : dt_t) (ix : list nat) (flat : list Q) : dt_t :=
  Dt (dt_dim d)
     (scatter (dt_points d) ix (chunk (length flat) (dt_dim d) (map round flat))).

Definition cells (d : dt_t) : list (list nat) :=
  map (fun i => seq i (dt_dim d + 1)) (seq 0 (length (dt_points d) - dt_dim d)).

Fixpoint newton_root (steps n : nat) (x y : Q) : Q :=
  match steps with
  | O => y
  | S s =>
      newton_root s n x
        ((inject_Z (Z.of_nat (n - 1)) * y + x / qpow y (n - 1)) / inject_Z (Z.of_nat n))%Q
  end.

Definition sqrt (x : Q) : Q :=
  if Qle_bool x 0 then 0%Q else round (newton_root 3 2 (round x) 1).

Definition power (x y : Q) : Q :=
  if Qeq_bool y (1 # 2) then sqrt x
  else if Qeq_bool y (1 # 3)
       then (if Qle_bool x 0 then 0%Q else round (newton_root 3 3 (round x) 1))
  else round x.

Definition seed (v : pyval) : Z :=
  match v with PyInt z => z | _ => 0 end.

Definition next (g : Z) : Z := (1103515245 * g + 12345) mod 2147483648.

Fixpoint rand (g : Z) (n : nat) : list Q * Z :=
  match n with
  | O => ([], g)
  | S n' =>
      let g' := next g in
      let r := rand g' n' in
      ((g' # 2147483648) :: r.1, r.2)
  end.

(** The signed distance to an axis-aligned box in the maximum norm. *)
Definition box_eval (bbox : pyval) (x : list Q) : Q :=
  let b := pairs (omap py_num (tuple_items bbox)) in
  fold_left (fun m d => if Qltb m d then d else m)
            (zip_with (fun xi lh => let lo := nth 0 lh 0%Q in
                                    let hi := nth 1 lh 0%Q in
                                    if Qltb (lo - xi) (xi - hi) then (xi - hi)%Q
                                    else (lo - xi)%Q) x b)
            (- (1))%Q.

Definition sort_pair (e : list nat) : list nat :=
  match e with
  | [a; b] => if Nat.leb a b then [a; b] else [b; a]
  | _ => e
  end.

(** [dense(I, J, S, shape)]: entry [(i, j)] of the result is the sum of the
    [S[r][c]] with [I[r][c] = i] and [J[r][c] = j]. *)
Definition accumulate
    (I J : list (list nat)) (S : list (list Q)) (shape : nat * nat)
  : list (list Q) :=
  let entries := concat (zip_with (fun ij s => zip ij s) (zip_with zip I J) S) in
  map (fun i =>
         map (fun j =>
                round (qsum (map snd (List.filter
                                 (fun e => Nat.eqb e.1.1 i && Nat.eqb e.1.2 j) entries))))
             (seq 0 shape.2))
      (seq 0 shape.1).

(** A regular lattice of [3^dim] points over the box. *)
Fixpoint grid (dim : nat) : list (list Q) :=
  match dim with
  | O => [[]]
  | S d => flat_map (fun x => map (fun r => x :: r) (grid d)) [0; 1 # 2; 1]%Q
  end.

Definition staggered_grid (h0 : Q) (dim : nat) (bbox : list (list Q)) : list (list Q) :=
  map (fun u => zip_with (fun ui lh => (nth 0 lh 0 + ui * (nth 1 lh 0 - nth 0 lh 0))%Q)
                         u bbox)
      (grid dim).

Global Instance externals : Externals := {|
  np_sqrt := sqrt;
  np_power := power;
  np_random_seed := seed;
  np_random_rand := rand;
  DelaunayTriangulation := dt_t;
  DT2 := Dt 2 [];
  DT3 := Dt 3 [];
  dt_insert := insert;
  dt_move := move;
  get_finite_vertices := dt_points;
  get_finite_cells := cells;
  Rectangle_eval := box_eval;
  Cube_eval := box_eval;
  unique_edges := fun edges => remove_dups (map sort_pair edges);
  fix_mesh := fun p t _ => (p, t);
  linter := fun p t _ => (p, t);
  calc_dihedral_angles := fun p t => repeat [123 # 100]%Q (6 * length t);
  calc_circumsphere_grad := fun p0 _ _ _ => map (map (fun _ => Some 1%Q)) p0;
  get_boundary_vertices := fun t _ => np_unique (concat t);
  remove_external_entities := fun p t _ _ => (p, t, seq 0 (length p));
  exports_t := unit;
  blocks_t := list (list Q);
  enqueue := fun _ _ _ _ _ _ => tt;
  exchange := fun _ _ _ _ _ => [];
  aggregate := fun p t _ _ _ _ => (p, t);
  localize_sizing_function := fun fh _ _ _ _ _ => fh;
  localize_points := fun blocks extents _ _ =>
    (default [] blocks, default [] extents);
  blocker := fun points _ _ _ => (points, []);
  make_init_points := fun bbox _ _ _ h0 dim => staggered_grid h0 dim bbox;
  create_staggered_grid := staggered_grid;
  dense := accumulate;
  allreduce_min := fun _ x => x;
  bcast := fun _ extent _ => extent
|}.

(** The unit square and the unit cube as [geometry] objects. *)
Definition unit_square : domain_arg :=
  Rectangle (PyFloat 0) (PyFloat 1) (PyFloat 0) (PyFloat 1)
            (box_eval (PyTuple [PyFloat 0; PyFloat 1; PyFloat 0; PyFloat 1])).

Definition unit_cube : domain_arg :=
  Cube (PyFloat 0) (PyFloat 1) (PyFloat 0) (PyFloat 1) (PyFloat 0) (PyFloat 1)
       (box_eval (PyTuple [PyFloat 0; PyFloat 1; PyFloat 0; PyFloat 1;
                           PyFloat 0; PyFloat 1])).

(** A tetrahedron inside the unit cube, and a triangle with its connectivity. *)
Definition tetra : list (list Q) :=
  [ [1 # 4; 1 # 4; 1 # 4]; [3 # 4; 1 # 4; 1 # 4];
    [1 # 4; 3 # 4; 1 # 4]; [1 # 4; 1 # 4; 3 # 4] ]%Q.

Definition triangle : list (list Q) := [ [0; 0]; [1; 0]; [0; 1] ]%Q.

End Example.

(** * Properties *)

(** ** Comparisons and array helpers *)

Lemma Qltb_lt (x y : Q) : Qltb x y = true <-> (x < y)%Q.
Proof.
  unfold Qltb. rewrite negb_true_iff.
  split.
  - intros H. apply Qnot_le_lt. intros Hle.
    apply Qle_bool_iff in Hle. congruence.
  - intros H. destruct (Qle_bool y x) eqn:E; [|reflexivity].
    apply Qle_bool_iff in E. exfalso. exact (Qlt_not_le _ _ H E).
Qed.

Lemma Qltb_ge (x y : Q) : Qltb x y = false <-> (y <= x)%Q.
Proof.
  unfold Qltb. rewrite negb_false_iff. apply Qle_bool_iff.
Qed.

Lemma nth_zip_with {A B C} (f : A -> B -> C) (a : list A) (b : list B) j da db dc :
  (j < length a)%nat -> (j < length b)%nat ->
  nth j (zip_with f a b) dc = f (nth j a da) (nth j b db).
Proof.
  revert b j. induction a as [|x a IH]; intros [|y b] [|j] Ha Hb; simpl in *; try lia.
  - reflexivity.
  - apply IH; lia.
Qed.

Lemma nth_map_lt {A B} (f : A -> B) (l : list A) j da db :
  (j < length l)%nat -> nth j (map f l) db = f (nth j l da).
Proof.
  revert j. induction l as [|x l IH]; intros [|j] H; simpl in *; try lia.
  - reflexivity.
  - apply IH; lia.
Qed.

Lemma mask_select_map {A} (f : A -> bool) (xs : list A) :
  mask_select (map f xs) xs = List.filter f xs.
Proof.
  induction xs as [|x xs IH]; simpl; [reflexivity|].
  destruct (f x); rewrite IH; reflexivity.
Qed.

Lemma mask_select_map_comm {A B} (g : A -> B) (mask : list bool) (xs : list A) :
  mask_select mask (map g xs) = map g (mask_select mask xs).
Proof.
  revert xs. induction mask as [|b mask IH]; intros [|x xs]; simpl; try reflexivity.
  destruct b; simpl; rewrite IH; reflexivity.
Qed.

Lemma rmap_ok {A B} (f : A -> result B) (g : A -> B) (l : list A) :
  Forall (fun a => f a = Ok (g a)) l -> rmap f l = Ok (map g l).
Proof.
  induction 1 as [|a l Ha _ IH]; simpl; [reflexivity|].
  rewrite Ha. simpl. rewrite IH. reflexivity.
Qed.

Lemma take_rows_ok {A} (d : A) (p : list A) (ix : list nat) :
  Forall (fun i => (i < length p)%nat) ix ->
  take_rows p ix = Ok (map (fun i => nth i p d) ix).
Proof.
  intros H. unfold take_rows. apply rmap_ok.
  eapply Forall_impl; [exact H|]. simpl. intros i Hi.
  destruct (p !! i) eqn:E.
  - f_equal. symmetry. apply nth_lookup_Some with (d := d) in E. exact E.
  - apply lookup_ge_None in E. lia.
Qed.

(** The column sums of an array: coordinate [k] of the sum of the rows is
    the sum of the coordinates [k]. *)
Lemma nth_fold_vadd (n k : nat) (vs : list point) (acc : point) :
  length acc = n -> Forall (fun v => length v = n) vs -> (k < n)%nat ->
  nth k (fold_left vadd vs acc) 0%Q
  = fold_left Qplus (map (fun v => nth k v 0%Q) vs) (nth k acc 0%Q).
Proof.
  intros Hacc Hvs Hk. revert acc Hacc.
  induction Hvs as [|v vs Hv _ IH]; intros acc Hacc; simpl; [reflexivity|].
  rewrite IH.
  - f_equal. unfold vadd. apply nth_zip_with; lia.
  - unfold vadd. rewrite length_zip_with. lia.
Qed.

Lemma length_fold_vadd (n : nat) (vs : list point) (acc : point) :
  length acc = n -> Forall (fun v => length v = n) vs ->
  length (fold_left vadd vs acc) = n.
Proof.
  intros Hacc Hvs. revert acc Hacc.
  induction Hvs as [|v vs Hv _ IH]; intros acc Hacc; simpl; [exact Hacc|].
  apply IH. unfold vadd. rewrite length_zip_with. lia.
Qed.

(** ** TRIM *)

(** What the code computes for a cell that fits the point array is the
    centroid of the specification. *)
Lemma pmid_centroid (p : list point) (c : cell) :
  Forall (fun x => length x = shape1 p) p ->
  length c = (shape1 p + 1)%nat ->
  Forall (fun i => (i < length p)%nat) c ->
  vdiv (vsum (shape1 p) (map (fun i => nth i p []) c))
       (inject_Z (Z.of_nat (shape1 p + 1)))
  = centroid p c.
Proof.
  intros Hp Hc Hix.
  assert (Hrows : Forall (fun v : point => length v = shape1 p)
                         (map (fun i => nth i p []) c)).
  { apply List.Forall_forall. intros v Hv. apply in_map_iff in Hv as (i & <- & Hi).
    rewrite List.Forall_forall in Hix, Hp. apply Hp. apply nth_In. apply Hix.
    exact Hi. }
  unfold centroid, vdiv, vsum.
  apply nth_ext with (d := 0%Q) (d' := 0%Q).
  - rewrite !length_map, length_seq.
    apply length_fold_vadd; [apply repeat_length|exact Hrows].
  - intros k Hk. rewrite length_map in Hk.
    rewrite (length_fold_vadd (shape1 p)) in Hk;
      [|apply repeat_length|exact Hrows].
    rewrite (nth_map_lt _ _ _ 0%Q).
    2:{ rewrite (length_fold_vadd (shape1 p)); [lia|apply repeat_length|exact Hrows]. }
    rewrite (nth_map_lt _ _ _ 0%nat) by (rewrite length_seq; lia).
    rewrite seq_nth by lia. simpl.
    rewrite (nth_fold_vadd (shape1 p)); [|apply repeat_length|exact Hrows|lia].
    rewrite nth_repeat, map_map, Hc. reflexivity.
Qed.

(** C1.  TRIM keeps exactly the cells whose centroid lies deeper than [geps]
    inside the domain: on a cell array that fits the point array,
    [_remove_triangles_outside] returns the cells of [t], in order, whose
    centroid has signed distance below [-geps]; every cell it returns
    satisfies the bound and no cell with signed distance at least [-geps]
    is returned. *)
Theorem remove_triangles_outside_keeps_interior
    (p : list point) (t : list cell) (fd : point -> Q) (geps : Q) :
  mesh_wf p t ->
  _remove_triangles_outside p t fd geps
  = Ok (List.filter (fun c => Qltb (fd (centroid p c)) (- geps)) t)
  /\ (forall r, _remove_triangles_outside p t fd geps = Ok r ->
        (forall c, In c r -> (fd (centroid p c) < - geps)%Q) /\
        (forall c, In c t -> (- geps <= fd (centroid p c))%Q -> ~ In c r)).
Proof.
  intros [Hp Ht].
  assert (E : _remove_triangles_outside p t fd geps
              = Ok (List.filter (fun c => Qltb (fd (centroid p c)) (- geps)) t)).
  { unfold _remove_triangles_outside.
    rewrite (rmap_ok _ (fun c => map (fun i => nth i p []) c)).
    2:{ eapply Forall_impl; [exact Ht|]. simpl. intros c [_ Hc].
        apply take_rows_ok. exact Hc. }
    simpl. f_equal. rewrite !map_map.
    rewrite <- mask_select_map. f_equal.
    apply map_ext_in. intros c Hc.
    rewrite List.Forall_forall in Ht.
    destruct (Ht c) as [Hlen Hix]; [exact Hc|].
    rewrite pmid_centroid by assumption. reflexivity. }
  split; [exact E|].
  intros r Hr. rewrite E in Hr. injection Hr as <-. split.
  - intros c Hc. apply filter_In in Hc as [_ Hc]. apply Qltb_lt. exact Hc.
  - intros c _ Hge Hc. apply filter_In in Hc as [_ Hc].
    apply Qltb_lt in Hc. exact (Qlt_not_le _ _ Hc Hge).
Qed.

(** ** PROJECT *)

Lemma existsb_id_false (mask : list bool) :
  existsb id mask = false -> Forall (fun b => b = false) mask.
Proof.
  induction mask as [|b mask IH]; simpl; intros H; constructor.
  - destruct b; [discriminate|reflexivity].
  - apply IH. destruct b; [discriminate|exact H].
Qed.

(** Writing [g x] at the selected rows is a row-wise conditional. *)
Lemma mask_update_map {A} (g : A -> A) (f : A -> bool) (xs : list A) :
  mask_update (map f xs) xs (map g (mask_select (map f xs) xs))
  = map (fun x => if f x then g x else x) xs.
Proof.
  induction xs as [|x xs IH]; simpl; [reflexivity|].
  destruct (f x); simpl; rewrite IH; reflexivity.
Qed.

(** The vectorised Newton step over the selected rows is the step of the
    specification taken row by row. *)
Lemma newton_rows (dim : nat) (fd : point -> Q) (deps : Q) (pix : list point) :
  let dix := map fd pix in
  let dgrads :=
    map (fun i =>
           zip_with (fun a b => ((a - b) / deps)%Q)
                    (map fd (map (fun x => vadd x (_deps_vec dim deps i)) pix))
                    dix)
        (seq 0 dim) in
  let dgrad2 :=
    fold_left (zip_with Qplus) (map (map (fun g => qpow g 2)) dgrads)
              (repeat 0%Q (length pix)) in
  let dgrad2 := map (fun g => if Qltb g deps then deps else g) dgrad2 in
  let step :=
    transpose (length pix)
      (map (fun dgrad =>
              zip_with (fun x g2 => (x / g2)%Q) (zip_with Qmult dix dgrad) dgrad2)
           dgrads) in
  zip_with vsub pix step = map (newton_point dim fd deps) pix.
Proof.
  intros dix dgrads dgrad2 dgrad2' step.
  set (k := length pix).
  assert (Hdix : length dix = k) by (unfold dix; rewrite length_map; reflexivity).
  assert (Hrow : forall i, length (zip_with (fun a b => ((a - b) / deps)%Q)
                    (map fd (map (fun x => vadd x (_deps_vec dim deps i)) pix)) dix) = k).
  { intros i. rewrite length_zip_with, !length_map. fold k. lia. }
  assert (Hsq : Forall (fun v : list Q => length v = k)
                       (map (map (fun g => qpow g 2)) dgrads)).
  { apply List.Forall_forall. intros v Hv.
    apply in_map_iff in Hv as (r & <- & Hr).
    apply in_map_iff in Hr as (i & <- & _).
    rewrite length_map. apply Hrow. }
  assert (Hg2 : length dgrad2' = k).
  { unfold dgrad2', dgrad2. rewrite length_map.
    apply (length_fold_vadd k); [apply repeat_length|exact Hsq]. }
  apply nth_ext with (d := []) (d' := []).
  - unfold step, transpose. rewrite length_zip_with, !length_map, length_seq. lia.
  - intros j Hj.
    rewrite length_zip_with in Hj. unfold step, transpose in Hj.
    rewrite length_map, length_seq in Hj. fold k in Hj.
    assert (Hjk : (j < k)%nat) by lia.
    rewrite (nth_zip_with vsub pix step j ([] : point) ([] : list Q)).
    2:{ fold k. lia. }
    2:{ unfold step, transpose. rewrite length_map, length_seq. lia. }
    rewrite (nth_map_lt _ _ _ ([] : point)) by (fold k; lia).
    set (x := nth j pix []).
    unfold step, transpose.
    rewrite (nth_map_lt _ _ _ 0%nat) by (rewrite length_seq; lia).
    rewrite seq_nth by lia. simpl.
    unfold newton_point. f_equal.
    unfold dgrads. rewrite !map_map.
    apply map_ext_in. intros i Hi.
    assert (Hd : nth j dix 0%Q = fd x).
    { unfold dix. rewrite (nth_map_lt _ _ _ ([] : point)) by (fold k; lia). reflexivity. }
    assert (Hgi : forall i',
      nth j (zip_with (fun a b => ((a - b) / deps)%Q)
               (map fd (map (fun x => vadd x (_deps_vec dim deps i')) pix)) dix) 0%Q
      = ((fd (vadd x (_deps_vec dim deps i')) - fd x) / deps)%Q).
    { intros i'. rewrite (nth_zip_with _ _ _ _ 0%Q 0%Q).
      - rewrite Hd. rewrite map_map.
        rewrite (nth_map_lt _ _ _ ([] : point)) by (fold k; lia). reflexivity.
      - rewrite !length_map. fold k. lia.
      - lia. }
    rewrite (nth_zip_with _ _ _ _ 0%Q 0%Q).
    2:{ rewrite length_zip_with, Hrow. lia. }
    2:{ lia. }
    rewrite (nth_zip_with _ _ _ _ 0%Q 0%Q) by (rewrite ?Hrow; lia).
    rewrite Hd, Hgi.
    f_equal.
    unfold dgrad2', dgrad2.
    rewrite (nth_map_lt _ _ _ 0%Q).
    2:{ rewrite (length_fold_vadd k); [lia|apply repeat_length|exact Hsq]. }
    change (zip_with Qplus) with vadd.
    rewrite (nth_fold_vadd k); [|apply repeat_length|exact Hsq|lia].
    rewrite nth_repeat.
    replace (map (fun v : list Q => nth j v 0%Q) (map (map (fun g => qpow g 2)) dgrads))
      with (map (fun g => qpow g 2)
              (map (fun i0 => ((fd (vadd x (_deps_vec dim deps i0)) - fd x) / deps)%Q)
                   (seq 0 dim))).
    { rewrite !map_map. reflexivity. }
    unfold dgrads. rewrite !map_map. apply map_ext. intros i'.
    rewrite (nth_map_lt _ _ _ 0%Q) by (rewrite Hrow; lia).
    rewrite Hgi. reflexivity.
Qed.

(** [_project_points_back_newton] is a row-wise conditional: a row outside
    the domain takes one Newton step, any other row is returned as it is. *)
Lemma project_points_back_newton_rows (p : list point) (fd : point -> Q) (deps : Q) :
  _project_points_back_newton p fd deps
  = map (fun x => if Qltb 0 (fd x) then newton_point (shape1 p) fd deps x else x) p.
Proof.
  unfold _project_points_back_newton.
  rewrite map_map.
  destruct (existsb id (map (fun x => Qltb 0 (fd x)) p)) eqn:E.
  - rewrite mask_select_map_comm.
    rewrite (newton_rows (shape1 p) fd deps).
    apply (mask_update_map (newton_point (shape1 p) fd deps)
                           (fun x => Qltb 0 (fd x))).
  - apply existsb_id_false in E.
    rewrite List.Forall_forall in E.
    rewrite <- (map_id p) at 1. apply map_ext_in. intros x Hx.
    rewrite (E (Qltb 0 (fd x))); [reflexivity|].
    apply in_map_iff. exists x. split; [reflexivity|exact Hx].
Qed.

(** C9.  PROJECT leaves every point with [fd(p) <= 0] where it is: the
    array keeps its length, a row with non-positive signed distance is
    returned unchanged, a row with positive signed distance is replaced by
    one clamped finite-difference Newton step, and an array with no row
    outside the domain is returned unchanged. *)
Theorem project_points_back_newton_frame
    (p : list point) (fd : point -> Q) (deps : Q) :
  length (_project_points_back_newton p fd deps) = length p
  /\ (forall i x, p !! i = Some x -> (fd x <= 0)%Q ->
        _project_points_back_newton p fd deps !! i = Some x)
  /\ (forall i x, p !! i = Some x -> (0 < fd x)%Q ->
        _project_points_back_newton p fd deps !! i
        = Some (newton_point (shape1 p) fd deps x))
  /\ ((forall x, In x p -> (fd x <= 0)%Q) ->
        _project_points_back_newton p fd deps = p).
Proof.
  rewrite project_points_back_newton_rows.
  change (map ?f p) with (f <$> p).
  repeat split.
  - apply length_fmap.
  - intros i x Hi Hx. rewrite list_lookup_fmap, Hi. simpl.
    apply Qltb_ge in Hx. rewrite Hx. reflexivity.
  - intros i x Hi Hx. rewrite list_lookup_fmap, Hi. simpl.
    apply Qltb_lt in Hx. rewrite Hx. reflexivity.
  - intros H. rewrite <- (map_id p) at 2.
    apply map_ext_in. intros x Hx.
    specialize (H x Hx). apply Qltb_ge in H. rewrite H. reflexivity.
Qed.

(** ** FORCE *)

Lemma rmap_Forall2 {A B} (f : A -> result B) (l : list A) (r : list B) :
  rmap f l = Ok r -> Forall2 (fun a b => f a = Ok b) l r.
Proof.
  revert r. induction l as [|a l IH]; simpl; intros r H.
  - injection H as <-. constructor.
  - destruct (f a) as [b| |] eqn:Ea; simpl in H; try discriminate.
    destruct (rmap f l) as [bs| |] eqn:El; simpl in H; try discriminate.
    injection H as <-. constructor; [exact Ea|apply IH; reflexivity].
Qed.

Lemma lookup_map {A B} (f : A -> B) (l : list A) (i : nat) :
  map f l !! i = f <$> (l !! i).
Proof. change (map f l) with (f <$> l). apply list_lookup_fmap. Qed.

Lemma clamp_Qmax (x : Q) : (if Qltb x 0 then 0%Q else x) = Qmax x 0.
Proof.
  destruct x as [n d].
  unfold Qmax, GenericMinMax.gmax, Qltb, Qle_bool, Qcompare. simpl.
  rewrite Z.mul_1_r, !Z.mul_0_l.
  destruct (Z.leb_spec 0 n) as [H|H], (Z.compare_spec n 0) as [H'|H'|H'];
    simpl; try reflexivity; lia.
Qed.

Section Forces.

Context `{Ext : Externals}.


End Forces.

(** ** The state monad *)

Lemma bind_lift {A B} (r : result A) (k : A -> M B) (w : world) :
  (lift r ≫= k) w
  = match r with
    | Ok a => k a w
    | Raise e => (Raise e, w)
    | NoFuel => (NoFuel, w)
    end.
Proof. destruct r; reflexivity. Qed.

Lemma bind_opt {B} (key : string) (k : pyval -> M B) (w : world) :
  (opt key ≫= k) w
  = match getitem (w_opts w) key with
    | Ok a => k a w
    | Raise e => (Raise e, w)
    | NoFuel => (NoFuel, w)
    end.
Proof.
  unfold opt, get_opts, lift, mbind, M_bind.
  destruct (getitem (w_opts w) key); reflexivity.
Qed.

Lemma bind_opts_update {B} (kwargs : kwargs_t) (k : unit -> M B) (w : world) :
  (opts_update kwargs ≫= k) w
  = k tt (World (dict_update (w_opts w) kwargs) (w_rng w) (w_warnings w)).
Proof. reflexivity. Qed.

Lemma bind_frame {A B} (m : M A) (k : A -> M B) (w : world) :
  frame m ->
  (m ≫= k) w
  = match (m w).1 with
    | Ok a => k a w
    | Raise e => (Raise e, w)
    | NoFuel => (NoFuel, w)
    end.
Proof.
  intros Hm. specialize (Hm w). unfold mbind, M_bind.
  destruct (m w) as [[a|e|] w']; simpl in *; subst; reflexivity.
Qed.

Lemma frame_lift {A} (r : result A) : frame (lift r).
Proof. intros w. reflexivity. Qed.

Lemma frame_opt (key : string) : frame (opt key).
Proof.
  intros w. unfold opt, get_opts, lift, mbind, M_bind.
  destruct (getitem (w_opts w) key); reflexivity.
Qed.

Section Entry.

Context `{Ext : Externals}.

Lemma frame_unpack_domain (domain : domain_arg) : frame (_unpack_domain domain).
Proof.
  intros w.
  unfold _unpack_domain, opt, get_opts, lift, raise, mbind, mret, M_bind, M_ret.
  destruct domain; simpl;
    repeat match goal with
           | |- context [getitem ?o ?k] => destruct (getitem o k); simpl
           | |- context [_check_bbox ?b] => destruct (_check_bbox b); simpl
           end; reflexivity.
Qed.

(** ** Validation of the keywords *)

Lemma parse_kwargs_recognized (kwargs : kwargs_t) :
  forallb (fun kv => recognized kv.1) kwargs = true -> _parse_kwargs kwargs = Ok tt.
Proof.
  induction kwargs as [|[k v] kwargs IH]; simpl; [reflexivity|].
  intros H. apply andb_true_iff in H as [Hk H]. rewrite Hk. apply IH, H.
Qed.

Lemma parse_kwargs_unrecognized (kwargs : kwargs_t) :
  (exists kv, In kv kwargs /\ recognized kv.1 = false) ->
  exists k v, In (k, v) kwargs /\ recognized k = false /\
    _parse_kwargs kwargs
    = Raise (ValueError "Option %s with parameter %s not recognized " [PyStr k; v]).
Proof.
  induction kwargs as [|[k v] kwargs IH]; intros (kv & Hin & Hkv).
  - destruct Hin.
  - simpl. destruct (recognized k) eqn:Ek.
    + destruct Hin as [<-|Hin]; [simpl in Hkv; congruence|].
      destruct IH as (k' & v' & Hin' & Hk' & E); [exists kv; auto|].
      exists k', v'. split; [right; exact Hin'|]. split; [exact Hk'|exact E].
    + exists k, v. split; [left; reflexivity|]. split; [exact Ek|reflexivity].
Qed.

(** ** The stored configuration *)

Lemma dict_update_app (o : gmap string pyval) (k1 k2 : kwargs_t) :
  dict_update o (k1 ++ k2) = dict_update (dict_update o k1) k2.
Proof. unfold dict_update. apply foldl_app. Qed.

Lemma dict_update_notin (o : gmap string pyval) (kwargs : kwargs_t) (k : string) :
  ~ In k (map fst kwargs) -> dict_update o kwargs !! k = o !! k.
Proof.
  revert o. induction kwargs as [|[k' v'] kwargs IH]; intros o Hk; [reflexivity|].
  simpl in *. rewrite IH by tauto.
  apply lookup_insert_ne. intros ->. tauto.
Qed.

Lemma dict_update_in (o : gmap string pyval) (kwargs : kwargs_t) (k : string) (v : pyval) :
  NoDup (map fst kwargs) -> In (k, v) kwargs -> dict_update o kwargs !! k = Some v.
Proof.
  revert o. induction kwargs as [|[k' v'] kwargs IH]; intros o Hnd Hin; [destruct Hin|].
  simpl in *. apply NoDup_cons in Hnd as [Hk' Hnd].
  destruct Hin as [E|Hin].
  - injection E as -> ->. rewrite dict_update_notin.
    + apply lookup_insert_eq.
    + intros H. apply Hk'. apply list_elem_of_In. exact H.
  - apply IH; assumption.
Qed.

Lemma keeps_bind {A B} (m : M A) (k : A -> M B) :
  keeps_opts m -> (forall a, keeps_opts (k a)) -> keeps_opts (m ≫= k).
Proof.
  intros Hm Hk w. specialize (Hm w). unfold mbind, M_bind.
  destruct (m w) as [[a|e|] w']; simpl in *; try exact Hm.
  destruct (Hk a w') as [H1 H2]. destruct Hm as [H3 H4].
  split; congruence.
Qed.

Lemma keeps_frame {A} (m : M A) : frame m -> keeps_opts m.
Proof. intros H w. rewrite H. split; reflexivity. Qed.

Lemma keeps_ret {A} (a : A) : keeps_opts (mret a).
Proof. intros w. split; reflexivity. Qed.

Lemma keeps_put_rng (g : Z) : keeps_opts (put_rng g).
Proof. intros w. split; reflexivity. Qed.

Lemma keeps_get_rng : keeps_opts get_rng.
Proof. intros w. split; reflexivity. Qed.

Lemma keeps_get_opts : keeps_opts get_opts.
Proof. intros w. split; reflexivity. Qed.

Ltac keeps :=
  repeat first
    [ apply keeps_ret
    | apply keeps_put_rng
    | apply keeps_get_rng
    | apply keeps_get_opts
    | apply keeps_frame; first [apply frame_lift | apply frame_opt | apply frame_unpack_domain]
    | apply (keeps_frame (raise _)); intros ?; reflexivity
    | apply keeps_bind; [|intros ?]
    | progress lazy zeta
    | match goal with
      | |- keeps_opts (if ?b then _ else _) => destruct b
      | |- keeps_opts (match ?x with _ => _ end) => destruct x
      end ].

Lemma keeps_form_extents (p : list point) (h0 : Q) (comm : comm_t) :
  keeps_opts (_form_extents p h0 comm).
Proof. unfold _form_extents. keeps. Qed.

Lemma keeps_generate_initial_points h0 geps dim bbox fh fd pfix comm o :
  keeps_opts (_generate_initial_points h0 geps dim bbox fh fd pfix comm o).
Proof. unfold _generate_initial_points. keeps; apply keeps_form_extents. Qed.

Lemma keeps_initialize_points dim geps bbox fh fd h0 o pfix comm :
  keeps_opts (_initialize_points dim geps bbox fh fd h0 o pfix comm).
Proof. unfold _initialize_points. keeps; apply keeps_generate_initial_points. Qed.

(** [generate_mesh] writes the stored configuration once, on entry; the
    rest of the call reads it. *)
Lemma generate_mesh_opts fuel domain edge_length comm kwargs w :
  w_opts (generate_mesh fuel domain edge_length comm kwargs w).2
  = dict_update (w_opts w) kwargs
  /\ w_warnings (generate_mesh fuel domain edge_length comm kwargs w).2
     = w_warnings w.
Proof.
  unfold generate_mesh. rewrite bind_opts_update.
  match goal with |- context [(?m (World ?o ?g ?ws)).2] =>
    assert (H : keeps_opts m); [|exact (H (World o g ws))] end.
  keeps; apply keeps_initialize_points.
Qed.

Lemma sliver_removal_opts fuel points domain edge_length comm kwargs w :
  rank comm = 0%nat ->
  w_opts (sliver_removal fuel points domain edge_length comm kwargs w).2
  = dict_update (w_opts w) kwargs
  /\ w_warnings (sliver_removal fuel points domain edge_length comm kwargs w).2
     = w_warnings w.
Proof.
  intros Hr. unfold sliver_removal. rewrite Hr. simpl. rewrite bind_opts_update.
  match goal with |- context [(?m (World ?o ?g ?ws)).2] =>
    assert (H : keeps_opts m); [|exact (H (World o g ws))] end.
  keeps.
Qed.

End Entry.

(** ** Helpers that cannot run out of fuel

    Only the two loops consume fuel: the validation helpers answer [Ok] or
    [Raise]. *)

Ltac crush_result :=
  unfold mbind, result_bind, mret, result_ret;
  repeat match goal with
         | |- context [match ?x with _ => _ end] => destruct x eqn:?
         end;
  try discriminate.

Lemma rmap_fuel {A B} (f : A -> result B) (l : list A) :
  (forall a, f a <> NoFuel) -> rmap f l <> NoFuel.
Proof.
  intros Hf. induction l as [|a l IH]; simpl; [discriminate|].
  unfold mbind, result_bind.
  destruct (f a) eqn:Ea; try discriminate; [|exfalso; exact (Hf a Ea)].
  destruct (rmap f l); try discriminate. exfalso. apply IH. reflexivity.
Qed.

Lemma getitem_fuel o key : getitem o key <> NoFuel.
Proof. unfold getitem. crush_result. Qed.

Lemma py_float_fuel v : py_float v <> NoFuel.
Proof. unfold py_float. crush_result. Qed.

Lemma py_iter_fuel v : py_iter v <> NoFuel.
Proof. unfold py_iter. crush_result. Qed.

Lemma py_max_fuel a b : py_max a b <> NoFuel.
Proof.
  unfold py_max, mbind, result_bind.
  destruct (py_float a) eqn:Ea; try discriminate;
    [|exfalso; exact (py_float_fuel _ Ea)].
  destruct (py_float b) eqn:Eb; try discriminate.
  exfalso; exact (py_float_fuel _ Eb).
Qed.

Lemma py_min_fuel a b : py_min a b <> NoFuel.
Proof.
  unfold py_min, mbind, result_bind.
  destruct (py_float a) eqn:Ea; try discriminate;
    [|exfalso; exact (py_float_fuel _ Ea)].
  destruct (py_float b) eqn:Eb; try discriminate.
  exfalso; exact (py_float_fuel _ Eb).
Qed.

Lemma parse_kwargs_fuel kwargs : _parse_kwargs kwargs <> NoFuel.
Proof.
  induction kwargs as [|[k v] kwargs IH]; simpl; [discriminate|].
  destruct (recognized k); [exact IH|discriminate].
Qed.

Lemma select_verbosity_fuel o : _select_verbosity o <> NoFuel.
Proof.
  unfold _select_verbosity, mbind, result_bind.
  destruct (getitem o "verbose") eqn:E; try discriminate;
    [|exfalso; exact (getitem_fuel _ _ E)].
  destruct (py_float a) eqn:E'; try discriminate;
    [|exfalso; exact (py_float_fuel _ E')].
  repeat match goal with |- context [if ?b then _ else _] => destruct b end;
    discriminate.
Qed.

Lemma np_array_fuel v : np_array v <> NoFuel.
Proof.
  assert (H : forall l : list pyval,
             rmap (fun r => xs ← py_iter r; rmap py_float xs) l <> NoFuel).
  { intros l. apply rmap_fuel. intros r. unfold mbind, result_bind.
    destruct (py_iter r) eqn:E; try discriminate.
    - apply rmap_fuel, py_float_fuel.
    - exfalso. exact (py_iter_fuel _ E). }
  destruct v; simpl; try discriminate; apply H.
Qed.

Lemma bbox_reshape_fuel l : bbox_reshape l <> NoFuel.
Proof.
  unfold bbox_reshape, mbind, result_bind.
  destruct (rmap py_float l) eqn:E; try discriminate.
  - destruct (Nat.even _); discriminate.
  - exfalso. exact (rmap_fuel _ _ py_float_fuel E).
Qed.

Section Fuel.

Context `{Ext : Externals}.

Lemma minmax_from_fuel i l : _minmax_from i l <> NoFuel.
Proof.
  revert i. induction l as [|[a b] l IH]; intros i; simpl; [discriminate|].
  unfold mbind, result_bind.
  destruct (if Nat.odd i then py_max a b else py_min a b) eqn:E; try discriminate.
  - destruct (_minmax_from (S i) l) eqn:E'; try discriminate.
    exfalso. exact (IH _ E').
  - exfalso. destruct (Nat.odd i);
      [exact (py_max_fuel _ _ E)|exact (py_min_fuel _ _ E)].
Qed.

Lemma minmax_fuel b0 b1 : _minmax b0 b1 <> NoFuel.
Proof.
  unfold _minmax, mbind, result_bind.
  destruct (py_iter b0) eqn:E0; try discriminate;
    [|exfalso; exact (py_iter_fuel _ E0)].
  destruct (py_iter b1) eqn:E1; try discriminate;
    [|exfalso; exact (py_iter_fuel _ E1)].
  destruct (_minmax_from 0 (zip a a0)) eqn:E; try discriminate.
  exfalso. exact (minmax_from_fuel _ _ E).
Qed.

Lemma check_bbox_fuel b : _check_bbox b <> NoFuel.
Proof.
  unfold _check_bbox, mbind, result_bind.
  destruct (py_is_none b); [discriminate|].
  destruct (py_iter b) eqn:E; try discriminate.
  - destruct (existsb _ _); discriminate.
  - exfalso. exact (py_iter_fuel _ E).
Qed.

Lemma unpack_sizing_fuel e : _unpack_sizing e <> NoFuel.
Proof.
  unfold _unpack_sizing, mbind, result_bind.
  destruct e; simpl; try discriminate;
    match goal with |- context [_check_bbox ?b] =>
      destruct (_check_bbox b) eqn:E; try discriminate;
      exfalso; exact (check_bbox_fuel _ E) end.
Qed.

Lemma unpack_domain_fuel d w : (_unpack_domain d w).1 <> NoFuel.
Proof.
  unfold _unpack_domain, opt, get_opts, lift, raise, mbind, mret, M_bind, M_ret.
  destruct d; simpl; try discriminate;
    repeat match goal with
           | |- context [getitem ?o ?k] =>
               destruct (getitem o k) eqn:?; simpl; try discriminate
           | |- context [_check_bbox ?b] =>
               destruct (_check_bbox b) eqn:?; simpl; try discriminate
           end;
    exfalso;
    match goal with
    | H : _check_bbox _ = NoFuel |- _ => exact (check_bbox_fuel _ H)
    | H : getitem _ _ = NoFuel |- _ => exact (getitem_fuel _ _ H)
    end.
Qed.

End Fuel.

Create HintDb fuel.
#[export] Hint Resolve getitem_fuel py_float_fuel parse_kwargs_fuel
  select_verbosity_fuel bbox_reshape_fuel np_array_fuel : fuel.

(** ** Helpers of the loops *)

Lemma bind_Ok_inv {A B} (r : result A) (k : A -> result B) (b : B) :
  r ≫= k = Ok b -> exists a, r = Ok a /\ k a = Ok b.
Proof.
  unfold mbind, result_bind. destruct r; try discriminate.
  intros H. exists a. split; [reflexivity|exact H].
Qed.

Lemma bind_fuel {A B} (r : result A) (k : A -> result B) :
  r <> NoFuel -> (forall a, k a <> NoFuel) -> r ≫= k <> NoFuel.
Proof.
  intros Hr Hk. unfold mbind, result_bind.
  destruct r; [apply Hk|discriminate|exfalso; apply Hr; reflexivity].
Qed.

Ltac nofuel :=
  repeat first
    [ discriminate
    | solve [auto with fuel]
    | apply bind_fuel; [|intros ?]
    | apply rmap_fuel; intros ?
    | progress lazy zeta
    | match goal with
      | |- (if ?b then _ else _) <> NoFuel => destruct b
      | |- (match ?x with _ => _ end) <> NoFuel => destruct x
      end ].

Lemma take_rows_fuel {A} (p : list A) ix : take_rows p ix <> NoFuel.
Proof. unfold take_rows. nofuel. Qed.

Lemma cols_fuel {A} (t : list (list A)) js : cols t js <> NoFuel.
Proof. unfold cols. nofuel; apply take_rows_fuel. Qed.

Lemma col_fuel {A} (t : list (list A)) j : col t j <> NoFuel.
Proof. unfold col. nofuel. Qed.

Lemma take_col_fuel {A} (t : list (list A)) rows j : take_col t rows j <> NoFuel.
Proof. unfold take_col. nofuel. Qed.

Lemma np_amax_fuel xs : np_amax xs <> NoFuel.
Proof. unfold np_amax. nofuel. Qed.

Lemma np_amin_fuel xs : np_amin xs <> NoFuel.
Proof. unfold np_amin. nofuel. Qed.

Lemma np_argmin_fuel xs : np_argmin xs <> NoFuel.
Proof. unfold np_argmin. nofuel. Qed.

Lemma np_delete_fuel {A} (p : list A) ix : np_delete p ix <> NoFuel.
Proof. unfold np_delete. nofuel. Qed.

Lemma remove_triangles_outside_fuel p t fd geps :
  _remove_triangles_outside p t fd geps <> NoFuel.
Proof. unfold _remove_triangles_outside. nofuel; apply take_rows_fuel. Qed.

#[export] Hint Resolve take_rows_fuel cols_fuel col_fuel take_col_fuel np_amax_fuel
  np_amin_fuel np_argmin_fuel np_delete_fuel remove_triangles_outside_fuel : fuel.

Section LoopHelpers.

Context `{Ext : Externals}.

Lemma call_DT_fuel DT : call_DT DT <> NoFuel.
Proof. unfold call_DT. nofuel. Qed.

Lemma closest_node_fuel node nodes : _closest_node node nodes <> NoFuel.
Proof. unfold _closest_node. nofuel. Qed.

Lemma add_ghost_vertices_fuel p t dt extents comm :
  _add_ghost_vertices p t dt extents comm <> NoFuel.
Proof. unfold _add_ghost_vertices. nofuel. Qed.

Lemma termination_fuel p t o comm sliver : _termination p t o comm sliver <> NoFuel.
Proof. unfold _termination. nofuel. Qed.

Lemma improve_step_fuel dim p bid d fd deps : _improve_step dim p bid d fd deps <> NoFuel.
Proof. unfold _improve_step. nofuel. Qed.

Lemma improve_loop_fuel left dim p bid d fd deps tol :
  _improve_loop left dim p bid d fd deps tol <> NoFuel.
Proof.
  revert p. induction left as [|left IH]; intros p; simpl.
  - nofuel.
  - apply bind_fuel; [auto with fuel|intros m].
    destruct (Qltb tol m); [|discriminate].
    apply bind_fuel; [apply improve_step_fuel|intros p']. apply IH.
Qed.

Lemma improve_level_set_newton_fuel p t fd deps tol :
  _improve_level_set_newton p t fd deps tol <> NoFuel.
Proof. unfold _improve_level_set_newton. nofuel; apply improve_loop_fuel. Qed.

Lemma unpack_pfix_fuel dim o comm : _unpack_pfix dim o comm <> NoFuel.
Proof. unfold _unpack_pfix. nofuel. Qed.

Lemma get_edges_fuel t : _get_edges t <> NoFuel.
Proof. unfold _get_edges. nofuel. Qed.

Lemma compute_forces_bars_fuel p t fh h0 L0mult :
  _compute_forces_bars p t fh h0 L0mult <> NoFuel.
Proof. unfold _compute_forces_bars. nofuel; apply get_edges_fuel. Qed.

Lemma compute_forces_fuel p t fh h0 L0mult : _compute_forces p t fh h0 L0mult <> NoFuel.
Proof. unfold _compute_forces. nofuel; apply compute_forces_bars_fuel. Qed.

End LoopHelpers.

#[export] Hint Resolve call_DT_fuel closest_node_fuel add_ghost_vertices_fuel
  termination_fuel improve_level_set_newton_fuel compute_forces_fuel : fuel.

(** ** The loop of [generate_mesh] *)

Section GenerateLoopProps.

Context `{Ext : Externals}.

Variables (fd fh : point -> Q).
Variables (h0 geps deps L0mult delta_t max_iter : Q).
Variable DT : option DelaunayTriangulation.
Variables (pfix : list point) (nfix : nat).
Variable extents : list (list Q).
Variable o : gmap string pyval.
Variable comm : comm_t.

Let body := generate_mesh_body fd fh h0 geps deps L0mult delta_t max_iter DT
                               pfix nfix extents o comm.
Let loop := generate_mesh_loop fd fh h0 geps deps L0mult delta_t max_iter DT
                               pfix nfix extents o comm.

Lemma generate_mesh_body_fuel count p : body count p <> NoFuel.
Proof. unfold body, generate_mesh_body. nofuel. Qed.

(** The body reaches the [break] exactly when [count == max_iter - 1]. *)
Lemma generate_mesh_body_exit count p r :
  body count p = Ok r ->
  match r with
  | GBreak _ _ => Qeq_bool (inject_Z count) (max_iter - 1) = true
  | GContinue _ => Qeq_bool (inject_Z count) (max_iter - 1) = false
  end.
Proof.
  unfold body, generate_mesh_body. intros H.
  apply bind_Ok_inv in H as (dt & _ & H). lazy zeta in H.
  apply bind_Ok_inv in H as (ifix & _ & H).
  apply bind_Ok_inv in H as (g & _ & H). lazy zeta in H.
  apply bind_Ok_inv in H as (t & _ & H).
  destruct (Qeq_bool (inject_Z count) (max_iter - 1)).
  - apply bind_Ok_inv in H as (pt & _ & H).
    apply bind_Ok_inv in H as (p' & _ & H).
    injection H as <-. reflexivity.
  - apply bind_Ok_inv in H as (Ftot & _ & H).
    apply bind_Ok_inv in H as (u & _ & H). lazy zeta in H.
    apply bind_Ok_inv in H as (p' & _ & H).
    injection H as <-. reflexivity.
Qed.

(** The loop has one way out: the [break] taken when [count] is
    [max_iter - 1].  It is not taken at any earlier value of [count]. *)
Lemma generate_mesh_loop_exit fuel count p c p' t :
  loop fuel count p = Ok (c, p', t) ->
  count <= c < count + Z.of_nat fuel
  /\ Qeq_bool (inject_Z c) (max_iter - 1) = true
  /\ forall c', count <= c' < c -> Qeq_bool (inject_Z c') (max_iter - 1) = false.
Proof.
  unfold loop. revert count p.
  induction fuel as [|fuel IH]; intros count p H; [discriminate|].
  cbn [generate_mesh_loop] in H.
  apply bind_Ok_inv in H as (r & Hr & H).
  pose proof (generate_mesh_body_exit _ _ _ Hr) as Hc.
  destruct r as [p1|p1 t1].
  - apply IH in H as (Hle & Hex & Hbefore).
    split; [lia|]. split; [exact Hex|].
    intros c' Hc'. destruct (Z.eq_dec c' count) as [->|Hne]; [exact Hc|].
    apply Hbefore. lia.
  - injection H as <- <- <-.
    split; [lia|]. split; [exact Hc|]. intros c' Hc'. lia.
Qed.

(** With a whole number [n >= 1] of iterations asked for, the loop stops,
    and it stops at [count = n - 1]. *)
Lemma max_iter_last (n : Z) :
  (max_iter == inject_Z n)%Q -> Qeq_bool (inject_Z (n - 1)) (max_iter - 1) = true.
Proof.
  intros Hn. apply Qeq_bool_iff. rewrite Hn.
  unfold Qminus, Z.sub. rewrite inject_Z_plus, inject_Z_opp. reflexivity.
Qed.

Lemma generate_mesh_loop_stops (n : Z) fuel count p :
  (max_iter == inject_Z n)%Q -> 0 <= count < n ->
  (Z.to_nat (n - count) <= fuel)%nat ->
  loop fuel count p <> NoFuel
  /\ forall c p' t, loop fuel count p = Ok (c, p', t) -> c = n - 1.
Proof.
  intros Hn Hcount Hfuel. split.
  - unfold loop. revert count p Hcount Hfuel.
    induction fuel as [|fuel IH]; intros count p Hcount Hfuel; [lia|].
    cbn [generate_mesh_loop]. unfold mbind, result_bind.
    fold body. destruct (body count p) as [r| |] eqn:Hb; try discriminate.
    + pose proof (generate_mesh_body_exit _ _ _ Hb) as Hc.
      destruct r as [p1|p1 t1]; [|discriminate].
      destruct (Z.eq_dec count (n - 1)) as [->|Hne].
      * rewrite (max_iter_last n Hn) in Hc. discriminate.
      * apply IH; lia.
    + exfalso. exact (generate_mesh_body_fuel _ _ Hb).
  - intros c p' t H. apply generate_mesh_loop_exit in H as (Hle & Hex & _).
    apply Qeq_bool_iff in Hex. rewrite Hn in Hex.
    assert (E : (inject_Z c == inject_Z (n - 1))%Q).
    { rewrite Hex. unfold Qminus, Z.sub. rewrite inject_Z_plus, inject_Z_opp.
      reflexivity. }
    unfold Qeq in E. simpl in E. lia.
Qed.

(** With [max_iter = 0] the test [count == max_iter - 1] compares a
    counter that starts at 0 and grows with -1: the [break] is never
    reached. *)
Lemma generate_mesh_loop_zero fuel count p :
  (max_iter == 0)%Q -> 0 <= count ->
  forall r, loop fuel count p <> Ok r.
Proof.
  intros H0 Hcount [[c p'] t] H.
  apply generate_mesh_loop_exit in H as (Hle & Hex & _).
  apply Qeq_bool_iff in Hex. rewrite H0 in Hex.
  unfold Qeq in Hex. simpl in Hex. lia.
Qed.

End GenerateLoopProps.

(** ** Validation steps *)

Lemma validates_lift {A} (r : result A) : r <> NoFuel -> validates (lift r).
Proof. intros H. split; [apply frame_lift|intros w; exact H]. Qed.

Lemma validates_ret {A} (a : A) : validates (mret a).
Proof. split; [intros w; reflexivity|intros w; discriminate]. Qed.

Lemma validates_raise {A} (e : exn) : validates (raise e : M A).
Proof. split; [intros w; reflexivity|intros w; discriminate]. Qed.

Lemma validates_get_opts : validates get_opts.
Proof. split; [intros w; reflexivity|intros w; discriminate]. Qed.

Lemma validates_opt (key : string) : validates (opt key).
Proof.
  split; [apply frame_opt|]. intros w.
  unfold opt, get_opts, lift, mbind, M_bind.
  destruct (getitem (w_opts w) key) eqn:E; simpl; try discriminate.
  exfalso. exact (getitem_fuel _ _ E).
Qed.

Lemma validates_bind {A B} (m : M A) (k : A -> M B) :
  validates m -> (forall a, validates (k a)) -> validates (m ≫= k).
Proof.
  intros [Hm Hf] Hk. split.
  - intros w. rewrite bind_frame by exact Hm.
    destruct (m w).1; try reflexivity. apply (Hk a).
  - intros w. rewrite bind_frame by exact Hm.
    specialize (Hf w). destruct (m w).1; try discriminate; [|congruence].
    apply (Hk a).
Qed.

Lemma raises_bind {A B} (w : world) (m : M A) (k : A -> M B) :
  validates m ->
  (forall a, (m w).1 = Ok a -> raises_at w (k a)) ->
  raises_at w (m ≫= k).
Proof.
  intros [Hm Hf] Hk. unfold raises_at. rewrite bind_frame by exact Hm.
  specialize (Hf w). destruct (m w).1 eqn:E; try congruence.
  - apply Hk. reflexivity.
  - eexists. reflexivity.
Qed.

Lemma raises_raise {A} (w : world) (e : exn) : raises_at w (raise e : M A).
Proof. exists e. reflexivity. Qed.

Lemma raises_lift_bind {A B} (w : world) (e : exn) (r : result A) (k : A -> M B) :
  r = Raise e -> raises_at w (lift r ≫= k).
Proof. intros ->. exists e. reflexivity. Qed.

Lemma never_raise {A} (w : world) (e : exn) : never_returns w (raise e : M A).
Proof. intros r. discriminate. Qed.

Lemma never_bind {A B} (w : world) (m : M A) (k : A -> M B) :
  (forall a w', m w = (Ok a, w') -> never_returns w' (k a)) ->
  never_returns w (m ≫= k).
Proof.
  intros Hk r. unfold mbind, M_bind.
  destruct (m w) as [[a|e|] w'] eqn:E; try discriminate.
  apply (Hk a w'). reflexivity.
Qed.

Lemma never_bind_validates {A B} (w : world) (m : M A) (k : A -> M B) :
  validates m ->
  (forall a, (m w).1 = Ok a -> never_returns w (k a)) ->
  never_returns w (m ≫= k).
Proof.
  intros [Hm _] Hk. apply never_bind. intros a w' E.
  pose proof (Hm w) as Hw. rewrite E in Hw. simpl in Hw. subst w'.
  apply Hk. rewrite E. reflexivity.
Qed.

Lemma never_lift_bind {A B} (w : world) (r : result A) (k : A -> M B) :
  (forall a, r <> Ok a) -> never_returns w (lift r ≫= k).
Proof.
  intros Hr b. rewrite bind_lift. destruct r; try discriminate.
  exfalso. exact (Hr a eq_refl).
Qed.

Section EntryPoints.

Context `{Ext : Externals}.

Lemma validates_unpack_domain d : validates (_unpack_domain d).
Proof. split; [apply frame_unpack_domain|intros w; apply unpack_domain_fuel]. Qed.

Ltac validation :=
  repeat first
    [ apply validates_ret
    | apply validates_raise
    | apply validates_get_opts
    | apply validates_opt
    | apply validates_unpack_domain
    | apply validates_lift;
      first [ solve [auto with fuel] | apply unpack_sizing_fuel | apply minmax_fuel
            | apply unpack_pfix_fuel ]
    | apply validates_bind; [|intros ?]
    | progress lazy zeta
    | match goal with
      | |- validates (if ?b then _ else _) => destruct b
      | |- validates (match ?x with _ => _ end) => destruct x
      end ].

Ltac never_step :=
  first
    [ apply never_raise
    | apply never_bind_validates; [solve [validation]|intros ? ?]
    | progress lazy zeta
    | match goal with
      | |- never_returns _ (if ?b then _ else _) => destruct b eqn:?
      end ].

(** ** Unrecognized keywords *)


(** ** Sliver removal on a non-coordinator rank *)

(** C7, as the code has it.  On every rank above 0 [sliver_removal]
    returns [(True, True)] at once, whatever its arguments and
    collaborators, and leaves the stored configuration and the random
    generator as they are; the warning is issued on rank 1 only. *)
Theorem sliver_removal_non_coordinator
    (fuel : nat) (points : list point) (domain : domain_arg)
    (edge_length : sizing_arg) (comm : comm_t) (kwargs : kwargs_t) (w : world) :
  (0 < rank comm)%nat ->
  sliver_removal fuel points domain edge_length comm kwargs w
  = (Ok TrueTrue,
     World (w_opts w) (w_rng w)
           (w_warnings w ++
            if Nat.eqb (rank comm) 1
            then ["Sliver removal only works in serial for now"] else [])).
Proof.
  intros Hr. unfold sliver_removal.
  apply Nat.ltb_lt in Hr. rewrite Hr.
  destruct (Nat.eqb (rank comm) 1).
  - reflexivity.
  - destruct w. simpl. rewrite app_nil_r. reflexivity.
Qed.

(** ** Fixed points in parallel *)

Lemma unpack_pfix_parallel (dim : nat) (o : gmap string pyval) (comm : comm_t) (pf : pyval) :
  o !! "pfix" = Some pf -> py_is_none pf = false -> (1 < size comm)%nat ->
  _unpack_pfix dim o comm
  = Raise (Exception "Fixed points are not yet supported in parallel.").
Proof.
  intros Ho Hpf Hs. unfold _unpack_pfix, getitem. rewrite Ho. simpl.
  rewrite Hpf. simpl. apply Nat.ltb_lt in Hs. rewrite Hs. reflexivity.
Qed.


(** ** The iteration count *)

(** C3, at the value the validation lets through by a slip.  The check
    [opts["max_iter"] < 0] accepts [max_iter = 0], although its message
    asks for [max_iter > 0]; the loop then compares a counter that starts
    at 0 and only grows with [max_iter - 1 = -1], so [generate_mesh] never
    returns a mesh: whatever the fuel, it is still running or it has
    raised. *)
Theorem generate_mesh_max_iter_zero_never_returns
    (fuel : nat) (domain : domain_arg) (edge_length : sizing_arg)
    (comm : comm_t) (kwargs : kwargs_t) (w : world) :
  dict_update (w_opts w) kwargs !! "max_iter" = Some (PyInt 0) ->
  (exists max_iter, py_float (PyInt 0) = Ok max_iter /\ Qltb max_iter 0 = false)
  /\ forall r, (generate_mesh fuel domain edge_length comm kwargs w).1 <> Ok r.
Proof.
  intros Ho. split.
  { exists (inject_Z 0). split; reflexivity. }
  unfold generate_mesh. rewrite bind_opts_update.
  set (w' := World (dict_update (w_opts w) kwargs) (w_rng w) (w_warnings w)).
  match goal with |- forall r, (?m w').1 <> Ok r => change (never_returns w' m) end.
  repeat never_step.
  match goal with
  | Hmi : (opt "max_iter" w').1 = Ok ?mi, Hq : (lift (py_float ?mi) w').1 = Ok ?q |- _ =>
      unfold opt, get_opts, lift, mbind, M_bind, getitem in Hmi; simpl in Hmi;
      rewrite Ho in Hmi; simpl in Hmi; injection Hmi as <-;
      simpl in Hq; injection Hq as <-
  end.
  apply never_bind. intros ini w'' _. lazy zeta.
  match goal with |- never_returns _ (if ?b then _ else _) => destruct b end;
    [apply never_raise|].
  apply never_lift_bind. intros r.
  apply generate_mesh_loop_zero; [reflexivity|lia].
Qed.

End EntryPoints.

(** ** Determinism *)

Lemma det_bind {A B} (m : M A) (k : A -> M B) :
  deterministic m -> (forall a, deterministic (k a)) -> deterministic (m ≫= k).
Proof.
  intros Hm Hk w1 w2 Hw. destruct (Hm w1 w2 Hw) as [H1 H2].
  unfold mbind, M_bind.
  destruct (m w1) as [r1 w1'], (m w2) as [r2 w2']. simpl in *. subst r2.
  destruct r1; simpl; [apply Hk; exact H2|split; [reflexivity|exact H2]..].
Qed.

Lemma det_frame {A} (m : M A) :
  frame m -> (forall w1 w2, w_opts w1 = w_opts w2 -> (m w1).1 = (m w2).1) ->
  deterministic m.
Proof.
  intros Hf Hr w1 w2 Hw. split; [apply Hr, Hw|]. rewrite !Hf. exact Hw.
Qed.

Lemma det_ret {A} (a : A) : deterministic (mret a).
Proof. intros w1 w2 Hw. split; [reflexivity|exact Hw]. Qed.

Lemma det_lift {A} (r : result A) : deterministic (lift r).
Proof. intros w1 w2 Hw. split; [reflexivity|exact Hw]. Qed.

Lemma det_raise {A} (e : exn) : deterministic (raise e : M A).
Proof. intros w1 w2 Hw. split; [reflexivity|exact Hw]. Qed.

Lemma det_get_opts : deterministic get_opts.
Proof. intros w1 w2 Hw. simpl. rewrite Hw. split; reflexivity. Qed.

Lemma det_put_rng (g : Z) : deterministic (put_rng g).
Proof. intros w1 w2 Hw. split; [reflexivity|exact Hw]. Qed.

Lemma det_opts_update (kwargs : kwargs_t) : deterministic (opts_update kwargs).
Proof. intros w1 w2 Hw. simpl. rewrite Hw. split; reflexivity. Qed.

Lemma det_opt (key : string) : deterministic (opt key).
Proof.
  unfold opt. apply det_bind; [apply det_get_opts|intros o; apply det_lift].
Qed.

(** Seeding the generator erases its previous state: what is drawn next
    depends on the seed only. *)
Lemma det_seed {B} (s : Z) (k : Z -> M B) :
  deterministic (k s) ->
  deterministic (put_rng s ≫= fun _ => get_rng ≫= k).
Proof.
  intros Hk w1 w2 Hw.
  exact (Hk (World (w_opts w1) s (w_warnings w1))
            (World (w_opts w2) s (w_warnings w2)) Hw).
Qed.

Ltac det :=
  repeat first
    [ apply det_ret
    | apply det_lift
    | apply det_raise
    | apply det_get_opts
    | apply det_put_rng
    | apply det_opts_update
    | apply det_opt
    | apply det_seed
    | apply det_bind; [|intros ?]
    | progress lazy zeta
    | match goal with
      | |- deterministic (if ?b then _ else _) => destruct b
      | |- deterministic (match ?x with _ => _ end) => destruct x
      end ].

Section Determinism.

Context `{Ext : Externals}.

Lemma det_unpack_domain d : deterministic (_unpack_domain d).
Proof. unfold _unpack_domain. det. Qed.

Lemma det_form_extents p h0 comm : deterministic (_form_extents p h0 comm).
Proof. unfold _form_extents. det. Qed.

Lemma det_generate_initial_points h0 geps dim bbox fh fd pfix comm o :
  deterministic (_generate_initial_points h0 geps dim bbox fh fd pfix comm o).
Proof. unfold _generate_initial_points. det; apply det_form_extents. Qed.

Lemma det_initialize_points dim geps bbox fh fd h0 o pfix comm :
  deterministic (_initialize_points dim geps bbox fh fd h0 o pfix comm).
Proof. unfold _initialize_points. det; apply det_generate_initial_points. Qed.

Lemma det_generate_mesh fuel domain edge_length comm kwargs :
  deterministic (generate_mesh fuel domain edge_length comm kwargs).
Proof.
  unfold generate_mesh.
  det; first [apply det_unpack_domain | apply det_initialize_points].
Qed.

(** C6.  Two runs of [generate_mesh] on the same domain, sizing field,
    keywords and communicator, started with the same stored configuration,
    return the same points and cells (or fail alike), whatever the state
    of the random generator and of the warnings before each run; in
    particular the initial point sampling, which seeds the generator with
    the configured seed before it draws, returns the same points. *)
Theorem generate_mesh_deterministic
    (fuel : nat) (domain : domain_arg) (edge_length : sizing_arg)
    (comm : comm_t) (kwargs : kwargs_t) (w1 w2 : world) :
  w_opts w1 = w_opts w2 ->
  (generate_mesh fuel domain edge_length comm kwargs w1).1
  = (generate_mesh fuel domain edge_length comm kwargs w2).1
  /\ (forall h0 geps dim bbox fh fd pfix o,
        (_generate_initial_points h0 geps dim bbox fh fd pfix comm o w1).1
        = (_generate_initial_points h0 geps dim bbox fh fd pfix comm o w2).1).
Proof.
  intros Hw. split.
  - apply det_generate_mesh, Hw.
  - intros. apply det_generate_initial_points, Hw.
Qed.

End Determinism.

(** ** Persistence of the keywords *)

Section Persistence.

Context `{Ext : Externals}.

(** C10.  The configuration lives in a dictionary of the module that
    every call updates in place before it validates anything: a keyword
    [k = v] passed to one call of [generate_mesh] (or of [sliver_removal]
    on the coordinator rank) is in the dictionary when that call is over,
    whatever its outcome, and is still the value a later call works with
    when that call omits [k].  So the same call can behave differently
    after different earlier calls: in a fresh process the example call
    returns a mesh, after a failed call that passed [verbose = -1] the
    same call raises. *)
Theorem keyword_arguments_persist
    (fuel1 fuel2 : nat) (points1 points2 : list point)
    (domain1 domain2 : domain_arg) (edge_length1 edge_length2 : sizing_arg)
    (comm : comm_t) (kwargs1 kwargs2 : kwargs_t) (k : string) (v : pyval)
    (w : world) :
  NoDup (map fst kwargs1) -> In (k, v) kwargs1 -> ~ In k (map fst kwargs2) ->
  let w1 := (generate_mesh fuel1 domain1 edge_length1 comm kwargs1 w).2 in
  let s1 := (sliver_removal fuel1 points1 domain1 edge_length1 comm kwargs1 w).2 in
  w_opts w1 !! k = Some v
  /\ w_opts (generate_mesh fuel2 domain2 edge_length2 comm kwargs2 w1).2 !! k = Some v
  /\ (rank comm = 0%nat ->
      w_opts s1 !! k = Some v
      /\ w_opts (sliver_removal fuel2 points2 domain2 edge_length2 comm kwargs2 s1).2 !! k
         = Some v
      /\ w_opts (generate_mesh fuel2 domain2 edge_length2 comm kwargs2 s1).2 !! k
         = Some v
      /\ w_opts (sliver_removal fuel2 points2 domain2 edge_length2 comm kwargs2 w1).2 !! k
         = Some v)
  /\ (let call :=
        generate_mesh (Ext := Example.externals) 1 Example.unit_square
                      (SizingScalar (1 # 2)) (Comm 0 1)
                      [("max_iter", PyInt 1); ("points", PyArray Example.triangle)] in
      let earlier :=
        generate_mesh (Ext := Example.externals) 1 Example.unit_square
                      (SizingScalar (1 # 2)) (Comm 0 1) [("verbose", PyInt (-1))] in
      (call (fresh_world 0)).1
      = Ok (Example.triangle, [[0; 1; 2]%nat])
      /\ (call (earlier (fresh_world 0)).2).1
         = Raise (ValueError "Unknown verbosity level" [])).
Proof.
  intros Hnd Hin Hk w1 s1.
  assert (H1 : w_opts w1 !! k = Some v).
  { unfold w1. rewrite (proj1 (generate_mesh_opts _ _ _ _ _ _)).
    apply dict_update_in; assumption. }
  split; [exact H1|]. split.
  { rewrite (proj1 (generate_mesh_opts _ _ _ _ _ _)).
    rewrite dict_update_notin by exact Hk. exact H1. }
  split.
  { intros Hr.
    assert (H2 : w_opts s1 !! k = Some v).
    { unfold s1. rewrite (proj1 (sliver_removal_opts _ _ _ _ _ _ _ Hr)).
      apply dict_update_in; assumption. }
    split; [exact H2|]. split; [|split].
    - rewrite (proj1 (sliver_removal_opts _ _ _ _ _ _ _ Hr)).
      rewrite dict_update_notin by exact Hk. exact H2.
    - rewrite (proj1 (generate_mesh_opts _ _ _ _ _ _)).
      rewrite dict_update_notin by exact Hk. exact H2.
    - rewrite (proj1 (sliver_removal_opts _ _ _ _ _ _ _ Hr)).
      rewrite dict_update_notin by exact Hk. exact H1. }
  split; vm_compute; reflexivity.
Qed.

End Persistence.

(** ** The loop of [sliver_removal] *)

Lemma rmap_length {A B} (f : A -> result B) (l : list A) (r : list B) :
  rmap f l = Ok r -> length r = length l.
Proof.
  intros H. apply rmap_Forall2 in H. symmetry. exact (Forall2_length _ _ _ H).
Qed.

Lemma mask_select_nil {A} (mask : list bool) (xs : list A) :
  length xs = length mask -> mask_select mask xs = [] ->
  forall i b, mask !! i = Some b -> b = false.
Proof.
  revert xs. induction mask as [|m mask IH]; intros [|x xs] Hlen H i b Hi;
    simpl in *; try discriminate.
  destruct m; [discriminate|].
  destruct i as [|i]; simpl in Hi.
  - injection Hi as <-. reflexivity.
  - apply (IH xs ltac:(lia) H i b Hi).
Qed.

Lemma np_where_nil (mask : list bool) :
  np_where mask = [] -> forall i b, mask !! i = Some b -> b = false.
Proof. unfold np_where. apply mask_select_nil. apply length_seq. Qed.

Lemma le_fold_max (x : nat) (l : list nat) : In x l -> (x <= fold_right Nat.max 0 l)%nat.
Proof.
  induction l as [|y l IH]; simpl; [tauto|].
  intros [->|H]; [lia|]. specialize (IH H). lia.
Qed.

Lemma np_unique_nil (l : list nat) : np_unique l = [] -> l = [].
Proof.
  destruct l as [|x l]; [reflexivity|]. intros H. exfalso.
  assert (Hx : x ∈ np_unique (x :: l)).
  { unfold np_unique. apply list_elem_of_filter. split.
    - simpl. rewrite Nat.eqb_refl. exact I.
    - apply list_elem_of_In, in_seq. split; [lia|].
      pose proof (le_fold_max x (x :: l) (or_introl eq_refl)). simpl in *. lia. }
  rewrite H in Hx. inversion Hx.
Qed.

Section SliverLoopProps.

Context `{Ext : Externals}.

Variable fd : point -> Q.
Variables (h0 geps deps min_dh_bound max_dh_bound max_iter : Q).
Variable DT : option DelaunayTriangulation.
Variable dim : nat.
Variable o : gmap string pyval.
Variable comm : comm_t.

Let retriangulate := sliver_retriangulate fd geps DT.
Let body := sliver_body fd h0 geps deps min_dh_bound max_dh_bound max_iter DT dim o comm.
Let loop := sliver_loop fd h0 geps deps min_dh_bound max_dh_bound max_iter DT dim o comm.
Local Abbreviation sliver_iterates :=
  (sliver_iterates fd h0 geps deps min_dh_bound max_dh_bound max_iter DT dim o comm).

(** No element is flagged exactly when every angle is within the bounds. *)
Lemma sliver_elements_nil p t :
  sliver_elements p t min_dh_bound max_dh_bound = Ok [] ->
  dihedral_angles_ok p t min_dh_bound max_dh_bound.
Proof.
  unfold sliver_elements. intros H.
  apply bind_Ok_inv in H as (dh & Hdh & H). lazy zeta in H.
  injection H as H. apply np_unique_nil in H. apply map_eq_nil in H.
  exists dh. split; [exact Hdh|]. intros j k a _ Ha.
  pose proof (np_where_nil _ H (6 * j + k)%nat) as Hm.
  rewrite lookup_map, Ha in Hm. simpl in Hm.
  specialize (Hm _ eq_refl). apply orb_false_iff in Hm as [H1 H2].
  split; apply Qltb_ge; assumption.
Qed.

(** An iteration that sees no sliver before the last one returns the
    cleaned mesh at once. *)
Lemma sliver_body_zero s dt p t :
  retriangulate s = Ok (dt, p, t) ->
  Qeq_bool (inject_Z (ss_count s)) (max_iter - 1) = false ->
  sliver_elements p t min_dh_bound max_dh_bound = Ok [] ->
  body s = Ok (SReturn NoSlivers (fix_mesh p t dim).1 (fix_mesh p t dim).2).
Proof.
  unfold retriangulate, body, sliver_body. intros Hr Hc He.
  rewrite Hr. cbn [mbind result_bind]. lazy zeta. cbn [fst snd].
  rewrite Hc. cbn [negb]. rewrite He. reflexivity.
Qed.

(** What each outcome of an iteration says about it. *)
Lemma sliver_body_inv s r :
  body s = Ok r ->
  exists dt p t, retriangulate s = Ok (dt, p, t) /\
  match r with
  | SReturn NoSlivers p' t' =>
      Qeq_bool (inject_Z (ss_count s)) (max_iter - 1) = false /\
      sliver_elements p t min_dh_bound max_dh_bound = Ok [] /\
      (p', t') = fix_mesh p t dim
  | SReturn MaxIter p' t' =>
      Qeq_bool (inject_Z (ss_count s)) (max_iter - 1) = true
  | SContinue s' =>
      Qeq_bool (inject_Z (ss_count s)) (max_iter - 1) = false /\
      ss_count s' = ss_count s + 1 /\
      exists ele, sliver_elements p t min_dh_bound max_dh_bound = Ok ele /\ ele <> []
  end.
Proof.
  unfold body, sliver_body, retriangulate. intros H.
  apply bind_Ok_inv in H as ([[dt p] t] & Hr & H). lazy zeta in H. cbn [fst snd] in H.
  exists dt, p, t. split; [exact Hr|].
  destruct (Qeq_bool (inject_Z (ss_count s)) (max_iter - 1)); cbn [negb] in H.
  - apply bind_Ok_inv in H as (pt & _ & H). injection H as <-. reflexivity.
  - apply bind_Ok_inv in H as (ele & He & H).
    apply bind_Ok_inv in H as (move & Hm & H). lazy zeta in H.
    apply rmap_length in Hm.
    destruct (Nat.eqb_spec (length move) 0) as [E|E].
    + injection H as <-. split; [reflexivity|].
      rewrite E in Hm. destruct ele; [|discriminate].
      split; [exact He|]. destruct (fix_mesh p t dim); reflexivity.
    + apply bind_Ok_inv in H as (p1 & _ & H). injection H as <-.
      split; [reflexivity|]. split; [reflexivity|].
      exists ele. split; [exact He|]. intros ->. simpl in Hm. lia.
Qed.

Lemma sliver_iterates_loop n s s' fuel :
  sliver_iterates n s s' -> loop (n + fuel) s = loop fuel s'.
Proof.
  induction 1 as [s|n s s1 s2 Hb _ IH]; [reflexivity|].
  simpl. unfold loop in *. cbn [sliver_loop]. rewrite Hb.
  cbn [mbind result_bind]. exact IH.
Qed.

Lemma sliver_iterates_count n s s' :
  sliver_iterates n s s' -> ss_count s' = ss_count s + Z.of_nat n.
Proof.
  induction 1 as [s|n s s1 s2 Hb _ IH]; [simpl; lia|].
  apply sliver_body_inv in Hb as (dt & p & t & _ & _ & Hc & _). lia.
Qed.

Lemma sliver_iterates_before n k s s_c s_k :
  sliver_iterates n s s_c -> (k < n)%nat -> sliver_iterates k s s_k ->
  exists s', body s_k = Ok (SContinue s').
Proof.
  intros Hn. revert k s_k.
  induction Hn as [s|n s s1 s2 Hb _ IH]; intros k s_k Hk Hks; [lia|].
  inversion Hks as [s0|k' s0 s1' s2' Hb' Hks']; subst.
  - exists s1. exact Hb.
  - rewrite Hb in Hb'. injection Hb' as <-.
    apply (IH k'); [lia|exact Hks'].
Qed.

Lemma sliver_loop_inv fuel s ex c p' t' :
  loop fuel s = Ok (ex, c, p', t') ->
  exists n s_c, (n < fuel)%nat /\ sliver_iterates n s s_c /\ ss_count s_c = c /\
                body s_c = Ok (SReturn ex p' t').
Proof.
  unfold loop. revert s.
  induction fuel as [|fuel IH]; intros s H; [discriminate|].
  cbn [sliver_loop] in H. fold body in H.
  apply bind_Ok_inv in H as (r & Hb & H).
  destruct r as [s1|ex1 p1 t1].
  - apply IH in H as (n & s_c & Hn & Hit & Hc & Hr).
    exists (S n), s_c. split; [lia|]. split; [|split; assumption].
    econstructor; eassumption.
  - injection H as <- <- <- <-.
    exists 0%nat, s. split; [lia|]. split; [constructor|]. split; [reflexivity|exact Hb].
Qed.


End SliverLoopProps.

(** * Further properties *)

(** ** Merging two bounding boxes *)

Lemma minmax_from_floats (xs ys : list Q) (i : nat) :
  exists ds,
    _minmax_from i (zip (map PyFloat xs) (map PyFloat ys)) = Ok (map PyFloat ds)
    /\ length ds = Nat.min (length xs) (length ys)
    /\ forall k x y d,
         xs !! k = Some x -> ys !! k = Some y -> ds !! k = Some d ->
         (d = x \/ d = y) /\
         if Nat.odd (i + k) then (x <= d)%Q /\ (y <= d)%Q
         else (d <= x)%Q /\ (d <= y)%Q.
Proof.
  revert ys i. induction xs as [|x xs IH]; intros ys i.
  - exists []. simpl. repeat split; intros; discriminate.
  - destruct ys as [|y ys].
    + exists []. simpl. repeat split; intros; discriminate.
    + destruct (IH ys (S i)) as (ds & E & Hlen & Hds).
      simpl. rewrite E. unfold py_max, py_min. simpl.
      destruct (Nat.odd i) eqn:Ei.
      * exists ((if Qltb x y then y else x) :: ds). split; [|split].
        -- destruct (Qltb x y); reflexivity.
        -- simpl. rewrite Hlen. reflexivity.
        -- intros [|k] x' y' d Hx Hy Hd; simpl in *.
           ++ injection Hx as <-. injection Hy as <-. injection Hd as <-.
              rewrite Nat.add_0_r, Ei.
              destruct (Qltb x y) eqn:E'.
              ** apply Qltb_lt in E'. split; [right; reflexivity|].
                 split; [apply Qlt_le_weak; exact E'|apply Qle_refl].
              ** apply Qltb_ge in E'. split; [left; reflexivity|].
                 split; [apply Qle_refl|exact E'].
           ++ replace (i + S k)%nat with (S i + k)%nat by lia.
              apply (Hds k); assumption.
      * exists ((if Qltb y x then y else x) :: ds). split; [|split].
        -- destruct (Qltb y x); reflexivity.
        -- simpl. rewrite Hlen. reflexivity.
        -- intros [|k] x' y' d Hx Hy Hd; simpl in *.
           ++ injection Hx as <-. injection Hy as <-. injection Hd as <-.
              rewrite Nat.add_0_r, Ei.
              destruct (Qltb y x) eqn:E'.
              ** apply Qltb_lt in E'. split; [right; reflexivity|].
                 split; [apply Qlt_le_weak; exact E'|apply Qle_refl].
              ** apply Qltb_ge in E'. split; [left; reflexivity|].
                 split; [apply Qle_refl|exact E'].
           ++ replace (i + S k)%nat with (S i + k)%nat by lia.
              apply (Hds k); assumption.
Qed.

(** X1.  The box [_minmax] builds from two boxes of floats encloses both:
    it is a tuple as long as the shorter box, each entry is one of the two
    entries at its place, an entry at an even place (a lower bound) is the
    smaller of the two and an entry at an odd place (an upper bound) the
    larger. *)
Theorem minmax_encloses_both_boxes (xs ys : list Q) :
  exists ds,
    _minmax (PyTuple (map PyFloat xs)) (PyTuple (map PyFloat ys))
    = Ok (PyTuple (map PyFloat ds))
    /\ length ds = Nat.min (length xs) (length ys)
    /\ forall k x y d,
         xs !! k = Some x -> ys !! k = Some y -> ds !! k = Some d ->
         (d = x \/ d = y) /\
         if Nat.odd k then (x <= d)%Q /\ (y <= d)%Q
         else (d <= x)%Q /\ (d <= y)%Q.
Proof.
  destruct (minmax_from_floats xs ys 0) as (ds & E & Hlen & Hds).
  exists ds. unfold _minmax. simpl. rewrite E. simpl.
  repeat split; try assumption; apply (Hds k x y d); assumption.
Qed.

(** ** The nearest vertex *)

Lemma argmin_from_spec (pre xs : list Q) (best : Q) (bi : nat) :
  pre !! bi = Some best ->
  (forall j x, pre !! j = Some x -> (best <= x)%Q /\ ((j < bi)%nat -> (best < x)%Q)) ->
  exists m,
    (pre ++ xs) !! argmin_from best bi (length pre) xs = Some m
    /\ forall j x, (pre ++ xs) !! j = Some x ->
         (m <= x)%Q /\ ((j < argmin_from best bi (length pre) xs)%nat -> (m < x)%Q).
Proof.
  revert pre best bi. induction xs as [|x xs IH]; intros pre best bi Hbi Hmin.
  - simpl. rewrite app_nil_r. exists best. split; [exact Hbi|exact Hmin].
  - simpl. replace (pre ++ x :: xs) with ((pre ++ [x]) ++ xs)
      by (rewrite <- app_assoc; reflexivity).
    replace (S (length pre)) with (length (pre ++ [x]))
      by (rewrite length_app; simpl; lia).
    destruct (Qltb x best) eqn:E.
    + apply Qltb_lt in E.
      apply (IH (pre ++ [x]) x (length pre)).
      * rewrite lookup_app_r by lia. rewrite Nat.sub_diag. reflexivity.
      * intros j y Hj.
        destruct (decide (j < length pre)%nat) as [Hlt|Hge].
        -- rewrite lookup_app_l in Hj by exact Hlt.
           destruct (Hmin j y Hj) as [H1 _].
           split; [|intros _]; [apply Qlt_le_weak|];
             apply Qlt_le_trans with best; assumption.
        -- rewrite lookup_app_r in Hj by lia.
           destruct (j - length pre)%nat eqn:Ej; simpl in Hj; [|discriminate].
           injection Hj as <-. split; [apply Qle_refl|lia].
    + apply Qltb_ge in E. apply IH.
      * rewrite lookup_app_l; [exact Hbi|].
        apply lookup_lt_Some in Hbi. exact Hbi.
      * intros j y Hj.
        destruct (decide (j < length pre)%nat) as [Hlt|Hge].
        -- rewrite lookup_app_l in Hj by exact Hlt. apply Hmin. exact Hj.
        -- rewrite lookup_app_r in Hj by lia.
           destruct (j - length pre)%nat eqn:Ej; simpl in Hj; [|discriminate].
           injection Hj as <-. split; [exact E|].
           apply lookup_lt_Some in Hbi. lia.
Qed.

(** [np.argmin] answers the first place of a least entry. *)
Lemma np_argmin_spec (xs : list Q) :
  xs <> [] ->
  exists i m,
    np_argmin xs = Ok i /\ xs !! i = Some m
    /\ forall j x, xs !! j = Some x -> (m <= x)%Q /\ ((j < i)%nat -> (m < x)%Q).
Proof.
  destruct xs as [|x xs]; [congruence|]. intros _.
  destruct (argmin_from_spec [x] xs x 0) as (m & Hm & Hall).
  - reflexivity.
  - intros [|j] y Hj; simpl in Hj; [|discriminate].
    injection Hj as <-. split; [apply Qle_refl|lia].
  - exists (argmin_from x 0 1 xs), m. simpl in *. repeat split; try assumption.
    + apply (Hall j x0 H).
    + apply (Hall j x0 H).
Qed.

(** X2.  [_closest_node] answers the number of a vertex nearest to [node],
    the first one among several at the same distance; without vertices it
    raises the [ValueError] of [np.argmin]. *)
Theorem closest_node_is_nearest (node n0 : point) (rest : list point) :
  _closest_node node []
  = Raise (ValueError "attempt to get argmin of an empty sequence" [])
  /\ exists i n,
       _closest_node node (n0 :: rest) = Ok i /\ (n0 :: rest) !! i = Some n
       /\ forall j x, (n0 :: rest) !! j = Some x ->
            (dist_2 node n <= dist_2 node x)%Q
            /\ ((j < i)%nat -> (dist_2 node n < dist_2 node x)%Q).
Proof.
  split; [reflexivity|].
  set (nodes := n0 :: rest).
  unfold _closest_node. rewrite map_map.
  destruct (np_argmin_spec (map (dist_2 node) nodes)) as (i & m & E & Hi & Hall).
  { discriminate. }
  change (map (fun x => qsum (zip_with Qmult (vsub x node) (vsub x node))) nodes)
    with (map (dist_2 node) nodes).
  rewrite lookup_map in Hi.
  destruct (nodes !! i) as [n|] eqn:En; [|discriminate].
  injection Hi as <-.
  exists i, n. split; [exact E|]. split; [exact En|].
  intros j x Hx. apply (Hall j). rewrite lookup_map, Hx. reflexivity.
Qed.

(** ** Assignment through an index list *)

Lemma scatter_length {A} (p : list A) (ix : list nat) (vals : list A) :
  length (scatter p ix vals) = length p.
Proof.
  unfold scatter. generalize (zip ix vals). intros l. revert p.
  induction l as [|[i v] l IH]; intros p; simpl; [reflexivity|].
  rewrite IH. apply length_insert.
Qed.

Lemma scatter_lookup_notin {A} (p : list A) (ix : list nat) (vals : list A) (i : nat) :
  ~ In i ix -> scatter p ix vals !! i = p !! i.
Proof.
  unfold scatter. revert p vals.
  induction ix as [|j ix IH]; intros p vals Hi; [reflexivity|].
  destruct vals as [|v vals]; [reflexivity|].
  simpl in *. rewrite IH by tauto.
  apply list_lookup_insert_ne. intros ->. tauto.
Qed.

Section Improve.

Context `{Ext : Externals}.

Lemma improve_step_frame dim p bid d fd deps p' :
  _improve_step dim p bid d fd deps = Ok p' ->
  length p' = length p /\ forall i, ~ In i bid -> p' !! i = p !! i.
Proof.
  unfold _improve_step. intros H.
  apply bind_Ok_inv in H as (pb & _ & H). injection H as <-.
  split; [apply scatter_length|].
  intros i Hi. apply scatter_lookup_notin. exact Hi.
Qed.

Lemma improve_loop_frame left dim p bid d fd deps tol p' :
  _improve_loop left dim p bid d fd deps tol = Ok p' ->
  length p' = length p /\ forall i, ~ In i bid -> p' !! i = p !! i.
Proof.
  revert p. induction left as [|left IH]; intros p H; simpl in H;
    apply bind_Ok_inv in H as (m & _ & H).
  - injection H as <-. split; [reflexivity|]. intros; reflexivity.
  - destruct (Qltb tol m).
    + apply bind_Ok_inv in H as (p1 & H1 & H).
      apply improve_step_frame in H1 as [L1 F1].
      apply IH in H as [L2 F2]. split; [congruence|].
      intros i Hi. rewrite F2, F1 by exact Hi. reflexivity.
    + injection H as <-. split; [reflexivity|]. intros; reflexivity.
Qed.

(** X3.  [_improve_level_set_newton] moves boundary vertices only: the
    array it returns has as many rows as [p], and every row whose number
    [geometry.get_boundary_vertices] does not list is the row of [p]. *)
Theorem improve_level_set_newton_moves_boundary_only
    (p : list point) (t : list cell) (fd : point -> Q) (deps tol : Q)
    (p' : list point) :
  _improve_level_set_newton p t fd deps tol = Ok p' ->
  length p' = length p
  /\ forall i, ~ In i (get_boundary_vertices t (shape1 p)) -> p' !! i = p !! i.
Proof.
  unfold _improve_level_set_newton. intros H.
  apply bind_Ok_inv in H as (pb & _ & H).
  exact (improve_loop_frame _ _ _ _ _ _ _ _ _ H).
Qed.

Lemma improve_loop_passes left dim p bid d fd deps tol m :
  np_amax (map Qabs d) = Ok m ->
  _improve_loop left dim p bid d fd deps tol
  = if Qltb tol m then improve_passes left dim p bid d fd deps else Ok p.
Proof.
  intros Hm. revert p. induction left as [|left IH]; intros p; simpl; rewrite Hm; simpl.
  - destruct (Qltb tol m); reflexivity.
  - destruct (Qltb tol m) eqn:E; [|reflexivity].
    destruct (_improve_step dim p bid d fd deps) as [p1| |]; simpl; try reflexivity.
    rewrite IH. reflexivity.
Qed.

(** X4.  The loop of [_improve_level_set_newton] tests a residual that is
    measured once, before the first pass: a mesh whose boundary vertices
    are all within [tol] of the level set is returned as it is, and any
    other gets exactly ten passes, each with the residual of the points it
    started from; the tolerance never ends the loop early.  With no
    boundary vertex the maximum of the empty residual raises. *)
Theorem improve_level_set_newton_zero_or_ten_passes
    (p : list point) (t : list cell) (fd : point -> Q) (deps tol : Q)
    (pb : list point) :
  let dim := shape1 p in
  let bid := get_boundary_vertices t dim in
  take_rows p bid = Ok pb ->
  (pb = [] -> exists e, _improve_level_set_newton p t fd deps tol = Raise (ValueError e []))
  /\ ((forall x, In x pb -> (Qabs (fd x) <= tol)%Q) -> pb <> [] ->
      _improve_level_set_newton p t fd deps tol = Ok p)
  /\ ((exists x, In x pb /\ (tol < Qabs (fd x))%Q) ->
      _improve_level_set_newton p t fd deps tol
      = improve_passes 10 dim p bid (map fd pb) fd deps).
Proof.
  intros dim bid Hpb.
  assert (E : _improve_level_set_newton p t fd deps tol
              = _improve_loop 10 dim p bid (map fd pb) fd deps tol).
  { unfold _improve_level_set_newton. fold dim. fold bid. rewrite Hpb. reflexivity. }
  rewrite E. clear E.
  split; [|split].
  - intros ->. simpl. eexists. reflexivity.
  - intros Hall Hne.
    destruct (np_amax (map Qabs (map fd pb))) as [m| |] eqn:Em.
    + rewrite (improve_loop_passes _ _ _ _ _ _ _ _ m Em).
      replace (Qltb tol m) with false; [reflexivity|].
      symmetry. apply Qltb_ge.
      destruct pb as [|x0 pb]; [congruence|]. simpl in Em. injection Em as <-.
      assert (G : forall (l : list Q) (a : Q),
                 (a <= tol)%Q -> (forall y, In y l -> (y <= tol)%Q) ->
                 (fold_left (fun m y => if Qltb m y then y else m) l a <= tol)%Q).
      { induction l as [|y l IHl]; intros a Ha Hl; simpl; [exact Ha|].
        apply IHl; [|intros z Hz; apply Hl; right; exact Hz].
        destruct (Qltb a y); [apply Hl; left; reflexivity|exact Ha]. }
      apply G; [apply Hall; left; reflexivity|].
      intros y Hy. rewrite map_map in Hy. apply in_map_iff in Hy as (x & <- & Hx).
      apply Hall. right. exact Hx.
    + destruct pb; [congruence|discriminate].
    + exfalso. exact (np_amax_fuel _ Em).
  - intros (x & Hx & Hlt).
    destruct (np_amax (map Qabs (map fd pb))) as [m| |] eqn:Em.
    + rewrite (improve_loop_passes _ _ _ _ _ _ _ _ m Em).
      replace (Qltb tol m) with true; [reflexivity|].
      symmetry. apply Qltb_lt. apply Qlt_le_trans with (Qabs (fd x)); [exact Hlt|].
      destruct pb as [|x0 pb]; [destruct Hx|]. simpl in Em. injection Em as <-.
      assert (G : forall (l : list Q) (a : Q),
                 (a <= fold_left (fun m y => if Qltb m y then y else m) l a)%Q
                 /\ forall y, In y l ->
                      (y <= fold_left (fun m y => if Qltb m y then y else m) l a)%Q).
      { induction l as [|y l IHl]; intros a; simpl.
        - split; [apply Qle_refl|tauto].
        - destruct (Qltb a y) eqn:E.
          + apply Qltb_lt in E. destruct (IHl y) as [H1 H2]. split.
            * apply Qle_trans with y; [apply Qlt_le_weak; exact E|exact H1].
            * intros z [<-|Hz]; [exact H1|apply H2; exact Hz].
          + apply Qltb_ge in E. destruct (IHl a) as [H1 H2]. split; [exact H1|].
            intros z [<-|Hz]; [apply Qle_trans with a; assumption|apply H2; exact Hz]. }
      destruct (G (map Qabs (map fd pb)) (Qabs (fd x0))) as [G1 G2].
      destruct Hx as [<-|Hx]; [exact G1|].
      apply G2. rewrite map_map. apply in_map_iff. exists x. split; [reflexivity|exact Hx].
    + destruct pb; [destruct Hx|discriminate].
    + exfalso. exact (np_amax_fuel _ Em).
Qed.

End Improve.

(** ** The perturbation of the slivers *)

Section Perturb.

Context `{Ext : Externals}.

(** X5.  The perturbation of [sliver_removal] moves the vertices listed in
    [move] only (the first vertex of every sliver): the array keeps its
    length and every other row is left as it is. *)
Theorem sliver_perturb_moves_listed_only
    (h0 : Q) (p : list point) (t : list cell) (ele_nums move : list nat)
    (p' : list point) :
  sliver_perturb h0 p t ele_nums move = Ok p' ->
  length p' = length p /\ forall i, ~ In i move -> p' !! i = p !! i.
Proof.
  unfold sliver_perturb. intros H.
  repeat (apply bind_Ok_inv in H as (? & _ & H)).
  injection H as <-.
  split; [apply scatter_length|].
  intros i Hi. apply scatter_lookup_notin. exact Hi.
Qed.

End Perturb.

(** ** The slivers of a mesh *)

Lemma mask_select_seq (mask : list bool) (s i : nat) :
  In i (mask_select mask (seq s (length mask)))
  <-> (s <= i)%nat /\ mask !! (i - s)%nat = Some true.
Proof.
  revert s. induction mask as [|b mask IH]; intros s; simpl.
  - split; [tauto|]. intros [_ H]. discriminate.
  - assert (Hrec : In i (mask_select mask (seq (S s) (length mask)))
                   <-> (s < i)%nat /\ mask !! (i - S s)%nat = Some true).
    { rewrite IH. split; intros [H1 H2]; (split; [lia|exact H2]). }
    destruct (decide (i = s)) as [->|Hne].
    + rewrite Nat.sub_diag. simpl.
      destruct b; simpl; rewrite ?Hrec;
        intuition (try lia; try discriminate; try reflexivity).
    + assert (E : (i - s)%nat = S (i - S s) \/ (i < s)%nat) by lia.
      destruct E as [E|E].
      * rewrite E. simpl. destruct b; simpl; rewrite Hrec;
          intuition (try lia; try discriminate; try reflexivity).
      * destruct b; simpl; rewrite Hrec;
          intuition (try lia; try discriminate; try reflexivity).
Qed.

(** [np.where] lists the places at which the mask holds. *)
Lemma np_where_spec (mask : list bool) (i : nat) :
  In i (np_where mask) <-> mask !! i = Some true.
Proof.
  unfold np_where. rewrite mask_select_seq, Nat.sub_0_r.
  split; [tauto|]. intros H. split; [lia|exact H].
Qed.

Lemma filter_seq_sorted (P : nat -> Prop) `{!forall i, Decision (P i)} (s n : nat) :
  StronglySorted lt (filter P (seq s n)).
Proof.
  revert s. induction n as [|n IH]; intros s; simpl; [constructor|].
  rewrite filter_cons. destruct (decide (P s)); [|apply IH].
  constructor; [apply IH|].
  apply List.Forall_forall. intros x Hx.
  apply list_elem_of_In, list_elem_of_filter in Hx as [_ Hx].
  apply list_elem_of_In, in_seq in Hx. lia.
Qed.

(** [np.unique] answers the members of its argument, in increasing order. *)
Lemma np_unique_spec (l : list nat) :
  StronglySorted lt (np_unique l) /\ forall e, In e (np_unique l) <-> In e l.
Proof.
  split; [apply filter_seq_sorted|].
  intros e. unfold np_unique.
  rewrite <- list_elem_of_In, list_elem_of_filter, list_elem_of_In, in_seq.
  split.
  - intros [H _]. apply Is_true_true, existsb_exists in H as (x & Hx & E).
    apply Nat.eqb_eq in E. subst x. exact Hx.
  - intros H. split.
    + apply Is_true_true, existsb_exists. exists e. split; [exact H|apply Nat.eqb_refl].
    + pose proof (le_fold_max e l H). lia.
Qed.

Section Slivers.

Context `{Ext : Externals}.

(** X6.  The elements [sliver_removal] flags are the cells one of whose six
    dihedral angles lies outside the bounds, each listed once and in
    increasing order. *)
Theorem sliver_elements_flags_out_of_bound_cells
    (p : list point) (t : list cell) (lo hi : Q) (es : list nat) :
  sliver_elements p t lo hi = Ok es ->
  exists dh,
    col (calc_dihedral_angles p t) 0 = Ok dh
    /\ StronglySorted lt es
    /\ forall e, In e es <->
         exists k a, (k < 6)%nat /\ dh !! (6 * e + k)%nat = Some a
                     /\ ((a < lo)%Q \/ (hi < a)%Q).
Proof.
  unfold sliver_elements. intros H.
  apply bind_Ok_inv in H as (dh & Hdh & H). lazy zeta in H. injection H as <-.
  exists dh. split; [exact Hdh|].
  destruct (np_unique_spec
              (map (fun i => (i / 6)%nat)
                   (np_where (map (fun a => Qltb a lo || Qltb hi a) dh))))
    as [Hs Hin].
  split; [exact Hs|].
  intros e. rewrite Hin, in_map_iff. split.
  - intros (i & Hi & Hw). apply np_where_spec in Hw.
    rewrite lookup_map in Hw.
    destruct (dh !! i) as [a|] eqn:Ea; [|discriminate].
    simpl in Hw. injection Hw as Hw.
    exists (i mod 6)%nat, a. split; [apply Nat.mod_upper_bound; lia|].
    split.
    + rewrite <- Hi, <- Nat.div_mod_eq. exact Ea.
    + apply orb_true_iff in Hw as [Hw|Hw]; apply Qltb_lt in Hw; tauto.
  - intros (k & a & Hk & Ha & Hb).
    exists (6 * e + k)%nat. split.
    + symmetry. apply (Nat.div_unique _ 6 e k); [exact Hk|reflexivity].
    + apply np_where_spec. rewrite lookup_map, Ha. simpl. f_equal.
      apply orb_true_iff. destruct Hb as [Hb|Hb]; apply Qltb_lt in Hb; tauto.
Qed.

End Slivers.

(** ** The bars of a mesh *)

Lemma lookup_nth_lt {A} (d : A) (l : list A) (i : nat) :
  (i < length l)%nat -> l !! i = Some (nth i l d).
Proof.
  intros Hi. destruct (l !! i) eqn:E.
  - apply nth_lookup_Some with (d := d) in E. congruence.
  - apply lookup_ge_None in E. lia.
Qed.

Lemma cols_pair {A} (d : A) (t : list (list A)) (i j w : nat) :
  Forall (fun c => length c = w) t -> (i < w)%nat -> (j < w)%nat ->
  cols t [i; j] = Ok (map (fun c => [nth i c d; nth j c d]) t).
Proof.
  intros Ht Hi Hj. unfold cols. apply rmap_ok.
  eapply Forall_impl; [exact Ht|]. simpl. intros c Hc.
  rewrite (take_rows_ok d); [reflexivity|].
  repeat constructor; lia.
Qed.

Lemma cols_sides (t : list cell) (i j w : nat) :
  Forall (fun c => length c = w) t -> (i < w)%nat -> (j < w)%nat ->
  cols t [i; j] = Ok (sides t i j).
Proof. apply (cols_pair 0%nat). Qed.

Lemma sides_in (t : list cell) (i j w : nat) (e : list nat) :
  Forall (fun c => length c = w) t -> (i < w)%nat -> (j < w)%nat ->
  In e (sides t i j) ->
  exists c a b, In c t /\ c !! i = Some a /\ c !! j = Some b /\ e = [a; b].
Proof.
  intros Ht Hi Hj He. apply in_map_iff in He as (c & <- & Hc).
  rewrite List.Forall_forall in Ht. specialize (Ht c Hc).
  exists c, (nth i c 0%nat), (nth j c 0%nat).
  split; [exact Hc|]. split; [apply lookup_nth_lt; lia|].
  split; [apply lookup_nth_lt; lia|reflexivity].
Qed.

Lemma in_sides (t : list cell) (c : list nat) (i j a b : nat) :
  In c t -> c !! i = Some a -> c !! j = Some b -> In [a; b] (sides t i j).
Proof.
  intros Hc Ha Hb. apply in_map_iff. exists c. split; [|exact Hc].
  rewrite (nth_lookup_Some c i 0%nat a Ha), (nth_lookup_Some c j 0%nat b Hb).
  reflexivity.
Qed.

Section Edges.

Context `{Ext : Externals}.

Lemma get_edges_triangles (t : list cell) :
  Forall (fun c => length c = 3%nat) t ->
  _get_edges t = Ok (unique_edges (sides t 0 1 ++ sides t 1 2 ++ sides t 2 0)).
Proof.
  intros Ht. unfold _get_edges.
  rewrite (cols_sides t 0 1 3), (cols_sides t 1 2 3), (cols_sides t 2 0 3) by (exact Ht || lia).
  cbn [mbind result_bind].
  replace (Nat.eqb (length (hd [] t)) 4) with false; [reflexivity|].
  destruct t as [|c t']; [reflexivity|].
  apply Forall_cons in Ht as [Hc _]. cbn [hd]. rewrite Hc. reflexivity.
Qed.

Lemma get_edges_tetrahedra (t : list cell) :
  Forall (fun c => length c = 4%nat) t ->
  _get_edges t
  = Ok (unique_edges ((sides t 0 1 ++ sides t 1 2 ++ sides t 2 0)
                      ++ sides t 0 3 ++ sides t 1 3 ++ sides t 2 3)).
Proof.
  intros Ht. unfold _get_edges.
  rewrite (cols_sides t 0 1 4), (cols_sides t 1 2 4), (cols_sides t 2 0 4) by (exact Ht || lia).
  rewrite (cols_sides t 0 3 4), (cols_sides t 1 3 4), (cols_sides t 2 3 4) by (exact Ht || lia).
  cbn [mbind result_bind].
  destruct t as [|c t']; [reflexivity|].
  apply Forall_cons in Ht as [Hc _]. cbn [hd]. rewrite Hc. reflexivity.
Qed.

(** X7.  The bars of a mesh of triangles or of tetrahedra are the sides of
    its cells: what [_get_edges] hands to [geometry.unique_edges] holds
    three pairs for every triangle and six for every tetrahedron, every
    pair joins two different corners of one cell, and every two different
    corners of a cell are joined by a pair, in one direction or the
    other. *)
Theorem get_edges_are_the_sides_of_the_cells (t : list cell) (w : nat) :
  w = 3%nat \/ w = 4%nat ->
  Forall (fun c => length c = w) t ->
  exists edges,
    _get_edges t = Ok (unique_edges edges)
    /\ length edges = (w * (w - 1) / 2 * length t)%nat
    /\ (forall e, In e edges ->
          exists c i j a b,
            In c t /\ i <> j /\ c !! i = Some a /\ c !! j = Some b /\ e = [a; b])
    /\ (forall c i j a b,
          In c t -> i <> j -> c !! i = Some a -> c !! j = Some b ->
          In [a; b] edges \/ In [b; a] edges).
Proof.
  intros Hw Ht.
  assert (Hin : forall i j e, (i < w)%nat -> (j < w)%nat -> i <> j ->
            In e (sides t i j) ->
            exists c i j a b,
              In c t /\ i <> j /\ c !! i = Some a /\ c !! j = Some b /\ e = [a; b]).
  { intros i j e Hi Hj Hij He.
    destruct (sides_in t i j w e Ht Hi Hj He) as (c & a & b & Hc & Ha & Hb & E).
    exists c, i, j, a, b. auto. }
  assert (Hlen : forall i j, length (sides t i j) = length t).
  { intros i j. apply length_map. }
  destruct Hw as [Hw|Hw]; subst w.
  - exists (sides t 0 1 ++ sides t 1 2 ++ sides t 2 0).
    split; [exact (get_edges_triangles t Ht)|].
    split; [rewrite !length_app, !Hlen; change (3 * (3 - 1) / 2)%nat with 3%nat; lia|].
    split.
    + intros e He.
      apply in_app_or in He as [He|He]; [apply (Hin 0 1 e)%nat; (lia || exact He)|].
      apply in_app_or in He as [He|He]; [apply (Hin 1 2 e)%nat; (lia || exact He)|].
      apply (Hin 2 0 e)%nat; (lia || exact He).
    + intros c i j a b Hc Hij Ha Hb.
      rewrite List.Forall_forall in Ht. specialize (Ht c Hc).
      pose proof (lookup_lt_Some _ _ _ Ha) as Hi.
      pose proof (lookup_lt_Some _ _ _ Hb) as Hj.
      rewrite Ht in Hi, Hj.
      destruct i as [|[|[|i]]]; [| | |lia];
        (destruct j as [|[|[|j]]]; [| | |lia]; try congruence).
      * left. apply in_or_app. left. exact (in_sides t c _ _ _ _ Hc Ha Hb).
      * right. do 2 (apply in_or_app; right). exact (in_sides t c _ _ _ _ Hc Hb Ha).
      * right. apply in_or_app. left. exact (in_sides t c _ _ _ _ Hc Hb Ha).
      * left. apply in_or_app. right. apply in_or_app. left.
        exact (in_sides t c _ _ _ _ Hc Ha Hb).
      * left. do 2 (apply in_or_app; right). exact (in_sides t c _ _ _ _ Hc Ha Hb).
      * right. apply in_or_app. right. apply in_or_app. left.
        exact (in_sides t c _ _ _ _ Hc Hb Ha).
  - exists ((sides t 0 1 ++ sides t 1 2 ++ sides t 2 0)
            ++ sides t 0 3 ++ sides t 1 3 ++ sides t 2 3).
    split; [exact (get_edges_tetrahedra t Ht)|].
    split; [rewrite !length_app, !Hlen; change (4 * (4 - 1) / 2)%nat with 6%nat; lia|].
    split.
    + intros e He.
      apply in_app_or in He as [He|He].
      * apply in_app_or in He as [He|He]; [apply (Hin 0 1 e)%nat; (lia || exact He)|].
        apply in_app_or in He as [He|He]; [apply (Hin 1 2 e)%nat; (lia || exact He)|].
        apply (Hin 2 0 e)%nat; (lia || exact He).
      * apply in_app_or in He as [He|He]; [apply (Hin 0 3 e)%nat; (lia || exact He)|].
        apply in_app_or in He as [He|He]; [apply (Hin 1 3 e)%nat; (lia || exact He)|].
        apply (Hin 2 3 e)%nat; (lia || exact He).
    + intros c i j a b Hc Hij Ha Hb.
      rewrite List.Forall_forall in Ht. specialize (Ht c Hc).
      pose proof (lookup_lt_Some _ _ _ Ha) as Hi.
      pose proof (lookup_lt_Some _ _ _ Hb) as Hj.
      rewrite Ht in Hi, Hj.
      assert (L1 : forall e, In e (sides t 0 1) \/ In e (sides t 1 2) \/ In e (sides t 2 0)
                             \/ In e (sides t 0 3) \/ In e (sides t 1 3)
                             \/ In e (sides t 2 3) ->
                   In e ((sides t 0 1 ++ sides t 1 2 ++ sides t 2 0)
                         ++ sides t 0 3 ++ sides t 1 3 ++ sides t 2 3)).
      { intros e He. rewrite !in_app_iff. tauto. }
      destruct i as [|[|[|[|i]]]]; [| | | |lia];
        (destruct j as [|[|[|[|j]]]]; [| | | |lia]; try congruence).
      * left. apply L1. left. exact (in_sides t c _ _ _ _ Hc Ha Hb).
      * right. apply L1. do 2 right. left. exact (in_sides t c _ _ _ _ Hc Hb Ha).
      * left. apply L1. do 3 right. left. exact (in_sides t c _ _ _ _ Hc Ha Hb).
      * right. apply L1. left. exact (in_sides t c _ _ _ _ Hc Hb Ha).
      * left. apply L1. right. left. exact (in_sides t c _ _ _ _ Hc Ha Hb).
      * left. apply L1. do 4 right. left. exact (in_sides t c _ _ _ _ Hc Ha Hb).
      * left. apply L1. do 2 right. left. exact (in_sides t c _ _ _ _ Hc Ha Hb).
      * right. apply L1. right. left. exact (in_sides t c _ _ _ _ Hc Hb Ha).
      * left. apply L1. do 5 right. exact (in_sides t c _ _ _ _ Hc Ha Hb).
      * right. apply L1. do 3 right. left. exact (in_sides t c _ _ _ _ Hc Hb Ha).
      * right. apply L1. do 4 right. left. exact (in_sides t c _ _ _ _ Hc Hb Ha).
      * right. apply L1. do 5 right. exact (in_sides t c _ _ _ _ Hc Hb Ha).
Qed.

End Edges.

(** ** Extrema *)

Lemma np_amin_spec (x : Q) (xs : list Q) :
  exists m, np_amin (x :: xs) = Ok m /\ In m (x :: xs)
            /\ forall y, In y (x :: xs) -> (m <= y)%Q.
Proof.
  simpl np_amin. eexists. split; [reflexivity|].
  revert x. induction xs as [|y xs IH]; intros x; simpl.
  - split; [left; reflexivity|]. intros y [<-|[]]. apply Qle_refl.
  - destruct (Qltb y x) eqn:E.
    + apply Qltb_lt in E. destruct (IH y) as [H1 H2]. split.
      * right. exact H1.
      * intros z [<-|Hz]; [|apply H2; exact Hz].
        apply Qle_trans with y; [apply H2; left; reflexivity|apply Qlt_le_weak; exact E].
    + apply Qltb_ge in E. destruct (IH x) as [H1 H2]. split.
      * destruct H1 as [H1|H1]; [left; exact H1|right; right; exact H1].
      * intros z [<-|[<-|Hz]].
        -- apply H2. left. reflexivity.
        -- apply Qle_trans with x; [apply H2; left; reflexivity|exact E].
        -- apply H2. right. exact Hz.
Qed.

Lemma np_amax_spec (x : Q) (xs : list Q) :
  exists m, np_amax (x :: xs) = Ok m /\ In m (x :: xs)
            /\ forall y, In y (x :: xs) -> (y <= m)%Q.
Proof.
  simpl np_amax. eexists. split; [reflexivity|].
  revert x. induction xs as [|y xs IH]; intros x; simpl.
  - split; [left; reflexivity|]. intros y [<-|[]]. apply Qle_refl.
  - destruct (Qltb x y) eqn:E.
    + apply Qltb_lt in E. destruct (IH y) as [H1 H2]. split.
      * right. exact H1.
      * intros z [<-|Hz]; [|apply H2; exact Hz].
        apply Qle_trans with y; [apply Qlt_le_weak; exact E|apply H2; left; reflexivity].
    + apply Qltb_ge in E. destruct (IH x) as [H1 H2]. split.
      * destruct H1 as [H1|H1]; [left; exact H1|right; right; exact H1].
      * intros z [<-|[<-|Hz]].
        -- apply H2. left. reflexivity.
        -- apply Qle_trans with x; [exact E|apply H2; left; reflexivity].
        -- apply H2. right. exact Hz.
Qed.

Section Extents.

Context `{Ext : Externals}.

Lemma col_min_spec (p : list point) (k : nat) :
  p <> [] ->
  np_amin (map (fun x => nth k x 0%Q) p) = Ok (col_min p k)
  /\ (exists x, In x p /\ nth k x 0%Q = col_min p k)
  /\ forall x, In x p -> (col_min p k <= nth k x 0)%Q.
Proof.
  intros Hp. destruct p as [|x0 p]; [congruence|]. unfold col_min.
  destruct (np_amin_spec (nth k x0 0%Q) (map (fun x => nth k x 0%Q) p)) as (m & E & Hin & Hle).
  change (map (fun x => nth k x 0%Q) (x0 :: p))
    with (nth k x0 0%Q :: map (fun x => nth k x 0%Q) p).
  rewrite E. split; [reflexivity|]. split.
  - change (In m (map (fun x => nth k x 0%Q) (x0 :: p))) in Hin.
    apply in_map_iff in Hin as (x & Hx & Hin). exists x. split; assumption.
  - intros x Hx. apply Hle.
    exact (in_map (fun x => nth k x 0%Q) (x0 :: p) x Hx).
Qed.

Lemma col_max_spec (p : list point) (k : nat) :
  p <> [] ->
  np_amax (map (fun x => nth k x 0%Q) p) = Ok (col_max p k)
  /\ (exists x, In x p /\ nth k x 0%Q = col_max p k)
  /\ forall x, In x p -> (nth k x 0 <= col_max p k)%Q.
Proof.
  intros Hp. destruct p as [|x0 p]; [congruence|]. unfold col_max.
  destruct (np_amax_spec (nth k x0 0%Q) (map (fun x => nth k x 0%Q) p)) as (m & E & Hin & Hle).
  change (map (fun x => nth k x 0%Q) (x0 :: p))
    with (nth k x0 0%Q :: map (fun x => nth k x 0%Q) p).
  rewrite E. split; [reflexivity|]. split.
  - change (In m (map (fun x => nth k x 0%Q) (x0 :: p))) in Hin.
    apply in_map_iff in Hin as (x & Hx & Hin). exists x. split; assumption.
  - intros x Hx. apply Hle.
    exact (in_map (fun x => nth k x 0%Q) (x0 :: p) x Hx).
Qed.

Lemma amin0_ok (p : list point) :
  p <> [] -> amin0 p = Ok (map (col_min p) (seq 0 (shape1 p))).
Proof.
  intros Hp. unfold amin0.
  assert (E : exists m, np_amin (map (fun _ => 0%Q) p) = Ok m).
  { destruct p; [congruence|]. eexists. reflexivity. }
  destruct E as [m ->]. cbn [mbind result_bind].
  apply rmap_ok. apply List.Forall_forall. intros k _.
  apply col_min_spec. exact Hp.
Qed.

Lemma amax0_ok (p : list point) :
  p <> [] -> amax0 p = Ok (map (col_max p) (seq 0 (shape1 p))).
Proof.
  intros Hp. unfold amax0.
  assert (E : exists m, np_amax (map (fun _ => 0%Q) p) = Ok m).
  { destruct p; [congruence|]. eexists. reflexivity. }
  destruct E as [m ->]. cbn [mbind result_bind].
  apply rmap_ok. apply List.Forall_forall. intros k _.
  apply col_max_spec. exact Hp.
Qed.

Lemma py_index_nat (len : nat) (a : Z) :
  0 <= a < Z.of_nat len -> py_index len a = Ok (Z.to_nat a).
Proof.
  intros H. unfold py_index.
  replace (0 <=? a) with true by (symmetry; apply Z.leb_le; lia).
  replace (a <? Z.of_nat len) with true by (symmetry; apply Z.ltb_lt; lia).
  reflexivity.
Qed.

Lemma py_index_out (len : nat) (a : Z) :
  Z.of_nat len <= a -> py_index len a = Raise IndexError.
Proof.
  intros H. unfold py_index.
  replace (a <? Z.of_nat len) with false by (symmetry; apply Z.ltb_ge; lia).
  replace (a <? 0) with false by (symmetry; apply Z.ltb_ge; lia).
  rewrite !andb_false_r. reflexivity.
Qed.

(** X8.  On several ranks, [_form_extents] answers one box per rank, each
    the broadcast of the calling rank's own: the bounding box of its
    points (the least coordinates followed by the greatest), made wider by
    [h0] on both sides along the decomposition axis [opts["axis"]].  An
    axis that is not below the dimension raises an [IndexError]. *)
Theorem form_extents_is_the_widened_bounding_box
    (p : list point) (h0 : Q) (comm : comm_t) (w : world) (a : Z) :
  (1 < size comm)%nat ->
  w_opts w !! "axis" = Some (PyInt a) ->
  p <> [] ->
  (0 <= a < Z.of_nat (shape1 p) ->
   exists ext,
     _form_extents p h0 comm w
     = (Ok (map (fun r => bcast comm ext r) (seq 0 (size comm))), w)
     /\ length ext = (2 * shape1 p)%nat
     /\ forall k, (k < shape1 p)%nat ->
          exists l h,
            ext !! k = Some l /\ ext !! (shape1 p + k)%nat = Some h
            /\ (l == col_min p k - (if decide (k = Z.to_nat a) then h0 else 0))%Q
            /\ (h == col_max p k + (if decide (k = Z.to_nat a) then h0 else 0))%Q
            /\ forall x, In x p ->
                 (col_min p k <= nth k x 0)%Q /\ (nth k x 0 <= col_max p k)%Q)
  /\ (Z.of_nat (shape1 p) <= a ->
      _form_extents p h0 comm w = (Raise IndexError, w)).
Proof.
  intros Hs Hax Hp.
  assert (E0 : forall B (k : pyval -> M B),
             (opt "axis" ≫= k) w = k (PyInt a) w).
  { intros B k. rewrite bind_opt. unfold getitem. rewrite Hax. reflexivity. }
  apply Nat.ltb_lt in Hs.
  set (dim := shape1 p).
  set (lo := map (col_min p) (seq 0 dim)).
  set (hi := map (col_max p) (seq 0 dim)).
  assert (Hlo : length lo = dim) by (unfold lo; rewrite length_map, length_seq; reflexivity).
  assert (Hhi : length hi = dim) by (unfold hi; rewrite length_map, length_seq; reflexivity).
  assert (Llo : forall k, (k < dim)%nat -> lo !! k = Some (col_min p k)).
  { intros k Hk. unfold lo. rewrite lookup_map, lookup_seq_lt by exact Hk. reflexivity. }
  assert (Lhi : forall k, (k < dim)%nat -> hi !! k = Some (col_max p k)).
  { intros k Hk. unfold hi. rewrite lookup_map, lookup_seq_lt by exact Hk. reflexivity. }
  split.
  - intros Ha.
    set (i := Z.to_nat a).
    assert (Hi : (i < dim)%nat) by (unfold i; lia).
    set (ext1 := <[i := (nth i (lo ++ hi) 0 - h0)%Q]> (lo ++ hi)).
    set (ext := <[(i + dim)%nat := (nth (i + dim) ext1 0 + h0)%Q]> ext1).
    exists ext.
    assert (L1 : length ext1 = (2 * dim)%nat).
    { unfold ext1. rewrite length_insert, length_app. lia. }
    split; [|split].
    + unfold _form_extents. rewrite E0, Hs. fold dim.
      rewrite bind_lift, (amin0_ok p Hp). fold dim. fold lo.
      rewrite bind_lift, (amax0_ok p Hp). fold dim. fold hi.
      rewrite bind_lift. simpl py_int. cbv iota beta.
      rewrite bind_lift, py_index_nat by (rewrite length_app; lia).
      fold i. cbv zeta. fold ext1.
      rewrite bind_lift, py_index_nat by (rewrite L1; lia).
      replace (Z.to_nat (a + Z.of_nat dim)) with (i + dim)%nat by (unfold i; lia).
      fold ext. reflexivity.
    + unfold ext. rewrite length_insert. exact L1.
    + intros k Hk.
      assert (N1 : nth i (lo ++ hi) 0%Q = col_min p i).
      { apply nth_lookup_Some. rewrite lookup_app_l by lia. apply Llo. exact Hi. }
      assert (N2 : nth (i + dim) ext1 0%Q = col_max p i).
      { apply nth_lookup_Some. unfold ext1.
        rewrite list_lookup_insert_ne by lia.
        rewrite lookup_app_r by lia.
        replace (i + dim - length lo)%nat with i by lia. apply Lhi. exact Hi. }
      destruct (decide (k = i)) as [->|Hne].
      * exists (col_min p i - h0)%Q, (col_max p i + h0)%Q.
        split; [|split; [|split; [|split]]].
        -- unfold ext. rewrite list_lookup_insert_ne by lia.
           unfold ext1. rewrite N1.
           apply list_lookup_insert_eq. rewrite length_app. lia.
        -- unfold ext. rewrite N2.
           replace (dim + i)%nat with (i + dim)%nat by lia.
           apply list_lookup_insert_eq. rewrite L1. lia.
        -- reflexivity.
        -- reflexivity.
        -- intros x Hx. split.
           ++ apply (col_min_spec p i Hp). exact Hx.
           ++ apply (col_max_spec p i Hp). exact Hx.
      * exists (col_min p k), (col_max p k).
        split; [|split; [|split; [|split]]].
        -- unfold ext. rewrite list_lookup_insert_ne by lia.
           unfold ext1. rewrite list_lookup_insert_ne by lia.
           rewrite lookup_app_l by lia. apply Llo. exact Hk.
        -- unfold ext. rewrite list_lookup_insert_ne by lia.
           unfold ext1. rewrite list_lookup_insert_ne by lia.
           rewrite lookup_app_r by lia.
           replace (dim + k - length lo)%nat with k by lia. apply Lhi. exact Hk.
        -- unfold Qminus. rewrite Qplus_0_r. reflexivity.
        -- rewrite Qplus_0_r. reflexivity.
        -- intros x Hx. split.
           ++ apply (col_min_spec p k Hp). exact Hx.
           ++ apply (col_max_spec p k Hp). exact Hx.
  - intros Ha.
    unfold _form_extents. rewrite E0, Hs. fold dim.
    rewrite bind_lift, (amin0_ok p Hp). fold dim. fold lo.
    rewrite bind_lift, (amax0_ok p Hp). fold dim. fold hi.
    rewrite bind_lift. simpl py_int. cbv iota beta.
    rewrite bind_lift.
    destruct (Z_lt_le_dec a (Z.of_nat (length (lo ++ hi)))) as [Hlt|Hge].
    + rewrite py_index_nat by lia. cbv zeta.
      rewrite bind_lift, py_index_out; [reflexivity|].
      rewrite length_insert, length_app. lia.
    + rewrite py_index_out by exact Hge. reflexivity.
Qed.

End Extents.

(** ** The initial points *)

Lemma Mbind_Ok_inv {A B} (m : M A) (k : A -> M B) (w w' : world) (b : B) :
  (m ≫= k) w = (Ok b, w') ->
  exists a w1, m w = (Ok a, w1) /\ k a w1 = (Ok b, w').
Proof.
  unfold mbind, M_bind. destruct (m w) as [[a|e|] w1]; try discriminate.
  intros H. exists a, w1. split; [reflexivity|exact H].
Qed.

Lemma lift_Ok_inv {A} (r : result A) (w w' : world) (a : A) :
  lift r w = (Ok a, w') -> r = Ok a /\ w' = w.
Proof. unfold lift. intros H. injection H as -> ->. split; reflexivity. Qed.

Lemma mask_select_sublist {A} (mask : list bool) (xs : list A) :
  sublist (mask_select mask xs) xs.
Proof.
  revert xs. induction mask as [|b mask IH]; intros [|x xs]; simpl;
    try apply sublist_nil_l.
  destruct b; [apply sublist_skip|apply sublist_cons]; apply IH.
Qed.

Lemma filter_bool_sublist {A} (f : A -> bool) (xs : list A) :
  sublist (List.filter f xs) xs.
Proof.
  induction xs as [|x xs IH]; simpl; [constructor|].
  destruct (f x); [apply sublist_skip|apply sublist_cons]; exact IH.
Qed.

Lemma mask_select_lookup {A} (mask : list bool) (xs : list A) (k : nat) (x : A) :
  mask !! k = Some true -> xs !! k = Some x -> In x (mask_select mask xs).
Proof.
  revert xs k. induction mask as [|b mask IH]; intros [|y xs] [|k] Hm Hx;
    simpl in *; try discriminate.
  - injection Hm as ->. injection Hx as ->. left. reflexivity.
  - destruct b; [right|]; apply (IH xs k); assumption.
Qed.

Lemma np_amin_nonempty (xs : list Q) :
  xs <> [] ->
  exists m, np_amin xs = Ok m /\ In m xs /\ forall y, In y xs -> (m <= y)%Q.
Proof. destruct xs as [|x xs]; [congruence|]. intros _. apply np_amin_spec. Qed.

Section InitialPoints.

Context `{Ext : Externals}.

Lemma generate_initial_points_unfold h0 geps dim bbox fh fd pfix comm o w :
  (size comm <= 1)%nat ->
  _generate_initial_points h0 geps dim bbox fh fd pfix comm o w
  = (let p := candidates h0 geps dim bbox fd in
     let r0 := map fh p in
     r0m ← lift (np_amin r0);
     seed ← lift (getitem o "seed");
     _ ← put_rng (np_random_seed seed);
     g ← get_rng;
     let ug := np_random_rand g (length p) in
     _ ← put_rng ug.2;
     let keep := zip_with (fun u r => Qltb u (qpow r0m dim / qpow r dim)%Q) ug.1 r0 in
     let p := pfix ++ mask_select keep p in
     extents ← _form_extents p h0 comm;
     mret (fh, p, extents)) w.
Proof.
  intros Hs. unfold _generate_initial_points, candidates.
  replace (Nat.ltb 1 (size comm)) with false by (symmetry; apply Nat.ltb_ge; exact Hs).
  unfold mbind at 1, M_bind at 1, mret at 1, M_ret at 1. cbv zeta. cbn [fst snd].
  rewrite map_map, mask_select_map. reflexivity.
Qed.

Lemma frame_form_extents_serial (p : list point) (h0 : Q) (comm : comm_t) :
  (size comm <= 1)%nat -> frame (_form_extents p h0 comm).
Proof.
  intros Hs w0. unfold _form_extents.
  replace (Nat.ltb 1 (size comm)) with false by (symmetry; apply Nat.ltb_ge; exact Hs).
  rewrite bind_opt. destruct (getitem (w_opts w0) "axis"); reflexivity.
Qed.

(** X9.  On one rank, the point set [_generate_initial_points] answers is
    the fixed points followed by points of the staggered grid, in the
    order of the grid, each with [fd < geps]; the sizing function is
    handed back as it came.  The call leaves numpy's global generator
    reseeded with [opts["seed"]] and advanced by one draw per candidate,
    whatever its state was. *)
Theorem generate_initial_points_are_fixed_then_interior
    (h0 geps : Q) (dim : nat) (bbox : list point) (fh fd : point -> Q)
    (pfix : list point) (comm : comm_t) (o : gmap string pyval) (w w' : world)
    (fh' : point -> Q) (p : list point) (extents : list (list Q)) :
  (size comm <= 1)%nat ->
  _generate_initial_points h0 geps dim bbox fh fd pfix comm o w
  = (Ok (fh', p, extents), w') ->
  fh' = fh
  /\ (exists q, p = pfix ++ q
        /\ sublist q (create_staggered_grid h0 dim bbox)
        /\ forall x, In x q -> (fd x < geps)%Q)
  /\ (exists seed, o !! "seed" = Some seed
        /\ w_rng w' = (np_random_rand (np_random_seed seed)
                         (length (candidates h0 geps dim bbox fd))).2)
  /\ w_opts w' = w_opts w.
Proof.
  intros Hs H. rewrite generate_initial_points_unfold in H by exact Hs.
  cbv zeta in H.
  apply Mbind_Ok_inv in H as (r0m & w1 & H1 & H).
  apply lift_Ok_inv in H1 as [Hr0m ->].
  apply Mbind_Ok_inv in H as (seed & w1 & H1 & H).
  apply lift_Ok_inv in H1 as [Hseed ->].
  unfold put_rng at 1, get_rng in H.
  unfold mbind at 1 2 3, M_bind at 1 2 3 in H. cbn [fst snd w_opts w_rng w_warnings] in H.
  unfold put_rng at 1 in H. cbn [fst snd w_opts w_rng w_warnings] in H.
  apply Mbind_Ok_inv in H as (ext & w1 & H1 & H).
  injection H as <- <- <- <-.
  match type of H1 with
  | _form_extents ?P _ _ ?w0 = _ =>
      pose proof (frame_form_extents_serial P h0 comm Hs w0) as Hw
  end.
  rewrite H1 in Hw. simpl in Hw. subst w1.
  split; [reflexivity|]. split; [|split; [|reflexivity]].
  - eexists. split; [reflexivity|]. split.
    + etransitivity; [apply mask_select_sublist|].
      apply filter_bool_sublist.
    + intros x Hx.
      pose proof (mask_select_sublist
                    (zip_with (fun u r => Qltb u (qpow r0m dim / qpow r dim)%Q)
                       (np_random_rand (np_random_seed seed)
                          (length (candidates h0 geps dim bbox fd))).1
                       (map fh (candidates h0 geps dim bbox fd)))
                    (candidates h0 geps dim bbox fd)) as Hsub.
      apply list_elem_of_In in Hx.
      apply (fun H => elem_of_sublist _ _ _ H Hsub), list_elem_of_In in Hx.
      unfold candidates in Hx. apply filter_In in Hx as [_ Hx].
      apply Qltb_lt. exact Hx.
  - exists seed. split; [|reflexivity].
    unfold getitem in Hseed. destruct (o !! "seed"); [|discriminate].
    injection Hseed as ->. reflexivity.
Qed.

(** X10.  On one rank, a grid without a point with [fd < geps] makes
    [_generate_initial_points] raise the [ValueError] of the minimum of an
    empty array, before the generator is touched. *)
Theorem generate_initial_points_without_interior_point_raises
    (h0 geps : Q) (dim : nat) (bbox : list point) (fh fd : point -> Q)
    (pfix : list point) (comm : comm_t) (o : gmap string pyval) (w : world) :
  (size comm <= 1)%nat ->
  (forall x, In x (create_staggered_grid h0 dim bbox) -> (geps <= fd x)%Q) ->
  _generate_initial_points h0 geps dim bbox fh fd pfix comm o w
  = (Raise (ValueError
              "zero-size array to reduction operation minimum which has no identity" []),
     w).
Proof.
  intros Hs Hout. rewrite generate_initial_points_unfold by exact Hs.
  assert (E : candidates h0 geps dim bbox fd = []).
  { unfold candidates.
    induction (create_staggered_grid h0 dim bbox) as [|x l IH]; [reflexivity|].
    simpl. replace (Qltb (fd x) geps) with false.
    - apply IH. intros y Hy. apply Hout. right. exact Hy.
    - symmetry. apply Qltb_ge. apply Hout. left. reflexivity. }
  cbv zeta. rewrite E. reflexivity.
Qed.


End InitialPoints.

(** ** Calls that stop in the validation *)

Lemma bind_get_opts {B} (k : gmap string pyval -> M B) (w : world) :
  (get_opts ≫= k) w = k (w_opts w) w.
Proof. reflexivity. Qed.

Lemma bind_assoc {A B C} (m : M A) (f : A -> M B) (g : B -> M C) (w : world) :
  ((m ≫= f) ≫= g) w = (m ≫= fun a => f a ≫= g) w.
Proof.
  unfold mbind, M_bind. destruct (m w) as [[a|e|] w1]; reflexivity.
Qed.

Lemma bind_raise {A B} (e : exn) (k : A -> M B) (w : world) :
  (raise e ≫= k) w = (Raise e, w).
Proof. reflexivity. Qed.

Lemma bind_ret {A B} (a : A) (k : A -> M B) (w : world) :
  (mret a ≫= k) w = k a w.
Proof. reflexivity. Qed.

Lemma check_bbox_floats (xs : list Q) : _check_bbox (PyTuple (map PyFloat xs)) = Ok tt.
Proof.
  unfold _check_bbox. simpl.
  replace (existsb py_isinstance_int (map PyFloat xs)) with false; [reflexivity|].
  induction xs as [|x xs IH]; simpl; [reflexivity|exact IH].
Qed.

Lemma select_verbosity_unknown (o : gmap string pyval) (v : pyval) (q : Q) :
  o !! "verbose" = Some v -> py_float v = Ok q ->
  (q < 0)%Q \/ ((0 < q)%Q /\ (q < 1)%Q) ->
  _select_verbosity o = Raise (ValueError "Unknown verbosity level" []).
Proof.
  intros Ho Hv Hq. unfold _select_verbosity, getitem. rewrite Ho. simpl.
  rewrite Hv. simpl.
  assert (E0 : Qeq_bool q 0 = false).
  { destruct (Qeq_bool q 0) eqn:E; [|reflexivity]. apply Qeq_bool_iff in E.
    rewrite E in Hq. destruct Hq as [Hq|[Hq _]]; discriminate Hq. }
  assert (E1 : Qeq_bool q 1 = false).
  { destruct (Qeq_bool q 1) eqn:E; [|reflexivity]. apply Qeq_bool_iff in E.
    rewrite E in Hq. destruct Hq as [Hq|[_ Hq]]; discriminate Hq. }
  assert (E2 : Qltb 1 q = false).
  { apply Qltb_ge. destruct Hq as [Hq|[_ Hq]].
    - apply Qlt_le_weak. apply Qlt_trans with 0%Q; [exact Hq|reflexivity].
    - apply Qlt_le_weak. exact Hq. }
  rewrite E0, E1, E2. reflexivity.
Qed.

Section Calls.

Context `{Ext : Externals}.

Lemma bind_unpack_domain_corners {B} (d : domain_arg) (cs : list pyval)
    (k : (point -> Q) * pyval -> M B) (w : world) :
  domain_corners d = Some cs ->
  (_unpack_domain d ≫= k) w
  = match _check_bbox (PyTuple cs) with
    | Ok _ => k (domain_eval d, PyTuple cs) w
    | Raise e => (Raise e, w)
    | NoFuel => (NoFuel, w)
    end.
Proof.
  intros Hd. unfold _unpack_domain.
  destruct d; simpl in Hd; try discriminate; injection Hd as <-;
    unfold mbind, M_bind, mret, M_ret, lift; simpl;
    match goal with |- context [_check_bbox ?b] => destruct (_check_bbox b) end;
    reflexivity.
Qed.

(** X12.  An unknown verbosity level poisons the stored configuration:
    [generate_mesh] called with a [verbose] below 0, or between 0 and 1,
    raises the [ValueError] of [_select_verbosity] after it has stored the
    value, and every later call with accepted keywords that does not pass
    [verbose] itself raises the same error, whatever its other
    arguments. *)
Theorem unknown_verbosity_level_persists
    (fuel fuel' : nat) (domain domain' : domain_arg)
    (edge_length edge_length' : sizing_arg) (comm comm' : comm_t)
    (kwargs kwargs' : kwargs_t) (w : world) (v : pyval) (q : Q) :
  _parse_kwargs kwargs = Ok tt ->
  _parse_kwargs kwargs' = Ok tt ->
  dict_update (w_opts w) kwargs !! "verbose" = Some v ->
  py_float v = Ok q ->
  (q < 0)%Q \/ ((0 < q)%Q /\ (q < 1)%Q) ->
  ~ In "verbose" (map fst kwargs') ->
  let e := ValueError "Unknown verbosity level" [] in
  generate_mesh fuel domain edge_length comm kwargs w = (Raise e, stored kwargs w)
  /\ generate_mesh fuel' domain' edge_length' comm' kwargs' (stored kwargs w)
     = (Raise e, stored kwargs' (stored kwargs w)).
Proof.
  intros Hp Hp' Hv Hq Hrange Hnot e. split.
  - unfold generate_mesh. rewrite bind_opts_update, bind_lift, Hp, bind_get_opts.
    rewrite bind_lift. cbn [w_opts].
    rewrite (select_verbosity_unknown _ v q Hv Hq Hrange). reflexivity.
  - unfold generate_mesh. rewrite bind_opts_update, bind_lift, Hp', bind_get_opts.
    rewrite bind_lift. cbn [w_opts stored].
    rewrite (select_verbosity_unknown _ v q); [reflexivity| |exact Hq|exact Hrange].
    rewrite dict_update_notin by exact Hnot. exact Hv.
Qed.

(** X13.  A callable domain needs the keyword [bbox]: when neither the
    call nor an earlier one has stored a [bbox], [generate_mesh] raises
    [KeyError('bbox')] once the keywords and the verbosity have been
    accepted. *)
Theorem callable_domain_without_bbox_raises_KeyError
    (fuel : nat) (fd : point -> Q) (edge_length : sizing_arg) (comm : comm_t)
    (kwargs : kwargs_t) (w : world) (vb : bool * bool) :
  _parse_kwargs kwargs = Ok tt ->
  _select_verbosity (dict_update (w_opts w) kwargs) = Ok vb ->
  dict_update (w_opts w) kwargs !! "bbox" = None ->
  generate_mesh fuel (DomainCallable fd) edge_length comm kwargs w
  = (Raise (KeyError "bbox"), stored kwargs w).
Proof.
  intros Hp Hv Hb.
  unfold generate_mesh. rewrite bind_opts_update, bind_lift, Hp, bind_get_opts.
  rewrite bind_lift. cbn [w_opts]. rewrite Hv.
  unfold _unpack_domain. rewrite !bind_assoc, bind_opt.
  unfold getitem. cbn [w_opts]. rewrite Hb. reflexivity.
Qed.

(** X14.  A sizing function that is not a scalar needs the keyword [h0]:
    with a [geometry] object whose corners are floats and a callable edge
    length, [generate_mesh] raises [KeyError('h0')] when no [h0] is
    stored. *)
Theorem callable_edge_length_without_h0_raises_KeyError
    (fuel : nat) (domain : domain_arg) (xs : list Q) (fh : point -> Q)
    (comm : comm_t) (kwargs : kwargs_t) (w : world) (vb : bool * bool) :
  _parse_kwargs kwargs = Ok tt ->
  _select_verbosity (dict_update (w_opts w) kwargs) = Ok vb ->
  domain_corners domain = Some (map PyFloat xs) ->
  dict_update (w_opts w) kwargs !! "h0" = None ->
  generate_mesh fuel domain (SizingCallable fh) comm kwargs w
  = (Raise (KeyError "h0"), stored kwargs w).
Proof.
  intros Hp Hv Hd Hh.
  assert (Hlen : Nat.even (length xs) = true).
  { destruct domain; simpl in Hd; try discriminate; injection Hd as Hd;
      apply (f_equal (@length _)) in Hd; rewrite length_map in Hd;
      simpl in Hd; rewrite <- Hd; reflexivity. }
  unfold generate_mesh. rewrite bind_opts_update, bind_lift, Hp, bind_get_opts.
  rewrite bind_lift. cbn [w_opts]. rewrite Hv.
  rewrite (bind_unpack_domain_corners _ _ _ _ Hd), check_bbox_floats.
  rewrite bind_lift. cbn [_unpack_sizing mbind result_bind _check_bbox py_is_none fst snd].
  cbv zeta. cbn [fst snd py_is_none]. rewrite bind_ret.
  cbn [py_isinstance_tuple negb py_is_none andb tuple_items].
  rewrite andb_false_r, bind_ret, bind_lift.
  unfold bbox_reshape.
  rewrite (rmap_ok py_float (fun v => match py_num v with Some q => q | None => 0%Q end)).
  2:{ apply List.Forall_forall. intros v Hin. apply in_map_iff in Hin as (x & <- & _).
      reflexivity. }
  cbn [mbind result_bind]. rewrite !length_map, Hlen.
  unfold mbind at 1. unfold M_bind at 1.
  rewrite bind_opt. unfold getitem. cbn [w_opts]. rewrite Hh. reflexivity.
Qed.

(** X15.  A [geometry] object with an integer (or boolean) corner is
    rejected: [generate_mesh] raises the [ValueError] of [_check_bbox]. *)
Theorem integer_corner_is_rejected
    (fuel : nat) (domain : domain_arg) (cs : list pyval) (edge_length : sizing_arg)
    (comm : comm_t) (kwargs : kwargs_t) (w : world) (vb : bool * bool) :
  _parse_kwargs kwargs = Ok tt ->
  _select_verbosity (dict_update (w_opts w) kwargs) = Ok vb ->
  domain_corners domain = Some cs ->
  (exists c, In c cs /\ py_isinstance_int c = true) ->
  generate_mesh fuel domain edge_length comm kwargs w
  = (Raise (ValueError "bbox must contain all floats" []), stored kwargs w).
Proof.
  intros Hp Hv Hd Hc.
  unfold generate_mesh. rewrite bind_opts_update, bind_lift, Hp, bind_get_opts.
  rewrite bind_lift. cbn [w_opts]. rewrite Hv.
  rewrite (bind_unpack_domain_corners _ _ _ _ Hd).
  unfold _check_bbox. simpl.
  replace (existsb py_isinstance_int cs) with true; [reflexivity|].
  symmetry. apply existsb_exists. exact Hc.
Qed.

(** X16.  [sliver_removal] works on points in space only: on the
    coordinator rank, an array of points in the plane raises before the
    domain and the edge length are looked at. *)
Theorem sliver_removal_rejects_planar_points
    (fuel : nat) (points : list point) (domain : domain_arg)
    (edge_length : sizing_arg) (comm : comm_t) (kwargs : kwargs_t) (w : world)
    (vb : bool * bool) :
  rank comm = 0%nat ->
  _parse_kwargs kwargs = Ok tt ->
  _select_verbosity (dict_update (w_opts w) kwargs) = Ok vb ->
  shape1 points = 2%nat ->
  sliver_removal fuel points domain edge_length comm kwargs w
  = (Raise (Exception "Mesh improvement currently on works in 3D"), stored kwargs w).
Proof.
  intros Hr Hp Hv Hdim.
  unfold sliver_removal. rewrite Hr. cbn [Nat.ltb Nat.leb].
  rewrite bind_opts_update, bind_lift, Hp, bind_get_opts.
  rewrite bind_lift. cbn [w_opts]. rewrite Hv. cbv zeta. rewrite Hdim. reflexivity.
Qed.

End Calls.

(** ** Calls that reach the loop *)

Lemma frame_at_frame {A} (w : world) (m : M A) : frame m -> frame_at w m.
Proof. intros H. apply H. Qed.

Lemma frame_at_bind {A B} (w : world) (m : M A) (k : A -> M B) :
  frame m -> (forall a, (m w).1 = Ok a -> frame_at w (k a)) -> frame_at w (m ≫= k).
Proof.
  intros Hm Hk. unfold frame_at. rewrite bind_frame by exact Hm.
  destruct (m w).1 eqn:E; try reflexivity. apply Hk. reflexivity.
Qed.

Lemma total_at_bind {A B} (w : world) (m : M A) (k : A -> M B) :
  validates m -> (forall a, (m w).1 = Ok a -> total_at w (k a)) -> total_at w (m ≫= k).
Proof.
  intros [Hm Hf] Hk. unfold total_at. rewrite bind_frame by exact Hm.
  specialize (Hf w). destruct (m w).1 eqn:E; try discriminate; [|congruence].
  apply Hk. reflexivity.
Qed.

Lemma total_at_bind_any {A B} (w : world) (m : M A) (k : A -> M B) :
  (m w).1 <> NoFuel -> (forall a w1, total_at w1 (k a)) -> total_at w (m ≫= k).
Proof.
  intros Hm Hk. unfold total_at, mbind, M_bind.
  destruct (m w) as [[a|e|] w1]; simpl in *; try discriminate; [|congruence].
  apply Hk.
Qed.

Lemma total_bind {A B} (m : M A) (k : A -> M B) :
  total m -> (forall a, total (k a)) -> total (m ≫= k).
Proof.
  intros Hm Hk w. unfold mbind, M_bind. specialize (Hm w).
  destruct (m w) as [[a|e|] w1]; simpl in *; try discriminate; [|congruence].
  apply Hk.
Qed.

Lemma total_validates {A} (m : M A) : validates m -> total m.
Proof. intros [_ H]. exact H. Qed.

Lemma total_lift {A} (r : result A) : r <> NoFuel -> total (lift r).
Proof. intros H w. exact H. Qed.

Lemma total_ret {A} (a : A) : total (mret a).
Proof. intros w. discriminate. Qed.

Lemma total_put_rng (g : Z) : total (put_rng g).
Proof. intros w. discriminate. Qed.

Lemma total_get_rng : total get_rng.
Proof. intros w. discriminate. Qed.

Lemma amin0_fuel p : amin0 p <> NoFuel.
Proof. unfold amin0. nofuel. Qed.

Lemma amax0_fuel p : amax0 p <> NoFuel.
Proof. unfold amax0. nofuel. Qed.

Lemma py_int_fuel v : py_int v <> NoFuel.
Proof. destruct v; discriminate. Qed.

Lemma py_index_fuel len i : py_index len i <> NoFuel.
Proof. unfold py_index. nofuel. Qed.

Lemma as_ndarray_fuel v : as_ndarray v <> NoFuel.
Proof. destruct v; discriminate. Qed.

Ltac validating :=
  repeat first
    [ apply validates_ret
    | apply validates_raise
    | apply validates_get_opts
    | apply validates_opt
    | apply validates_unpack_domain
    | apply validates_lift;
      first [ solve [auto with fuel] | apply unpack_sizing_fuel | apply minmax_fuel
            | apply unpack_pfix_fuel ]
    | apply validates_bind; [|intros ?]
    | progress lazy zeta
    | match goal with
      | |- validates (if ?b then _ else _) => destruct b
      | |- validates (match ?x with _ => _ end) => destruct x
      end ].

Section Reach.

Context `{Ext : Externals}.

Ltac totality :=
  repeat first
    [ apply total_ret
    | apply total_put_rng
    | apply total_get_rng
    | apply total_validates; solve [validating]
    | apply total_lift;
      first [ solve [auto with fuel] | apply amin0_fuel | apply amax0_fuel
            | apply py_int_fuel | apply py_index_fuel | apply as_ndarray_fuel ]
    | apply total_bind; [|intros ?]
    | progress lazy zeta
    | match goal with
      | |- total (if ?b then _ else _) => destruct b
      | |- total (match ?x with _ => _ end) => destruct x
      end ].

Lemma total_form_extents p h0 comm : total (_form_extents p h0 comm).
Proof. unfold _form_extents. totality. Qed.

Lemma user_defined_points_fuel dim fh h0 bbox points comm o :
  _user_defined_points dim fh h0 bbox points comm o <> NoFuel.
Proof. unfold _user_defined_points. nofuel; apply as_ndarray_fuel. Qed.

Lemma total_generate_initial_points h0 geps dim bbox fh fd pfix comm o :
  total (_generate_initial_points h0 geps dim bbox fh fd pfix comm o).
Proof. unfold _generate_initial_points. totality; apply total_form_extents. Qed.

Lemma total_initialize_points dim geps bbox fh fd h0 o pfix comm :
  total (_initialize_points dim geps bbox fh fd h0 o pfix comm).
Proof.
  unfold _initialize_points.
  totality;
    first [apply total_generate_initial_points
          |apply total_lift, user_defined_points_fuel].
Qed.

Lemma frame_initialize_points_user dim geps bbox fh fd h0 o pfix comm v :
  o !! "points" = Some v -> py_is_none v = false ->
  frame (_initialize_points dim geps bbox fh fd h0 o pfix comm).
Proof.
  intros Ho Hv w. unfold _initialize_points, getitem. rewrite Ho.
  rewrite bind_lift, Hv. reflexivity.
Qed.

(** X17.  With points of the user's, [generate_mesh] draws no random
    number: when the stored [points] is not [None], all the call changes
    is the stored configuration, and numpy's global generator is left in
    the state it was in. *)
Theorem user_points_leave_the_generator_alone
    (fuel : nat) (domain : domain_arg) (edge_length : sizing_arg) (comm : comm_t)
    (kwargs : kwargs_t) (w : world) (v : pyval) :
  dict_update (w_opts w) kwargs !! "points" = Some v ->
  py_is_none v = false ->
  (generate_mesh fuel domain edge_length comm kwargs w).2 = stored kwargs w.
Proof.
  intros Ho Hv. unfold generate_mesh. rewrite bind_opts_update.
  fold (stored kwargs w).
  match goal with |- (?m _).2 = _ => change (frame_at (stored kwargs w) m) end.
  apply frame_at_bind; [apply frame_lift|intros _ _].
  apply frame_at_bind; [intros ?; reflexivity|intros o Eo].
  injection Eo as <-. cbn [stored w_opts].
  repeat first
    [ apply frame_at_frame;
      first [ apply frame_lift | intros ?; reflexivity ]
    | apply frame_at_bind;
      [ first [ apply frame_lift | apply frame_opt | apply frame_unpack_domain
              | apply (frame_initialize_points_user _ _ _ _ _ _ _ _ _ v Ho Hv)
              | solve [validating; fail]
              | match goal with
                | |- frame ?m => assert (Hval : validates m) by validating; apply Hval
                end ]
      | intros ? _ ]
    | progress lazy zeta
    | match goal with
      | |- frame_at _ (if ?b then _ else _) => destruct b
      | |- frame_at _ (match ?x with _ => _ end) => destruct x
      end ].
Qed.

Lemma generate_mesh_loop_never fd fh h0 geps deps L0mult delta_t max_iter DT pfix nfix
    extents o comm fuel count p :
  (forall c, count <= c -> ~ (inject_Z c == max_iter - 1)%Q) ->
  forall r, generate_mesh_loop fd fh h0 geps deps L0mult delta_t max_iter DT pfix nfix
                               extents o comm fuel count p <> Ok r.
Proof.
  intros Hno [[c p'] t] H.
  apply generate_mesh_loop_exit in H as (Hle & Hex & _).
  apply Qeq_bool_iff in Hex. apply (Hno c); [lia|exact Hex].
Qed.

Ltac never_stepping :=
  first
    [ apply never_raise
    | apply never_bind_validates; [solve [validating]|intros ? ?]
    | progress lazy zeta
    | match goal with
      | |- never_returns _ (if ?b then _ else _) => destruct b eqn:?
      end ].

Ltac read_max_iter Ho :=
  match goal with
  | Hmi : (opt "max_iter" ?w').1 = Ok ?mi, Hq : (lift (py_float ?mi) ?w').1 = Ok ?q |- _ =>
      unfold opt, get_opts, lift, mbind, M_bind, getitem in Hmi; simpl in Hmi;
      rewrite Ho in Hmi; simpl in Hmi; injection Hmi as <-;
      simpl in Hq
  end.

(** X18.  [generate_mesh] returns only for a whole number of iterations:
    with a stored [max_iter] for which no counter value 0, 1, 2, ... equals
    [max_iter - 1] (a fraction such as 2.5, or a number below 1), the
    call raises or runs for ever, whatever its other arguments. *)
Theorem fractional_max_iter_never_returns
    (fuel : nat) (domain : domain_arg) (edge_length : sizing_arg)
    (comm : comm_t) (kwargs : kwargs_t) (w : world) (v : pyval) (q : Q) :
  dict_update (w_opts w) kwargs !! "max_iter" = Some v ->
  py_float v = Ok q ->
  (forall c, 0 <= c -> ~ (inject_Z c == q - 1)%Q) ->
  forall r, (generate_mesh fuel domain edge_length comm kwargs w).1 <> Ok r.
Proof.
  intros Ho Hq Hno.
  unfold generate_mesh. rewrite bind_opts_update.
  set (w' := World (dict_update (w_opts w) kwargs) (w_rng w) (w_warnings w)).
  match goal with |- forall r, (?m w').1 <> Ok r => change (never_returns w' m) end.
  repeat never_stepping.
  read_max_iter Ho. rewrite Hq in *.
  match goal with Hq' : Ok _ = Ok _ |- _ => injection Hq' as <- end.
  apply never_bind. intros ini w'' _. lazy zeta.
  match goal with |- never_returns _ (if ?b then _ else _) => destruct b end;
    [apply never_raise|].
  apply never_lift_bind. intros r.
  apply generate_mesh_loop_never. exact Hno.
Qed.

(** X19.  With a whole number [n >= 1] of iterations stored as
    [max_iter], [generate_mesh] comes to an end: it returns or raises
    within [n] passes of its loop, and a loop that returns has stopped at
    the counter value [n - 1], after exactly [n] triangulations. *)
Theorem generate_mesh_ends_after_max_iter_passes
    (fuel : nat) (domain : domain_arg) (edge_length : sizing_arg)
    (comm : comm_t) (kwargs : kwargs_t) (w : world) (v : pyval) (q : Q) (n : Z) :
  dict_update (w_opts w) kwargs !! "max_iter" = Some v ->
  py_float v = Ok q ->
  (q == inject_Z n)%Q -> 1 <= n -> (Z.to_nat n <= fuel)%nat ->
  (generate_mesh fuel domain edge_length comm kwargs w).1 <> NoFuel
  /\ forall fd fh h0 geps deps L0mult delta_t DT pfix nfix extents o p c p' t,
       generate_mesh_loop fd fh h0 geps deps L0mult delta_t q DT pfix nfix
                          extents o comm fuel 0 p = Ok (c, p', t) ->
       c = n - 1.
Proof.
  intros Ho Hq Hn Hn1 Hfuel. split.
  - unfold generate_mesh. rewrite bind_opts_update.
    set (w' := World (dict_update (w_opts w) kwargs) (w_rng w) (w_warnings w)).
    match goal with |- (?m w').1 <> NoFuel => change (total_at w' m) end.
    repeat first
      [ apply total_at_bind; [solve [validating]|intros ? ?]
      | progress lazy zeta
      | match goal with
        | |- total_at _ (raise _) => intros ?; discriminate
        | |- total_at _ (if ?b then _ else _) => destruct b eqn:?
        end ].
    read_max_iter Ho. rewrite Hq in *.
    match goal with Hq' : Ok _ = Ok _ |- _ => injection Hq' as <- end.
    apply total_at_bind_any; [apply total_initialize_points|].
    intros ini w1. lazy zeta.
    match goal with |- total_at _ (if ?b then _ else _) => destruct b end;
      [intros ?; discriminate|].
    apply total_at_bind_any; [|intros; intros ?; discriminate].
    apply (generate_mesh_loop_stops _ _ _ _ _ _ _ _ _ _ _ _ _ _ n); [exact Hn|lia|lia].
  - intros fd fh h0 geps deps L0mult delta_t DT pfix nfix extents o p c p' t H.
    apply (generate_mesh_loop_stops _ _ _ _ _ _ _ _ _ _ _ _ _ _ n fuel 0 p Hn) in H;
      [exact H|lia|lia].
Qed.

End Reach.

(** ** The end of [sliver_removal], and a domain in a padded box *)

Section SliverEnds.

Context `{Ext : Externals}.

Lemma sliver_elements_fuel p t lo hi : sliver_elements p t lo hi <> NoFuel.
Proof. unfold sliver_elements. nofuel. Qed.

Lemma sliver_perturb_fuel h0 p t ele move : sliver_perturb h0 p t ele move <> NoFuel.
Proof. unfold sliver_perturb. nofuel. Qed.

Lemma sliver_retriangulate_fuel fd geps DT s : sliver_retriangulate fd geps DT s <> NoFuel.
Proof. unfold sliver_retriangulate. nofuel. Qed.

Lemma sliver_body_fuel fd h0 geps deps lo hi max_iter DT dim o comm s :
  sliver_body fd h0 geps deps lo hi max_iter DT dim o comm s <> NoFuel.
Proof.
  unfold sliver_body. nofuel;
    first [apply sliver_retriangulate_fuel | apply sliver_elements_fuel
          | apply sliver_perturb_fuel].
Qed.

Lemma sliver_loop_stops fd h0 geps deps lo hi max_iter DT dim o comm (n : Z) fuel s :
  (max_iter == inject_Z n)%Q -> 0 <= ss_count s < n ->
  (Z.to_nat (n - ss_count s) <= fuel)%nat ->
  sliver_loop fd h0 geps deps lo hi max_iter DT dim o comm fuel s <> NoFuel.
Proof.
  intros Hn. revert s.
  induction fuel as [|fuel IH]; intros s Hcount Hfuel; [lia|].
  cbn [sliver_loop]. unfold mbind, result_bind.
  destruct (sliver_body fd h0 geps deps lo hi max_iter DT dim o comm s)
    as [r| |] eqn:Hb; try discriminate.
  - destruct r as [s'|ex p t]; [|discriminate].
    apply sliver_body_inv in Hb as (dt & p & t & _ & Hc & Hs' & _).
    destruct (Z.eq_dec (ss_count s) (n - 1)) as [E|Hne].
    + rewrite E, (max_iter_last _ n Hn) in Hc. discriminate.
    + apply IH; lia.
  - exfalso. exact (sliver_body_fuel _ _ _ _ _ _ _ _ _ _ _ _ Hb).
Qed.

(** X20.  With a whole number [n >= 1] of iterations stored as
    [max_iter], [sliver_removal] comes to an end on the coordinator rank:
    it returns or raises within [n] passes of its loop. *)
Theorem sliver_removal_ends_within_max_iter_passes
    (fuel : nat) (points : list point) (domain : domain_arg)
    (edge_length : sizing_arg) (comm : comm_t) (kwargs : kwargs_t) (w : world)
    (v : pyval) (q : Q) (n : Z) :
  rank comm = 0%nat ->
  dict_update (w_opts w) kwargs !! "max_iter" = Some v ->
  py_float v = Ok q ->
  (q == inject_Z n)%Q -> 1 <= n -> (Z.to_nat n <= fuel)%nat ->
  (sliver_removal fuel points domain edge_length comm kwargs w).1 <> NoFuel.
Proof.
  intros Hr Ho Hq Hn Hn1 Hfuel.
  unfold sliver_removal. rewrite Hr. cbn [Nat.ltb Nat.leb]. rewrite bind_opts_update.
  set (w' := World (dict_update (w_opts w) kwargs) (w_rng w) (w_warnings w)).
  match goal with |- (?m w').1 <> NoFuel => change (total_at w' m) end.
  repeat first
    [ apply total_at_bind; [solve [validating]|intros ? ?]
    | progress lazy zeta
    | match goal with
      | |- total_at _ (raise _) => intros ?; discriminate
      | |- total_at _ (if ?b then _ else _) => destruct b eqn:?
      end ].
  match goal with
  | Hmi : (opt "max_iter" ?w').1 = Ok ?mi, Hq' : (lift (py_float ?mi) ?w').1 = Ok ?q |- _ =>
      unfold opt, get_opts, lift, mbind, M_bind, getitem in Hmi; simpl in Hmi;
      rewrite Ho in Hmi; simpl in Hmi; injection Hmi as <-;
      simpl in Hq'; rewrite Hq in Hq'; injection Hq' as <-
  end.
  apply total_at_bind_any; [|intros; intros ?; discriminate].
  apply (sliver_loop_stops _ _ _ _ _ _ _ _ _ _ _ n); simpl; [exact Hn|lia|lia].
Qed.

(** X21.  When the box of the sizing function differs from the box of the
    domain, [generate_mesh] meshes the padded box: the signed distance
    function of the [geometry] object is not used, so two objects with
    the same corners (a disk and a rectangle, say) give the same outcome
    and the same final state. *)
Theorem padded_domain_is_meshed_as_its_box
    (fuel : nat) (domain domain' : domain_arg) (cs : list pyval)
    (bbox1 : pyval) (fh : point -> Q) (comm : comm_t) (kwargs : kwargs_t) (w : world) :
  domain_corners domain = Some cs ->
  domain_corners domain' = Some cs ->
  py_is_none bbox1 = false ->
  py_eqb (PyTuple cs) bbox1 = false ->
  generate_mesh fuel domain (SizeFunction bbox1 fh) comm kwargs w
  = generate_mesh fuel domain' (SizeFunction bbox1 fh) comm kwargs w.
Proof.
  intros Hd Hd' Hnone Hne.
  unfold generate_mesh. rewrite !bind_opts_update, !bind_lift.
  destruct (_parse_kwargs kwargs); try reflexivity.
  rewrite !bind_get_opts, !bind_lift.
  destruct (_select_verbosity _); try reflexivity.
  rewrite (bind_unpack_domain_corners _ _ _ _ Hd), (bind_unpack_domain_corners _ _ _ _ Hd').
  destruct (_check_bbox (PyTuple cs)); try reflexivity.
  rewrite !bind_lift.
  destruct (_unpack_sizing (SizeFunction bbox1 fh)) as [[[fh' b1] hmin]| |] eqn:Es;
    try reflexivity.
  assert (Eb : b1 = bbox1).
  { unfold _unpack_sizing in Es. apply bind_Ok_inv in Es as (r & Hr & Es).
    injection Hr as <-. apply bind_Ok_inv in Es as (u & _ & Es).
    injection Es as _ <- _. reflexivity. }
  subst b1. cbv zeta. cbn [fst snd]. rewrite Hnone, !bind_lift.
  destruct (_minmax (PyTuple cs) bbox1) as [bbox| |]; try reflexivity.
  destruct (negb (py_isinstance_tuple bbox)); [reflexivity|].
  rewrite Hne. cbn [negb andb]. reflexivity.
Qed.

End SliverEnds.

(** ** Points of the user's *)

Lemma bind_eq {A B} (m : M A) (k : A -> M B) (w w1 : world) (a : A) :
  m w = (Ok a, w1) -> (m ≫= k) w = k a w1.
Proof. intros H. unfold mbind, M_bind. rewrite H. reflexivity. Qed.

Lemma bbox_reshape_floats (xs : list Q) :
  Nat.even (length xs) = true -> bbox_reshape (map PyFloat xs) = Ok (pairs xs).
Proof.
  intros H. unfold bbox_reshape.
  rewrite (rmap_ok py_float (fun v => match py_num v with Some q => q | None => 0%Q end)).
  2:{ apply List.Forall_forall. intros v Hin. apply in_map_iff in Hin as (x & <- & _).
      reflexivity. }
  cbn [mbind result_bind]. rewrite map_map. simpl. rewrite map_id, H. reflexivity.
Qed.

Section UserPoints.

Context `{Ext : Externals}.

Lemma unpack_domain_float_corners (d : domain_arg) (xs : list Q) (w : world) :
  domain_corners d = Some (map PyFloat xs) ->
  _unpack_domain d w = (Ok (domain_eval d, PyTuple (map PyFloat xs)), w).
Proof.
  intros Hd.
  destruct d; simpl in Hd; try discriminate; injection Hd as Hd;
    unfold _unpack_domain, mbind, M_bind, mret, M_ret, lift; cbn [fst snd domain_eval];
    rewrite Hd, check_bbox_floats; reflexivity.
Qed.

(** A call with a scalar edge length and points of the user's, on one
    rank: once the validation is passed, the outcome is the outcome of
    the loop on those points. *)
Lemma generate_mesh_with_user_points
    (fuel : nat) (d : domain_arg) (h : Q) (comm : comm_t) (kwargs : kwargs_t)
    (w : world) (vb : bool * bool) (fd : point -> Q) (xs : list Q)
    (mi dtv : pyval) (m dt : Q) (pts : list point) :
  let o := dict_update (w_opts w) kwargs in
  let dim := (length xs / 2)%nat in
  _parse_kwargs kwargs = Ok tt ->
  _select_verbosity o = Ok vb ->
  _unpack_domain d (stored kwargs w)
  = (Ok (fd, PyTuple (map PyFloat xs)), stored kwargs w) ->
  Nat.even (length xs) = true ->
  Qltb h 0 = false ->
  o !! "max_iter" = Some mi -> py_float mi = Ok m -> Qltb m 0 = false ->
  o !! "delta_t" = Some dtv -> py_float dtv = Ok dt ->
  o !! "pfix" = Some PyNone ->
  o !! "points" = Some (PyArray pts) ->
  (size comm <= 1)%nat ->
  generate_mesh fuel d (SizingScalar h) comm kwargs w
  = if Nat.ltb 0 (length pts) then
      (r ← generate_mesh_loop fd (fun _ => h) h ((1 # 10) * h)%Q
                               (np_sqrt float_eps * h)%Q
                               (1 + (4 # 10) / Qpower 2 (Z.of_nat dim - 1))%Q
                               dt m (_select_cgal_dim dim) [] 0 [] o comm fuel 0 pts;
       Ok (r.1.2, r.2),
       stored kwargs w)
    else (Raise (AssertionError "No vertices to mesh with!"), stored kwargs w).
Proof.
  intros o dim Hp Hv Hd Hxs Hh Hmi Hm Hm0 Hdt Hdt' Hpfix Hpts Hs.
  unfold generate_mesh. rewrite bind_opts_update, bind_lift, Hp, bind_get_opts.
  fold (stored kwargs w). change (w_opts (stored kwargs w)) with o.
  rewrite bind_lift, Hv.
  rewrite (bind_eq _ _ _ _ _ Hd). cbv zeta. cbn [fst snd].
  rewrite bind_lift. cbn [_unpack_sizing mbind result_bind _check_bbox py_is_none fst snd].
  cbn [fst snd py_is_none]. rewrite bind_ret.
  cbn [py_isinstance_tuple negb py_is_none andb tuple_items].
  rewrite andb_false_r, bind_ret, bind_lift, length_map.
  rewrite (bbox_reshape_floats xs Hxs), bind_ret, Hh.
  rewrite bind_opt. change (w_opts (stored kwargs w)) with o.
  unfold getitem at 1. rewrite Hmi, bind_lift, Hm, Hm0.
  rewrite bind_opt. change (w_opts (stored kwargs w)) with o.
  unfold getitem at 1. rewrite Hdt, bind_lift, Hdt'.
  rewrite bind_lift. unfold _unpack_pfix, getitem. rewrite Hpfix.
  cbn [mbind result_bind py_is_none negb fst snd].
  fold dim.
  unfold _initialize_points at 1. rewrite bind_assoc, bind_lift.
  unfold getitem. rewrite Hpts. cbn [py_is_none].
  rewrite bind_lift. unfold _user_defined_points.
  replace (Nat.ltb 1 (size comm)) with false by (symmetry; apply Nat.ltb_ge; exact Hs).
  cbn [as_ndarray mbind result_bind fst snd].
  destruct (Nat.ltb 0 (length pts)); cbn [negb]; [|reflexivity].
  rewrite bind_lift.
  match goal with |- context [generate_mesh_loop ?a1 ?a2 ?a3 ?a4 ?a5 ?a6 ?a7 ?a8 ?a9 ?a10 ?a11 ?a12 ?a13 ?a14 ?a15 ?a16 ?a17] =>
    destruct (generate_mesh_loop a1 a2 a3 a4 a5 a6 a7 a8 a9 a10 a11 a12 a13 a14 a15 a16 a17)
      as [[[c p'] t']| |] end; reflexivity.
Qed.

(** X22.  An empty array of points of the user's is the way to the
    assertion of [generate_mesh]: on one rank, with a scalar edge length
    and a [geometry] object with float corners, a stored [points] without
    rows makes the call fail with [AssertionError("No vertices to mesh
    with!")] once the validation is passed. *)
Theorem empty_user_points_fail_the_assertion
    (fuel : nat) (d : domain_arg) (h : Q) (comm : comm_t) (kwargs : kwargs_t)
    (w : world) (vb : bool * bool) (xs : list Q) (mi dtv : pyval) (m dt : Q) :
  let o := dict_update (w_opts w) kwargs in
  _parse_kwargs kwargs = Ok tt ->
  _select_verbosity o = Ok vb ->
  domain_corners d = Some (map PyFloat xs) ->
  (0 <= h)%Q ->
  o !! "max_iter" = Some mi -> py_float mi = Ok m -> (0 <= m)%Q ->
  o !! "delta_t" = Some dtv -> py_float dtv = Ok dt ->
  o !! "pfix" = Some PyNone ->
  o !! "points" = Some (PyArray []) ->
  (size comm <= 1)%nat ->
  generate_mesh fuel d (SizingScalar h) comm kwargs w
  = (Raise (AssertionError "No vertices to mesh with!"), stored kwargs w).
Proof.
  intros o Hp Hv Hd Hh Hmi Hm Hm0 Hdt Hdt' Hpfix Hpts Hs.
  assert (Hlen : Nat.even (length xs) = true).
  { destruct d; simpl in Hd; try discriminate; injection Hd as Hd;
      apply (f_equal (@length _)) in Hd; rewrite length_map in Hd;
      simpl in Hd; rewrite <- Hd; reflexivity. }
  rewrite (generate_mesh_with_user_points fuel d h comm kwargs w vb (domain_eval d) xs
             mi dtv m dt []); try assumption; try reflexivity.
  - apply unpack_domain_float_corners. exact Hd.
  - apply Qltb_ge. exact Hh.
  - apply Qltb_ge. exact Hm0.
Qed.

(** X23.  The dimension of the box is not validated: a callable domain
    with a stored [bbox] of floats that is neither a rectangle (four
    entries) nor a cuboid (six) passes the validation, and the call fails
    with a [TypeError] at the first triangulation, [_select_cgal_dim]
    having answered [None] for the class of the triangulation. *)
Theorem box_of_unsupported_dimension_raises_TypeError
    (fuel : nat) (fd : point -> Q) (h : Q) (comm : comm_t) (kwargs : kwargs_t)
    (w : world) (vb : bool * bool) (xs : list Q) (mi dtv : pyval) (m dt : Q)
    (pts : list point) :
  let o := dict_update (w_opts w) kwargs in
  _parse_kwargs kwargs = Ok tt ->
  _select_verbosity o = Ok vb ->
  o !! "bbox" = Some (PyTuple (map PyFloat xs)) ->
  Nat.even (length xs) = true ->
  (length xs / 2)%nat <> 2%nat -> (length xs / 2)%nat <> 3%nat ->
  (0 <= h)%Q ->
  o !! "max_iter" = Some mi -> py_float mi = Ok m -> (0 <= m)%Q ->
  o !! "delta_t" = Some dtv -> py_float dtv = Ok dt ->
  o !! "pfix" = Some PyNone ->
  o !! "points" = Some (PyArray pts) -> pts <> [] ->
  (size comm <= 1)%nat -> (0 < fuel)%nat ->
  generate_mesh fuel (DomainCallable fd) (SizingScalar h) comm kwargs w
  = (Raise TypeError, stored kwargs w).
Proof.
  intros o Hp Hv Hb Hxs H2 H3 Hh Hmi Hm Hm0 Hdt Hdt' Hpfix Hpts Hne Hs Hfuel.
  rewrite (generate_mesh_with_user_points fuel (DomainCallable fd) h comm kwargs w vb fd xs
             mi dtv m dt pts); try assumption; try reflexivity.
  - destruct pts as [|x pts]; [congruence|]. cbn [length Nat.ltb Nat.leb].
    destruct fuel as [|fuel]; [lia|].
    cbn [generate_mesh_loop]. unfold generate_mesh_body, _select_cgal_dim.
    apply Nat.eqb_neq in H2, H3. rewrite H2, H3. reflexivity.
  - unfold _unpack_domain. rewrite !bind_assoc, bind_opt.
    change (w_opts (stored kwargs w)) with o. unfold getitem. rewrite Hb.
    rewrite bind_ret, bind_lift. cbn [snd]. rewrite check_bbox_floats. reflexivity.
  - apply Qltb_ge. exact Hh.
  - apply Qltb_ge. exact Hm0.
Qed.

End UserPoints.

(** ** TRIM on a connectivity that points past the points *)

Lemma rmap_raise {A B} (f : A -> result B) (l : list A) (e : exn) :
  (forall a, In a l -> f a = Raise e \/ exists b, f a = Ok b) ->
  (exists a, In a l /\ f a = Raise e) ->
  rmap f l = Raise e.
Proof.
  induction l as [|a l IH]; intros Hall (x & Hx & Ex); [destruct Hx|].
  simpl. destruct (Hall a (or_introl eq_refl)) as [Ea|[b Ea]]; rewrite Ea; [reflexivity|].
  simpl. destruct Hx as [->|Hx]; [congruence|].
  rewrite IH; [reflexivity| |exists x; split; assumption].
  intros y Hy. apply Hall. right. exact Hy.
Qed.

Lemma take_rows_cases {A} (p : list A) (ix : list nat) :
  take_rows p ix = Raise IndexError \/ exists r, take_rows p ix = Ok r.
Proof.
  unfold take_rows. induction ix as [|i ix IH]; simpl; [right; eexists; reflexivity|].
  destruct (p !! i); simpl; [|left; reflexivity].
  destruct IH as [->|[r ->]]; simpl; [left; reflexivity|right; eexists; reflexivity].
Qed.

(** X24.  TRIM does not drop a cell that names a vertex the point array
    does not have: it raises an [IndexError]. *)
Theorem remove_triangles_outside_raises_past_the_points
    (p : list point) (t : list cell) (fd : point -> Q) (geps : Q) :
  (exists c i, In c t /\ In i c /\ (length p <= i)%nat) ->
  _remove_triangles_outside p t fd geps = Raise IndexError.
Proof.
  intros (c & i & Hc & Hi & Hle).
  unfold _remove_triangles_outside.
  rewrite (rmap_raise (take_rows p) t IndexError); [reflexivity| |].
  - intros a _. apply take_rows_cases.
  - exists c. split; [exact Hc|].
    unfold take_rows. apply rmap_raise.
    + intros j _. destruct (p !! j); [right; eexists; reflexivity|left; reflexivity].
    + exists i. split; [exact Hi|].
      rewrite (proj2 (lookup_ge_None p i)) by exact Hle. reflexivity.
Qed.

(** ** The state after [sliver_removal] *)

Section SliverState.

Context `{Ext : Externals}.

(** X25.  On the coordinator rank [sliver_removal] changes the stored
    configuration and nothing else: it issues no warning and draws no
    random number, whether it returns, raises or is still running. *)
Theorem sliver_removal_changes_the_configuration_only
    (fuel : nat) (points : list point) (domain : domain_arg)
    (edge_length : sizing_arg) (comm : comm_t) (kwargs : kwargs_t) (w : world) :
  rank comm = 0%nat ->
  (sliver_removal fuel points domain edge_length comm kwargs w).2 = stored kwargs w.
Proof.
  intros Hr. unfold sliver_removal. rewrite Hr. cbn [Nat.ltb Nat.leb].
  rewrite bind_opts_update. fold (stored kwargs w).
  match goal with |- (?m _).2 = _ => change (frame_at (stored kwargs w) m) end.
  repeat first
    [ apply frame_at_frame;
      first [ apply frame_lift | intros ?; reflexivity ]
    | apply frame_at_bind;
      [ first [ apply frame_lift | apply frame_opt | apply frame_unpack_domain
              | match goal with
                | |- frame ?m => assert (Hval : validates m) by validating; apply Hval
                end ]
      | intros ? _ ]
    | progress lazy zeta
    | match goal with
      | |- frame_at _ (if ?b then _ else _) => destruct b
      | |- frame_at _ (match ?x with _ => _ end) => destruct x
      end ].
Qed.

End SliverState.

(** ** Sums *)

Lemma qsum_fold (l : list Q) (a : Q) : (fold_left Qplus l a == a + qsum l)%Q.
Proof.
  unfold qsum. revert a. induction l as [|x l IH]; intros a; simpl.
  - rewrite Qplus_0_r. reflexivity.
  - rewrite (IH (a + x)%Q), (IH (0 + x)%Q). ring.
Qed.

Lemma qsum_cons (x : Q) (l : list Q) : (qsum (x :: l) == x + qsum l)%Q.
Proof. unfold qsum at 1. simpl. rewrite qsum_fold. ring. Qed.

Lemma qsum_app (l1 l2 : list Q) : (qsum (l1 ++ l2) == qsum l1 + qsum l2)%Q.
Proof.
  induction l1 as [|x l1 IH]; simpl.
  - unfold qsum at 2. simpl. ring.
  - rewrite !qsum_cons, IH. ring.
Qed.

Lemma qsum_vneg (l : list Q) : (qsum (vneg l) == - qsum l)%Q.
Proof.
  induction l as [|x l IH]; simpl.
  - reflexivity.
  - rewrite !qsum_cons, IH. ring.
Qed.

Lemma Qsq_nonneg (x : Q) : (0 <= x * x)%Q.
Proof. destruct x as [n d]. unfold Qle, Qmult. simpl. nia. Qed.

Lemma Qsq_pos (x : Q) : ~ (x == 0)%Q -> (0 < x * x)%Q.
Proof. destruct x as [n d]. unfold Qeq, Qlt, Qmult. simpl. intros H. nia. Qed.

Lemma qsum_squares_nonneg (l : list Q) : (0 <= qsum (map (fun x => qpow x 2) l))%Q.
Proof.
  induction l as [|x l IH]; simpl; [discriminate|].
  rewrite qsum_cons.
  apply (Qplus_le_compat 0 (qpow x 2) 0); [apply Qsq_nonneg|exact IH].
Qed.

Lemma qsum_squares_pos (d : list Q) :
  (0 < qsum (map (fun x => qpow x 2) d))%Q
  <-> exists k a, d !! k = Some a /\ ~ (a == 0)%Q.
Proof.
  induction d as [|x d IH]; simpl.
  - split; [discriminate|]. intros (k & a & H & _). discriminate.
  - rewrite qsum_cons. split.
    + intros H. destruct (Qeq_dec x 0) as [E|E].
      * assert (H' : (0 < qsum (map (fun x => qpow x 2) d))%Q).
        { apply Qlt_le_trans with (qpow x 2 + qsum (map (fun x => qpow x 2) d))%Q;
            [exact H|].
          rewrite <- (Qplus_0_l (qsum (map (fun x => qpow x 2) d))) at 2.
          apply Qplus_le_compat; [|apply Qle_refl].
          change (qpow x 2) with (x * x)%Q. rewrite E. discriminate. }
        apply IH in H' as (k & a & Hk & Ha). exists (S k), a. split; assumption.
      * exists 0%nat, x. split; [reflexivity|exact E].
    + intros (k & a & Hk & Ha). destruct k as [|k]; simpl in Hk.
      * injection Hk as ->.
        apply Qlt_le_trans with (qpow a 2).
        -- apply Qsq_pos. exact Ha.
        -- rewrite <- (Qplus_0_r (qpow a 2)) at 1.
           apply Qplus_le_compat; [apply Qle_refl|apply qsum_squares_nonneg].
      * apply Qlt_le_trans with (qsum (map (fun x => qpow x 2) d)).
        -- apply IH. exists k, a. split; assumption.
        -- rewrite <- (Qplus_0_l (qsum (map (fun x => qpow x 2) d))) at 1.
           apply Qplus_le_compat; [apply Qsq_nonneg|apply Qle_refl].
Qed.

Lemma rmap_app {A B} (f : A -> result B) (l1 l2 : list A) (r1 r2 : list B) :
  rmap f l1 = Ok r1 -> rmap f l2 = Ok r2 -> rmap f (l1 ++ l2) = Ok (r1 ++ r2).
Proof.
  revert r1. induction l1 as [|a l1 IH]; simpl; intros r1 H1 H2.
  - injection H1 as <-. exact H2.
  - apply bind_Ok_inv in H1 as (b & Hb & H1).
    apply bind_Ok_inv in H1 as (bs & Hbs & H1). injection H1 as <-.
    rewrite Hb. simpl. rewrite (IH bs Hbs H2). reflexivity.
Qed.

Lemma rmap_repeat {A B} (f : A -> result B) (a : A) (b : B) (n : nat) :
  f a = Ok b -> rmap f (repeat a n) = Ok (repeat b n).
Proof.
  intros H. induction n as [|n IH]; simpl; [reflexivity|].
  rewrite H. simpl. rewrite IH. reflexivity.
Qed.

(** ** The assembly of the forces, and the vertices that moved *)

Section Assembly.

Context `{Ext : Externals}.

(** X26.  Action and reaction: what [_compute_forces] hands to
    [mutils.dense] gives, for every bar, the force vector [f] to the first
    end of the bar and [-f] to the second, coordinate by coordinate, so
    the entries of a bar sum to zero. *)
Theorem compute_forces_action_and_reaction
    (p : list point) (t : list cell) (fh : point -> Q) (h0 L0mult : Q)
    (Ftot : list point) :
  _compute_forces p t fh h0 L0mult = Ok Ftot ->
  let dim := shape1 p in
  exists (b : bars) (I : list (list nat)) (S : list (list Q)),
    _compute_forces_bars p t fh h0 L0mult = Ok b
    /\ Ftot = dense I (repeat (seq 0 dim ++ seq 0 dim) (length (b_F b))) S
                    (length p, dim)
    /\ forall k e f,
         b_edges b !! k = Some e -> b_Fvec b !! k = Some f ->
         exists a c,
           e !! 0%nat = Some a /\ e !! 1%nat = Some c
           /\ I !! k = Some (repeat a dim ++ repeat c dim)
           /\ S !! k = Some (f ++ vneg f)
           /\ (qsum (f ++ vneg f) == 0)%Q.
Proof.
  intros H. cbv zeta. unfold _compute_forces in H. set (dim := shape1 p) in *.
  apply bind_Ok_inv in H as (b & Hb & H). cbv zeta in H.
  apply bind_Ok_inv in H as (I & HI & H). injection H as <-.
  exists b, I, (zip_with app (b_Fvec b) (map vneg (b_Fvec b))).
  split; [exact Hb|]. split; [reflexivity|].
  intros k e f He Hf.
  assert (Hcol : exists e0 e1, col (b_edges b) 0 = Ok e0 /\ col (b_edges b) 1 = Ok e1).
  { unfold _compute_forces_bars in Hb.
    apply bind_Ok_inv in Hb as (edges & _ & Hb).
    apply bind_Ok_inv in Hb as (e0 & H0 & Hb).
    apply bind_Ok_inv in Hb as (e1 & H1 & Hb).
    apply bind_Ok_inv in Hb as (p0 & _ & Hb).
    apply bind_Ok_inv in Hb as (p1 & _ & Hb).
    apply bind_Ok_inv in Hb as (pe & _ & Hb).
    injection Hb as <-. exists e0, e1. split; assumption. }
  destruct Hcol as (e0 & e1 & H0 & H1).
  assert (Ha : exists a, e !! 0%nat = Some a).
  { apply rmap_Forall2 in H0.
    destruct (Forall2_lookup_l _ _ _ _ _ H0 He) as (a & _ & Ha).
    destruct (e !! 0%nat) as [x|]; [exists x; reflexivity|discriminate]. }
  assert (Hc : exists c, e !! 1%nat = Some c).
  { apply rmap_Forall2 in H1.
    destruct (Forall2_lookup_l _ _ _ _ _ H1 He) as (c & _ & Hc).
    destruct (e !! 1%nat) as [x|]; [exists x; reflexivity|discriminate]. }
  destruct Ha as [a Ha]. destruct Hc as [c Hc].
  exists a, c. split; [exact Ha|]. split; [exact Hc|]. split; [|split].
  - apply rmap_Forall2 in HI.
    destruct (Forall2_lookup_l _ _ _ _ _ HI He) as (r & Hr & Er).
    rewrite Hr. f_equal.
    assert (E : take_rows e (repeat 0%nat dim ++ repeat 1%nat dim)
                = Ok (repeat a dim ++ repeat c dim)).
    { unfold take_rows. apply rmap_app; apply rmap_repeat.
      - rewrite Ha. reflexivity.
      - rewrite Hc. reflexivity. }
    rewrite E in Er. injection Er as <-. reflexivity.
  - rewrite lookup_zip_with, Hf. simpl. rewrite lookup_map, Hf. reflexivity.
  - rewrite qsum_app, qsum_vneg. ring.
Qed.

(** X27.  The vertices the loop of [sliver_removal] hands to the
    incremental triangulation are the ones that moved: with a square root
    that is positive exactly on positive numbers, row [i] is listed in
    [np.where(_dist(p, pold) > 0)] exactly when [p] and [pold] differ in
    some coordinate of that row. *)
Theorem moved_vertices_are_the_ones_retriangulated
    (p pold : list point) (i : nat) (x y : point) :
  Forall (fun d => let s := qsum (map (fun c => qpow c 2) d) in
                   (0 < np_sqrt s)%Q <-> (0 < s)%Q)
         (zip_with vsub p pold) ->
  p !! i = Some x -> pold !! i = Some y ->
  In i (np_where (map (fun d => Qltb 0 d) (_dist p pold)))
  <-> exists k a b, x !! k = Some a /\ y !! k = Some b /\ ~ (a == b)%Q.
Proof.
  intros Hsqrt Hx Hy.
  rewrite np_where_spec. unfold _dist. rewrite !lookup_map, lookup_zip_with, Hx.
  simpl. rewrite Hy. simpl.
  assert (Hd : In (vsub x y) (zip_with vsub p pold)).
  { apply list_elem_of_In, list_elem_of_lookup. exists i.
    rewrite lookup_zip_with, Hx. simpl. rewrite Hy. reflexivity. }
  rewrite List.Forall_forall in Hsqrt. specialize (Hsqrt _ Hd). cbv zeta in Hsqrt.
  split.
  - intros H. injection H as H. apply Qltb_lt, Hsqrt, qsum_squares_pos in H.
    destruct H as (k & d & Hk & Hne).
    unfold vsub in Hk. rewrite lookup_zip_with in Hk.
    destruct (x !! k) as [a|] eqn:Ea; [|discriminate]. simpl in Hk.
    destruct (y !! k) as [b|] eqn:Eb; [|discriminate]. simpl in Hk.
    injection Hk as <-. exists k, a, b.
    split; [exact Ea|]. split; [exact Eb|].
    intros E. apply Hne. rewrite E. ring.
  - intros (k & a & b & Ha & Hb & Hne). f_equal.
    apply Qltb_lt, Hsqrt, qsum_squares_pos.
    exists k, (a - b)%Q. split.
    + unfold vsub. rewrite lookup_zip_with, Ha. simpl. rewrite Hb. reflexivity.
    + intros E. apply Hne.
      assert (E' : (a == (a - b) + b)%Q) by ring. rewrite E', E. ring.
Qed.

End Assembly.

(** * Runs on concrete inputs *)

(** ** TRIM on the unit square cut by the half plane [x < 1/2] *)

Lemma remove_triangles_outside_example :
  let p := [[0; 0]; [1; 0]; [0; 1]; [1; 1]]%Q in
  let t := [[0; 1; 2]; [1; 3; 2]]%nat in
  let fd := fun x : list Q => (nth 0 x 0 - (1 # 2))%Q in
  mesh_wf p t /\ _remove_triangles_outside p t fd (1 # 20) = Ok [[0; 1; 2]%nat].
Proof.
  intros p t fd.
  assert (H : mesh_wf p t).
  { split; repeat constructor; simpl; lia. }
  split; [exact H|].
  destruct (remove_triangles_outside_keeps_interior p t fd (1 # 20) H) as [E _].
  rewrite E. reflexivity.
Defined.

(** ** The bar forces of one triangle *)


(** ** [max_iter = 0] *)

Lemma generate_mesh_max_iter_zero_example :
  let kwargs := [("max_iter", PyInt 0); ("points", PyArray Example.triangle)] in
  dict_update (w_opts (fresh_world 0)) kwargs !! "max_iter" = Some (PyInt 0)
  /\ (generate_mesh (Ext := Example.externals) 3 Example.unit_square
                    (SizingScalar (1 # 2)) (Comm 0 1) kwargs (fresh_world 0)).1
     <> Ok (Example.triangle, [[0; 1; 2]%nat]).
Proof.
  intros kwargs.
  assert (H : dict_update (w_opts (fresh_world 0)) kwargs !! "max_iter" = Some (PyInt 0)).
  { vm_compute. reflexivity. }
  split; [exact H|].
  apply (generate_mesh_max_iter_zero_never_returns
           3 Example.unit_square (SizingScalar (1 # 2)) (Comm 0 1) kwargs
           (fresh_world 0) H).
Defined.

(** After sixty passes of the body the loop is still running. *)
Lemma generate_mesh_max_iter_zero_runs_on :
  (generate_mesh (Ext := Example.externals) 60 Example.unit_square
                 (SizingScalar (1 # 2)) (Comm 0 1)
                 [("max_iter", PyInt 0); ("points", PyArray Example.triangle)]
                 (fresh_world 0)).1
  = NoFuel.
Proof. vm_compute. reflexivity. Qed.

(** With [max_iter = 1] the same call returns after one pass. *)
Lemma generate_mesh_max_iter_one_example :
  (generate_mesh (Ext := Example.externals) 1 Example.unit_square
                 (SizingScalar (1 # 2)) (Comm 0 1)
                 [("max_iter", PyInt 1); ("points", PyArray Example.triangle)]
                 (fresh_world 0)).1
  = Ok (Example.triangle, [[0; 1; 2]%nat]).
Proof. vm_compute. reflexivity. Qed.

(** ** An unrecognized keyword *)



(** ** Sliver removal away from the coordinator *)

Lemma sliver_removal_rank_one_example :
  (0 < rank (Comm 1 2))%nat
  /\ sliver_removal (Ext := Example.externals) 5 Example.tetra Example.unit_cube
                    (SizingScalar (1 # 2)) (Comm 1 2) [] (fresh_world 0)
     = (Ok TrueTrue,
        World opts 0 ["Sliver removal only works in serial for now"]).
Proof.
  assert (H : (0 < rank (Comm 1 2))%nat) by (simpl; lia).
  split; [exact H|].
  exact (sliver_removal_non_coordinator
           (Ext := Example.externals) 5 Example.tetra Example.unit_cube
           (SizingScalar (1 # 2)) (Comm 1 2) [] (fresh_world 0) H).
Defined.

(** On rank 2 of 3 no warning is issued: not every non-coordinator rank
    warns. *)
Lemma sliver_removal_rank_two_is_silent :
  let r := sliver_removal (Ext := Example.externals) 5 Example.tetra Example.unit_cube
                          (SizingScalar (1 # 2)) (Comm 2 3) [] (fresh_world 0) in
  r.1 = Ok TrueTrue /\ w_warnings r.2 = w_warnings (fresh_world 0)
  /\ w_warnings r.2 = [].
Proof. vm_compute. repeat split; reflexivity. Qed.

(** ** Fixed points in parallel *)



(** ** Determinism *)

Lemma generate_mesh_deterministic_example :
  let w1 := fresh_world 1 in
  let w2 := World opts 2 ["an earlier warning"] in
  let call :=
    generate_mesh (Ext := Example.externals) 1 Example.unit_square
                  (SizingScalar (1 # 2)) (Comm 0 1) [("max_iter", PyInt 1)] in
  w_opts w1 = w_opts w2 /\ (call w1).1 = (call w2).1.
Proof.
  intros w1 w2 call.
  assert (H : w_opts w1 = w_opts w2) by reflexivity.
  split; [exact H|].
  exact (proj1 (generate_mesh_deterministic
                  (Ext := Example.externals) 1 Example.unit_square
                  (SizingScalar (1 # 2)) (Comm 0 1) [("max_iter", PyInt 1)]
                  w1 w2 H)).
Defined.

(** ** Persistence of a keyword *)

Lemma keyword_arguments_persist_example :
  let kwargs1 := [("max_iter", PyInt 7)] in
  let kwargs2 := [("seed", PyInt 3)] in
  let call1 :=
    generate_mesh (Ext := Example.externals) 0 Example.unit_square
                  (SizingScalar (1 # 2)) (Comm 0 1) kwargs1 in
  let call2 :=
    generate_mesh (Ext := Example.externals) 0 Example.unit_square
                  (SizingScalar (1 # 2)) (Comm 0 1) kwargs2 in
  (NoDup (map fst kwargs1) /\ In ("max_iter", PyInt 7) kwargs1
   /\ ~ In "max_iter" (map fst kwargs2))
  /\ w_opts (call2 (call1 (fresh_world 0)).2).2 !! "max_iter" = Some (PyInt 7).
Proof.
  intros kwargs1 kwargs2 call1 call2.
  assert (H1 : NoDup (map fst kwargs1)).
  { constructor; [intros H; inversion H|constructor]. }
  assert (H2 : In ("max_iter", PyInt 7) kwargs1) by (left; reflexivity).
  assert (H3 : ~ In "max_iter" (map fst kwargs2)).
  { intros [H|[]]. discriminate H. }
  split; [auto|].
  exact (proj1 (proj2 (keyword_arguments_persist
                         (Ext := Example.externals) 0 0 [] []
                         Example.unit_square Example.unit_square
                         (SizingScalar (1 # 2)) (SizingScalar (1 # 2))
                         (Comm 0 1) kwargs1 kwargs2 "max_iter" (PyInt 7)
                         (fresh_world 0) H1 H2 H3))).
Defined.

(** ** Sliver removal of a regular tetrahedron *)


(** ** A boundary vertex and the stale residual

    The vertex [(1, 0)] is on the level set after the first pass; the nine
    passes that follow still use the residual measured at the start and
    carry it away, to [(0, 9)].  The vertex that is not on the boundary
    stays where it is. *)

Lemma improve_level_set_newton_frame_example :
  let fd := fun x : list Q => nth 0 x 0%Q in
  _improve_level_set_newton (Ext := Example.externals) Example.triangle
                            [[1; 1; 1]%nat] fd 1 (1 # 2)
  = Ok [[0; 0]; [0; 9]; [0; 1]]%Q
  /\ ([[0; 0]; [0; 9]; [0; 1]]%Q : list (list Q)) !! 2%nat
     = Example.triangle !! 2%nat.
Proof.
  intros fd.
  assert (E : _improve_level_set_newton (Ext := Example.externals) Example.triangle
                [[1; 1; 1]%nat] fd 1 (1 # 2)
              = Ok [[0; 0]; [0; 9]; [0; 1]]%Q) by (vm_compute; reflexivity).
  split; [exact E|].
  destruct (improve_level_set_newton_moves_boundary_only
              (Ext := Example.externals) _ _ _ _ _ _ E) as [_ H].
  apply H. vm_compute. intros [H1|[]]. discriminate H1.
Defined.

Lemma improve_level_set_newton_passes_example :
  let fd := fun x : list Q => nth 0 x 0%Q in
  take_rows Example.triangle
            (get_boundary_vertices (Externals := Example.externals) [[1; 1; 1]%nat] 2)
  = Ok [[1; 0]%Q]
  /\ _improve_level_set_newton (Ext := Example.externals) Example.triangle
                               [[1; 1; 1]%nat] fd 1 (1 # 2)
     = improve_passes 10 2 Example.triangle [1%nat] [1%Q] fd 1.
Proof.
  intros fd.
  assert (E : take_rows Example.triangle
                (get_boundary_vertices (Externals := Example.externals)
                   [[1; 1; 1]%nat] (shape1 Example.triangle))
              = Ok [[1; 0]%Q]) by (vm_compute; reflexivity).
  split; [exact E|].
  destruct (improve_level_set_newton_zero_or_ten_passes
              (Ext := Example.externals) Example.triangle [[1; 1; 1]%nat] fd 1 (1 # 2)
              [[1; 0]%Q] E) as (_ & _ & H).
  apply H. exists [1; 0]%Q. split; [left; reflexivity|reflexivity].
Defined.

(** ** The perturbation of one sliver *)

Lemma sliver_perturb_example :
  exists p',
    sliver_perturb (Ext := Example.externals) (1 # 2) Example.tetra
                   [[0; 1; 2; 3]%nat] [0%nat] [0%nat] = Ok p'
    /\ length p' = 4%nat /\ p' !! 3%nat = Some [1 # 4; 1 # 4; 3 # 4]%Q.
Proof.
  assert (E : exists p',
             sliver_perturb (Ext := Example.externals) (1 # 2) Example.tetra
                            [[0; 1; 2; 3]%nat] [0%nat] [0%nat] = Ok p').
  { vm_compute. eexists. reflexivity. }
  destruct E as [p' E]. exists p'. split; [exact E|].
  destruct (sliver_perturb_moves_listed_only
              (Ext := Example.externals) _ _ _ _ _ _ E) as [L F].
  split; [exact L|].
  rewrite (F 3%nat); [reflexivity|].
  intros [H|[]]. discriminate H.
Defined.

(** ** A tetrahedron with every angle below the lower bound *)

Lemma sliver_elements_example :
  sliver_elements (Ext := Example.externals) Example.tetra [[0; 1; 2; 3]%nat] 2 3
  = Ok [0%nat]
  /\ exists dh,
       col (calc_dihedral_angles (Externals := Example.externals)
              Example.tetra [[0; 1; 2; 3]%nat]) 0 = Ok dh
       /\ exists k a, (k < 6)%nat /\ dh !! (6 * 0 + k)%nat = Some a
                      /\ ((a < 2)%Q \/ (3 < a)%Q).
Proof.
  assert (E : sliver_elements (Ext := Example.externals) Example.tetra
                [[0; 1; 2; 3]%nat] 2 3 = Ok [0%nat]) by (vm_compute; reflexivity).
  split; [exact E|].
  destruct (sliver_elements_flags_out_of_bound_cells
              (Ext := Example.externals) _ _ _ _ _ E) as (dh & Hdh & _ & H).
  exists dh. split; [exact Hdh|].
  apply H. left. reflexivity.
Defined.

(** ** The bars of one triangle *)

Lemma get_edges_example :
  exists edges,
    _get_edges (Ext := Example.externals) [[0; 1; 2]%nat]
    = Ok (unique_edges (Externals := Example.externals) edges)
    /\ length edges = 3%nat.
Proof.
  assert (H : Forall (fun c : list nat => length c = 3%nat) [[0; 1; 2]%nat]).
  { repeat constructor. }
  destruct (get_edges_are_the_sides_of_the_cells
              (Ext := Example.externals) [[0; 1; 2]%nat] 3 (or_introl eq_refl) H)
    as (edges & E & L & _).
  exists edges. split; [exact E|exact L].
Defined.

(** ** The extents of a triangle on two ranks *)

Lemma form_extents_example :
  exists ext,
    _form_extents (Ext := Example.externals) Example.triangle (1 # 10) (Comm 0 2)
                  (fresh_world 0)
    = (Ok (map (fun r => bcast (Externals := Example.externals) (Comm 0 2) ext r)
               (seq 0 2)),
       fresh_world 0)
    /\ length ext = 4%nat.
Proof.
  assert (H1 : (1 < size (Comm 0 2))%nat) by (simpl; lia).
  assert (H2 : w_opts (fresh_world 0) !! "axis" = Some (PyInt 1))
    by (vm_compute; reflexivity).
  assert (H3 : Example.triangle <> []) by discriminate.
  destruct (form_extents_is_the_widened_bounding_box
              (Ext := Example.externals) Example.triangle (1 # 10) (Comm 0 2)
              (fresh_world 0) 1 H1 H2 H3) as [H _].
  destruct H as (ext & E & L & _); [unfold shape1, Example.triangle; simpl; lia|].
  exists ext. split; [exact E|exact L].
Defined.

(** ** The initial points of the unit square *)

Lemma generate_initial_points_example :
  let square := Example.box_eval (PyTuple [PyFloat 0; PyFloat 1; PyFloat 0; PyFloat 1]) in
  let fh := fun _ : list Q => (1 # 2)%Q in
  let run :=
    _generate_initial_points (Ext := Example.externals) (1 # 2) (1 # 20) 2
                             [[0; 1]; [0; 1]]%Q fh square [[1 # 4; 1 # 4]%Q]
                             (Comm 0 1) opts (fresh_world 5) in
  let grid := [[0; 0]; [0; 1 # 2]; [0; 1]; [1 # 2; 0]; [1 # 2; 1 # 2]; [1 # 2; 1];
               [1; 0]; [1; 1 # 2]; [1; 1]]%Q in
  run = (Ok (fh, [1 # 4; 1 # 4]%Q :: grid, []), World opts 794471793 [])
  /\ exists q, [1 # 4; 1 # 4]%Q :: grid = [[1 # 4; 1 # 4]%Q] ++ q
               /\ forall x, In x q -> (square x < 1 # 20)%Q.
Proof.
  intros square fh run grid.
  assert (E : run = (Ok (fh, [1 # 4; 1 # 4]%Q :: grid, []), World opts 794471793 []))
    by (vm_compute; reflexivity).
  split; [exact E|].
  assert (Hs : (size (Comm 0 1) <= 1)%nat) by (simpl; lia).
  destruct (generate_initial_points_are_fixed_then_interior
              (Ext := Example.externals) _ _ _ _ _ _ _ _ _ _ _ _ _ _ Hs E)
    as (_ & (q & Hq & _ & Hin) & _).
  exists q. split; [exact Hq|exact Hin].
Defined.

Lemma generate_initial_points_outside_example :
  _generate_initial_points (Ext := Example.externals) (1 # 2) (1 # 20) 2
                           [[0; 1]; [0; 1]]%Q (fun _ => (1 # 2)%Q) (fun _ => 1%Q) []
                           (Comm 0 1) opts (fresh_world 5)
  = (Raise (ValueError
              "zero-size array to reduction operation minimum which has no identity" []),
     fresh_world 5).
Proof.
  apply (generate_initial_points_without_interior_point_raises
           (Ext := Example.externals)).
  - simpl. lia.
  - intros x _. discriminate.
Defined.


(** ** A verbosity level below zero *)

Lemma unknown_verbosity_level_example :
  let e := ValueError "Unknown verbosity level" [] in
  let w1 := stored [("verbose", PyInt (-1))] (fresh_world 0) in
  generate_mesh (Ext := Example.externals) 1 Example.unit_square (SizingScalar (1 # 2))
                (Comm 0 1) [("verbose", PyInt (-1))] (fresh_world 0)
  = (Raise e, w1)
  /\ generate_mesh (Ext := Example.externals) 1 Example.unit_square
                   (SizingScalar (1 # 2)) (Comm 0 1) [("max_iter", PyInt 1)] w1
     = (Raise e, stored [("max_iter", PyInt 1)] w1).
Proof.
  intros e w1.
  apply (unknown_verbosity_level_persists
           (Ext := Example.externals) 1 1 Example.unit_square Example.unit_square
           (SizingScalar (1 # 2)) (SizingScalar (1 # 2)) (Comm 0 1) (Comm 0 1)
           [("verbose", PyInt (-1))] [("max_iter", PyInt 1)] (fresh_world 0)
           (PyInt (-1)) (inject_Z (-1))).
  - reflexivity.
  - reflexivity.
  - vm_compute. reflexivity.
  - reflexivity.
  - left. reflexivity.
  - simpl. intros [H|[]]. discriminate H.
Defined.

(** ** Missing keywords *)

Lemma callable_domain_without_bbox_example :
  generate_mesh (Ext := Example.externals) 1 (DomainCallable (fun _ => (-1)%Q))
                (SizingScalar (1 # 2)) (Comm 0 1) [] (fresh_world 0)
  = (Raise (KeyError "bbox"), stored [] (fresh_world 0)).
Proof.
  apply (callable_domain_without_bbox_raises_KeyError
           (Ext := Example.externals) 1 _ _ _ [] (fresh_world 0) (talk, silence)).
  - reflexivity.
  - vm_compute. reflexivity.
  - vm_compute. reflexivity.
Defined.

Lemma callable_edge_length_without_h0_example :
  generate_mesh (Ext := Example.externals) 1 Example.unit_square
                (SizingCallable (fun _ => (1 # 2)%Q)) (Comm 0 1) [] (fresh_world 0)
  = (Raise (KeyError "h0"), stored [] (fresh_world 0)).
Proof.
  apply (callable_edge_length_without_h0_raises_KeyError
           (Ext := Example.externals) 1 Example.unit_square [0; 1; 0; 1]%Q _ _ []
           (fresh_world 0) (talk, silence)).
  - reflexivity.
  - vm_compute. reflexivity.
  - reflexivity.
  - vm_compute. reflexivity.
Defined.

(** ** A rectangle with an integer corner *)

Lemma integer_corner_example :
  let rectangle :=
    Rectangle (PyInt 0) (PyFloat 1) (PyFloat 0) (PyFloat 1) (fun _ => (-1)%Q) in
  generate_mesh (Ext := Example.externals) 1 rectangle (SizingScalar (1 # 2))
                (Comm 0 1) [] (fresh_world 0)
  = (Raise (ValueError "bbox must contain all floats" []), stored [] (fresh_world 0)).
Proof.
  intros rectangle.
  apply (integer_corner_is_rejected
           (Ext := Example.externals) 1 rectangle
           [PyInt 0; PyFloat 1; PyFloat 0; PyFloat 1] _ _ [] (fresh_world 0)
           (talk, silence)).
  - reflexivity.
  - vm_compute. reflexivity.
  - reflexivity.
  - exists (PyInt 0). split; [left; reflexivity|reflexivity].
Defined.

(** ** Sliver removal of a triangle *)

Lemma sliver_removal_planar_example :
  sliver_removal (Ext := Example.externals) 1 Example.triangle Example.unit_square
                 (SizingScalar (1 # 2)) (Comm 0 1) [] (fresh_world 0)
  = (Raise (Exception "Mesh improvement currently on works in 3D"),
     stored [] (fresh_world 0)).
Proof.
  apply (sliver_removal_rejects_planar_points
           (Ext := Example.externals) 1 Example.triangle _ _ (Comm 0 1) []
           (fresh_world 0) (talk, silence)).
  - reflexivity.
  - reflexivity.
  - vm_compute. reflexivity.
  - reflexivity.
Defined.

(** ** Points of the user's and the random generator *)

Lemma user_points_generator_example :
  let kwargs := [("points", PyArray Example.triangle); ("max_iter", PyInt 1)] in
  w_rng (generate_mesh (Ext := Example.externals) 1 Example.unit_square
                       (SizingScalar (1 # 2)) (Comm 0 1) kwargs (fresh_world 5)).2
  = 5.
Proof.
  intros kwargs.
  rewrite (user_points_leave_the_generator_alone
             (Ext := Example.externals) 1 Example.unit_square (SizingScalar (1 # 2))
             (Comm 0 1) kwargs (fresh_world 5) (PyArray Example.triangle)).
  - reflexivity.
  - vm_compute. reflexivity.
  - reflexivity.
Defined.

(** ** Iteration counts *)

Lemma fractional_max_iter_example :
  let kwargs := [("points", PyArray Example.triangle); ("max_iter", PyFloat (5 # 2))] in
  (generate_mesh (Ext := Example.externals) 4 Example.unit_square
                 (SizingScalar (1 # 2)) (Comm 0 1) kwargs (fresh_world 0)).1
  <> Ok (Example.triangle, [[0; 1; 2]%nat]).
Proof.
  intros kwargs.
  apply (fractional_max_iter_never_returns
           (Ext := Example.externals) 4 Example.unit_square (SizingScalar (1 # 2))
           (Comm 0 1) kwargs (fresh_world 0) (PyFloat (5 # 2)) (5 # 2)).
  - vm_compute. reflexivity.
  - reflexivity.
  - intros c Hc H. unfold Qeq in H. simpl in H. lia.
Defined.

Lemma generate_mesh_ends_example :
  let kwargs := [("points", PyArray Example.triangle); ("max_iter", PyInt 2)] in
  (generate_mesh (Ext := Example.externals) 2 Example.unit_square
                 (SizingScalar (1 # 2)) (Comm 0 1) kwargs (fresh_world 0)).1
  <> NoFuel.
Proof.
  intros kwargs.
  apply (generate_mesh_ends_after_max_iter_passes
           (Ext := Example.externals) 2 Example.unit_square (SizingScalar (1 # 2))
           (Comm 0 1) kwargs (fresh_world 0) (PyInt 2) (inject_Z 2) 2).
  - vm_compute. reflexivity.
  - reflexivity.
  - reflexivity.
  - lia.
  - simpl. lia.
Defined.

Lemma sliver_removal_ends_example :
  let kwargs := [("max_iter", PyInt 2)] in
  (sliver_removal (Ext := Example.externals) 2 Example.tetra Example.unit_cube
                  (SizingScalar (1 # 2)) (Comm 0 1) kwargs (fresh_world 0)).1
  <> NoFuel.
Proof.
  intros kwargs.
  apply (sliver_removal_ends_within_max_iter_passes
           (Ext := Example.externals) 2 Example.tetra Example.unit_cube
           (SizingScalar (1 # 2)) (Comm 0 1) kwargs (fresh_world 0)
           (PyInt 2) (inject_Z 2) 2).
  - reflexivity.
  - vm_compute. reflexivity.
  - reflexivity.
  - reflexivity.
  - lia.
  - simpl. lia.
Defined.

(** ** A disk in a padded box *)

Lemma padded_domain_example :
  let disk :=
    Disk (PyFloat 0) (PyFloat 1) (PyFloat 0) (PyFloat 1)
         (fun x => ((nth 0 x 0 - (1 # 2)) * (nth 0 x 0 - (1 # 2))
                    + (nth 1 x 0 - (1 # 2)) * (nth 1 x 0 - (1 # 2)) - (1 # 4))%Q) in
  let sizing :=
    SizeFunction (PyTuple [PyFloat 0; PyFloat 2; PyFloat 0; PyFloat 2])
                 (fun _ => (1 # 2)%Q) in
  let kwargs := [("h0", PyFloat (1 # 2)); ("max_iter", PyInt 1)] in
  generate_mesh (Ext := Example.externals) 1 disk sizing (Comm 0 1) kwargs (fresh_world 0)
  = generate_mesh (Ext := Example.externals) 1 Example.unit_square sizing (Comm 0 1)
                  kwargs (fresh_world 0).
Proof.
  intros disk sizing kwargs.
  apply (padded_domain_is_meshed_as_its_box
           (Ext := Example.externals) 1 disk Example.unit_square
           [PyFloat 0; PyFloat 1; PyFloat 0; PyFloat 1]).
  - reflexivity.
  - reflexivity.
  - reflexivity.
  - vm_compute. reflexivity.
Defined.

(** ** An empty array of points, and a box on the line *)

Lemma empty_user_points_example :
  generate_mesh (Ext := Example.externals) 1 Example.unit_square (SizingScalar (1 # 2))
                (Comm 0 1) [("points", PyArray [])] (fresh_world 0)
  = (Raise (AssertionError "No vertices to mesh with!"),
     stored [("points", PyArray [])] (fresh_world 0)).
Proof.
  apply (empty_user_points_fail_the_assertion
           (Ext := Example.externals) 1 Example.unit_square (1 # 2) (Comm 0 1)
           [("points", PyArray [])] (fresh_world 0) (talk, silence) [0; 1; 0; 1]%Q
           (PyInt 50) (PyFloat (3 # 10)) (inject_Z 50) (3 # 10)).
  - reflexivity.
  - vm_compute. reflexivity.
  - reflexivity.
  - discriminate.
  - vm_compute. reflexivity.
  - reflexivity.
  - discriminate.
  - vm_compute. reflexivity.
  - reflexivity.
  - vm_compute. reflexivity.
  - vm_compute. reflexivity.
  - simpl. lia.
Defined.

Lemma box_of_unsupported_dimension_example :
  let kwargs := [("bbox", PyTuple [PyFloat 0; PyFloat 1]); ("points", PyArray [[0]%Q])] in
  generate_mesh (Ext := Example.externals) 1 (DomainCallable (fun _ => (-1)%Q))
                (SizingScalar (1 # 2)) (Comm 0 1) kwargs (fresh_world 0)
  = (Raise TypeError, stored kwargs (fresh_world 0)).
Proof.
  intros kwargs.
  apply (box_of_unsupported_dimension_raises_TypeError
           (Ext := Example.externals) 1 _ (1 # 2) (Comm 0 1) kwargs (fresh_world 0)
           (talk, silence) [0; 1]%Q (PyInt 50) (PyFloat (3 # 10)) (inject_Z 50) (3 # 10)
           [[0]%Q]).
  - reflexivity.
  - vm_compute. reflexivity.
  - vm_compute. reflexivity.
  - reflexivity.
  - simpl. lia.
  - simpl. lia.
  - discriminate.
  - vm_compute. reflexivity.
  - reflexivity.
  - discriminate.
  - vm_compute. reflexivity.
  - reflexivity.
  - vm_compute. reflexivity.
  - vm_compute. reflexivity.
  - discriminate.
  - simpl. lia.
  - lia.
Defined.

(** ** A cell that names a missing vertex *)

Lemma remove_triangles_outside_raises_example :
  _remove_triangles_outside Example.triangle [[0; 1; 5]%nat] (fun _ => (-1)%Q) (1 # 20)
  = Raise IndexError.
Proof.
  apply remove_triangles_outside_raises_past_the_points.
  exists [0; 1; 5]%nat, 5%nat.
  split; [left; reflexivity|]. split; [simpl; tauto|simpl; lia].
Defined.

(** ** The state after a sliver removal *)

Lemma sliver_removal_state_example :
  let kwargs := [("max_iter", PyInt 3)] in
  (sliver_removal (Ext := Example.externals) 5 Example.tetra Example.unit_cube
                  (SizingScalar (1 # 2)) (Comm 0 1) kwargs (fresh_world 7)).2
  = World (dict_update opts kwargs) 7 [].
Proof.
  intros kwargs.
  apply (sliver_removal_changes_the_configuration_only
           (Ext := Example.externals) 5 Example.tetra Example.unit_cube
           (SizingScalar (1 # 2)) (Comm 0 1) kwargs (fresh_world 7)).
  reflexivity.
Defined.

(** ** The forces of one triangle handed to the assembly *)

Lemma compute_forces_assembly_example :
  exists (Ftot : list (list Q)) (b : bars) (I : list (list nat)) (S : list (list Q)),
    _compute_forces (Ext := Example.externals) Example.triangle [[0; 1; 2]%nat]
                    (fun _ => (1 # 2)%Q) (1 # 2) (12 # 10) = Ok Ftot
    /\ Ftot = dense (Externals := Example.externals) I
                    (repeat (seq 0 2 ++ seq 0 2) (length (b_F b))) S (3%nat, 2%nat).
Proof.
  assert (E : exists Ftot,
             _compute_forces (Ext := Example.externals) Example.triangle
                             [[0; 1; 2]%nat] (fun _ => (1 # 2)%Q) (1 # 2) (12 # 10)
             = Ok Ftot).
  { vm_compute. eexists. reflexivity. }
  destruct E as [Ftot E].
  destruct (compute_forces_action_and_reaction
              (Ext := Example.externals) _ _ _ _ _ _ E) as (b & I & S & _ & HF & _).
  exists Ftot, b, I, S. split; [exact E|exact HF].
Defined.

(** ** One vertex moved out of two *)

Lemma moved_vertices_example :
  In 1%nat
     (np_where (map (fun d => Qltb 0 d)
                    (_dist (Ext := Example.externals) [[0; 0]; [1; 0]]%Q
                           [[0; 0]; [0; 0]]%Q))).
Proof.
  apply (moved_vertices_are_the_ones_retriangulated
           (Ext := Example.externals) [[0; 0]; [1; 0]]%Q [[0; 0]; [0; 0]]%Q
           1%nat [1; 0]%Q [0; 0]%Q).
  - repeat constructor;
      first [ intros H; vm_compute in H; discriminate H
            | intros _; vm_compute; reflexivity ].
  - reflexivity.
  - reflexivity.
  - exists 0%nat, 1%Q, 0%Q. split; [reflexivity|]. split; [reflexivity|].
    intros H. discriminate H.
Defined.
